(** * project_obsidian: job lifecycle and queue-driven pipeline

    A shallow embedding of the Go sources that implement the job store
    (PostgreSQL), the work queue (Redis lists), the queue service with its
    worker loop, and the stage handlers, followed by the properties the
    specification states about them.

    Conventions.
    - Go's [int64] and [time.Time] values are integers ([Z]); no arithmetic
      of the program can overflow them (identifiers are only copied).
    - A Go function returning [(T, error)] is a computation of type [M T]:
      it receives the world and returns an [Outcome] and the new world.  A
      handler may also panic, see [HandlerResult].
    - [fmt.Errorf("ctx: %w", err)] is string concatenation.
    - The clock is read without being advanced; it advances, in seconds,
      by [time.Sleep] and by the timeout of a blocking pop.
    - Logging has no effect on the stores and is left out. *)

From stdpp Require Import gmap strings list sorting.
From Stdlib Require Import ZArith Lia.

Local Open Scope string_scope.
Local Open Scope Z_scope.

Set Warnings "-register-all".

(** ** Go values, JSON, and what the wire does to a payload *)

(** The dynamic values a [Payload any] field holds in this program.  A Go
    map is an association list whose lookup returns the first binding. *)
Inductive GoValue : Type :=
| VNil
| VBool (b : bool)
| VString (s : string)
| VInt64 (n : Z)
| VFloat64 (n : Z)
| VMapString (m : list (string * string))
| VSlice (l : list GoValue)
| VMap (m : list (string * GoValue)).

(** JSON documents (numbers of this program are integers). *)
Inductive JSON : Type :=
| JNull
| JBool (b : bool)
| JNumber (n : Z)
| JString (s : string)
| JArray (l : list JSON)
| JObject (fields : list (string * JSON)).

(** [json.Marshal] on a dynamic value. *)
Fixpoint marshal_any (v : GoValue) : JSON :=
  match v with
  | VNil => JNull
  | VBool b => JBool b
  | VString s => JString s
  | VInt64 n => JNumber n
  | VFloat64 n => JNumber n
  | VMapString m => JObject (map (fun kv => (fst kv, JString (snd kv))) m)
  | VSlice l => JArray (map marshal_any l)
  | VMap m => JObject (map (fun kv => (fst kv, marshal_any (snd kv))) m)
  end.

(** [json.Unmarshal] into an [any]: objects become [map[string]interface{}],
    numbers become [float64], whatever they were before marshalling.  Of a
    repeated key the decoder keeps the last occurrence, hence the [rev]. *)
Fixpoint unmarshal_any (j : JSON) : GoValue :=
  match j with
  | JNull => VNil
  | JBool b => VBool b
  | JNumber n => VFloat64 n
  | JString s => VString s
  | JArray l => VSlice (map unmarshal_any l)
  | JObject fields =>
      VMap (rev (map (fun kv => (fst kv, unmarshal_any (snd kv))) fields))
  end.

(** [m[k]] on a [map[string]interface{}]; [None] is the missing key. *)
Fixpoint map_index (m : list (string * GoValue)) (k : string) : option GoValue :=
  match m with
  | [] => None
  | (k', v) :: m' => if String.eqb k' k then Some v else map_index m' k
  end.

(** The type assertions of the handlers, in their two-result form
    [x, ok := v.(T)]. *)
Definition assert_map (v : GoValue) : option (list (string * GoValue)) :=
  match v with VMap m => Some m | _ => None end.

Definition assert_string (v : option GoValue) : option string :=
  match v with Some (VString s) => Some s | _ => None end.

Definition assert_int64 (v : option GoValue) : option Z :=
  match v with Some (VInt64 n) => Some n | _ => None end.

(** ** Entities (package entity) *)

Abbreviation JobStatus := string (only parsing).
Abbreviation JobType := string (only parsing).

Definition JobStatusCreated : JobStatus := "created".
Definition JobStatusProcessing : JobStatus := "processing".
Definition JobStatusTranscribed : JobStatus := "transcribed".
Definition JobStatusSummarized : JobStatus := "summarized".
Definition JobStatusCompleted : JobStatus := "completed".
Definition JobStatusFailed : JobStatus := "failed".
Definition JobStatusQueued : JobStatus := "queued".
Definition JobStatusPending : JobStatus := "pending".

Definition JobTypeTranscription : JobType := "transcription".
Definition JobTypeTranscriptionWithTimestamps : JobType := "transcription_with_timestamps".
Definition JobTypeSummarization : JobType := "summarization".
Definition JobTypeSummarizationWithBulletPoints : JobType := "summarization_with_bullets".
Definition JobTypeNotionSync : JobType := "notion_sync".
Definition JobTypeNotion : JobType := "notion".
Definition JobTypeNotification : JobType := "notification".

(** [entity.User]; also a row of table [users]. *)
Record User : Type := mkUser {
  u_ID : Z;
  u_TelegramID : Z;
  u_Username : string;
  u_FirstName : string;
  u_LastName : string;
  u_NotionToken : string;
  u_NotionDatabaseID : string;
  u_CreatedAt : Z;
  u_UpdatedAt : Z
}.

(** [entity.Job], restricted to the columns the repository reads and writes
    (Type, FileName and Duration never reach a query).  [j_CompletedAt] is
    the [*time.Time]: [None] is the nil pointer, SQL NULL. *)
Record Job : Type := mkJob {
  j_ID : Z;
  j_UserID : Z;
  j_Status : JobStatus;
  j_AudioFilePath : string;
  j_Transcription : string;
  j_Summary : string;
  j_NotionPageID : string;
  j_NotionDatabaseID : string;
  j_CreatedAt : Z;
  j_UpdatedAt : Z;
  j_CompletedAt : option Z;
  j_ErrorMessage : string
}.

(** [entity.QueueJob]. *)
Record QueueJob : Type := mkQueueJob {
  q_ID : Z;
  q_JobID : Z;
  q_UserID : Z;
  q_JobType : JobType;
  q_CreatedAt : Z;
  q_Payload : GoValue
}.

(** A Redis bulk string: the JSON text of a queue job (typed fields survive
    the wire unchanged, the payload is a JSON document), or bytes that
    [json.Unmarshal] rejects. *)
Inductive Bulk : Type :=
| JobJSON (id job_id user_id : Z) (job_type : string) (created_at : Z) (payload : JSON)
| Raw (s : string).

Definition json_Marshal (job : QueueJob) : Bulk :=
  JobJSON (q_ID job) (q_JobID job) (q_UserID job) (q_JobType job)
          (q_CreatedAt job) (marshal_any (q_Payload job)).

Definition json_Unmarshal (b : Bulk) : option QueueJob :=
  match b with
  | JobJSON id job_id user_id job_type created_at payload =>
      Some (mkQueueJob id job_id user_id job_type created_at (unmarshal_any payload))
  | Raw _ => None
  end.

(** ** The world: both stores, the clock, and the environment *)

(** What the handlers ask of the outside: calls to the external
    collaborators, and the key of each user lookup. *)
Inductive Call : Type :=
| CallProcessAudio (audioPath : string)
| CallTranscribe (audioFilePath : string)
| CallSummarizeText (text : string)
| CallCreatePage (databaseID : string) (at_time : Z) (summary transcription : string)
| CallSendProgressUpdate (jobID : Z) (status : JobStatus)
| QueryUserByTelegramID (telegramID : Z).

(** [w_pg_faults] and [w_redis_faults] are the environment's schedule of
    transport failures: every statement sent to PostgreSQL, and every
    command sent to Redis, consumes the head of its schedule and fails when
    that head is [true]; an exhausted schedule means no further failure. *)
Record World : Type := mkWorld {
  w_jobs : gmap Z Job;
  w_jobs_seq : Z;
  w_users : list User;
  w_queues : gmap string (list Bulk);
  w_clock : Z;
  w_pg_faults : list bool;
  w_redis_faults : list bool;
  w_calls : list Call
}.

Definition set_jobs (f : gmap Z Job -> gmap Z Job) (w : World) : World :=
  mkWorld (f (w_jobs w)) (w_jobs_seq w) (w_users w) (w_queues w) (w_clock w)
          (w_pg_faults w) (w_redis_faults w) (w_calls w).

Definition set_jobs_seq (n : Z) (w : World) : World :=
  mkWorld (w_jobs w) n (w_users w) (w_queues w) (w_clock w)
          (w_pg_faults w) (w_redis_faults w) (w_calls w).

Definition set_queues (f : gmap string (list Bulk) -> gmap string (list Bulk))
    (w : World) : World :=
  mkWorld (w_jobs w) (w_jobs_seq w) (w_users w) (f (w_queues w)) (w_clock w)
          (w_pg_faults w) (w_redis_faults w) (w_calls w).

Definition set_clock (t : Z) (w : World) : World :=
  mkWorld (w_jobs w) (w_jobs_seq w) (w_users w) (w_queues w) t
          (w_pg_faults w) (w_redis_faults w) (w_calls w).

Definition set_pg_faults (l : list bool) (w : World) : World :=
  mkWorld (w_jobs w) (w_jobs_seq w) (w_users w) (w_queues w) (w_clock w)
          l (w_redis_faults w) (w_calls w).

Definition set_redis_faults (l : list bool) (w : World) : World :=
  mkWorld (w_jobs w) (w_jobs_seq w) (w_users w) (w_queues w) (w_clock w)
          (w_pg_faults w) l (w_calls w).

Definition add_call (c : Call) (w : World) : World :=
  mkWorld (w_jobs w) (w_jobs_seq w) (w_users w) (w_queues w) (w_clock w)
          (w_pg_faults w) (w_redis_faults w) (w_calls w ++ [c]).

(** ** Computations that may fail *)

Inductive Outcome (A : Type) : Type :=
| Ok (a : A)
| Err (e : string).
Arguments Ok {A} a.
Arguments Err {A} e.

Definition M (A : Type) : Type := World -> Outcome A * World.

Definition ret {A} (a : A) : M A := fun w => (Ok a, w).
Definition fail {A} (e : string) : M A := fun w => (Err e, w).

Definition bind {A B} (m : M A) (k : A -> M B) : M B :=
  fun w =>
    match m w with
    | (Ok a, w') => k a w'
    | (Err e, w') => (Err e, w')
    end.

Notation "x <- m ;; k" := (bind m (fun x => k))
  (at level 100, m at next level, right associativity).
Notation "m ;;; k" := (bind m (fun _ => k))
  (at level 100, right associativity).

(** [if err != nil { return fmt.Errorf(ctx + ": %w", err) }] *)
Definition wrap {A} (ctx : string) (m : M A) : M A :=
  fun w =>
    match m w with
    | (Err e, w') => (Err (ctx +:+ ": " +:+ e), w')
    | r => r
    end.

Definition modify (f : World -> World) : M unit := fun w => (Ok tt, f w).
Definition gets {A} (f : World -> A) : M A := fun w => (Ok (f w), w).

Definition time_Now : M Z := gets w_clock.
Definition time_Sleep (d : Z) : M unit := modify (fun w => set_clock (w_clock w + d) w).

(** ** PostgreSQL and Redis clients *)

(** The head of each failure schedule, and the world once it is consumed. *)
Definition pg_failed (w : World) : bool := hd false (w_pg_faults w).
Definition pg_next (w : World) : World := set_pg_faults (tail (w_pg_faults w)) w.
Definition redis_failed (w : World) : bool := hd false (w_redis_faults w).
Definition redis_next (w : World) : World := set_redis_faults (tail (w_redis_faults w)) w.

(** One round trip to PostgreSQL.  A failed statement changes no row. *)
Definition pg_roundtrip : M unit :=
  fun w =>
    if pg_failed w then (Err "pg: statement failed", pg_next w) else (Ok tt, pg_next w).

Definition redis_roundtrip : M unit :=
  fun w =>
    if redis_failed w then (Err "redis: connection failed", redis_next w)
    else (Ok tt, redis_next w).

(** The list stored under a key; a missing key is the empty list. *)
Definition llist (qs : gmap string (list Bulk)) (key : string) : list Bulk :=
  default [] (qs !! key).

(** [RedisClient.RPush]: append at the tail. *)
Definition RPush (key : string) (value : Bulk) : M unit :=
  redis_roundtrip ;;;
  modify (set_queues (fun qs => <[key := (llist qs key ++ [value])%list]> qs)).

(** The reply of [BLPOP]. *)
Inductive BLPopReply : Type :=
| ReplyNil
| ReplyError (e : string)
| ReplyArray (elems : list Bulk).

(** [RedisClient.BLPop] on one key: the head of the list with the key's name
    in front, or, the list being empty when the timeout has elapsed, the
    [redis.Nil] reply. *)
Definition BLPop (timeout : Z) (key : string) : World -> BLPopReply * World :=
  fun w =>
    match redis_roundtrip w with
    | (Ok _, w1) =>
        match llist (w_queues w1) key with
        | [] => (ReplyNil, set_clock (w_clock w1 + timeout) w1)
        | value :: rest =>
            (ReplyArray [Raw key; value], set_queues (fun qs => <[key := rest]> qs) w1)
        end
    | (Err e, w1) => (ReplyError e, w1)
    end.

(** [RedisClient.LLen] *)
Definition LLen (key : string) : M Z :=
  redis_roundtrip ;;;
  gets (fun w => Z.of_nat (length (llist (w_queues w) key))).

(** ** Job store (JobRepositoryPG) *)

Definition is_terminal (status : JobStatus) : bool :=
  bool_decide (status = JobStatusCompleted) || bool_decide (status = JobStatusFailed).

(** [Create]: the three assignments, then the INSERT with RETURNING id.  The
    sequence behind the SERIAL column advances even when the foreign key to
    [users(id)] rejects the row.  The result is the caller's [*job] after a
    successful call. *)
Definition Create (job : Job) : M Job :=
  now <- time_Now ;;
  wrap "failed to create job"
    (pg_roundtrip ;;;
     id <- gets (fun w => w_jobs_seq w + 1) ;;
     modify (set_jobs_seq id) ;;;
     known <- gets (fun w => existsb (fun u => u_ID u =? j_UserID job) (w_users w)) ;;
     if negb known then fail "insert violates foreign key constraint" else
     taken <- gets (fun w => bool_decide (is_Some (w_jobs w !! id))) ;;
     if (taken : bool) then fail "duplicate key value" else
     let row :=
       mkJob id (j_UserID job) JobStatusPending (j_AudioFilePath job)
             (j_Transcription job) (j_Summary job) (j_NotionPageID job)
             (j_NotionDatabaseID job) now now (j_CompletedAt job)
             (j_ErrorMessage job) in
     modify (set_jobs (fun t => <[id := row]> t)) ;;;
     ret row).

(** [GetByID] *)
Definition GetByID (id : Z) : M Job :=
  fun w =>
    match pg_roundtrip w with
    | (Ok _, w1) =>
        match w_jobs w1 !! id with
        | Some row => (Ok row, w1)
        | None => (Err "job not found", w1)
        end
    | (Err e, w1) => (Err ("failed to get job: " +:+ e), w1)
    end.

(** An UPDATE ... WHERE id = $n: no matching row is no error. *)
Definition pg_update (id : Z) (f : Job -> Job) : M unit :=
  pg_roundtrip ;;; modify (set_jobs (fun t => alter f id t)).

(** The SET clauses of the four narrow updates. *)
Definition set_status (status : JobStatus) (now : Z) (completedAt : option Z)
    (errorMessage : string) (j : Job) : Job :=
  mkJob (j_ID j) (j_UserID j) status (j_AudioFilePath j) (j_Transcription j)
        (j_Summary j) (j_NotionPageID j) (j_NotionDatabaseID j)
        (j_CreatedAt j) now completedAt errorMessage.

Definition set_transcription (transcription : string) (now : Z) (j : Job) : Job :=
  mkJob (j_ID j) (j_UserID j) (j_Status j) (j_AudioFilePath j) transcription
        (j_Summary j) (j_NotionPageID j) (j_NotionDatabaseID j)
        (j_CreatedAt j) now (j_CompletedAt j) (j_ErrorMessage j).

Definition set_summary (summary : string) (now : Z) (j : Job) : Job :=
  mkJob (j_ID j) (j_UserID j) (j_Status j) (j_AudioFilePath j) (j_Transcription j)
        summary (j_NotionPageID j) (j_NotionDatabaseID j)
        (j_CreatedAt j) now (j_CompletedAt j) (j_ErrorMessage j).

Definition set_notion_ids (pageID databaseID : string) (now : Z) (j : Job) : Job :=
  mkJob (j_ID j) (j_UserID j) (j_Status j) (j_AudioFilePath j) (j_Transcription j)
        (j_Summary j) pageID databaseID
        (j_CreatedAt j) now (j_CompletedAt j) (j_ErrorMessage j).

(** [UpdateStatus] *)
Definition UpdateStatus (id : Z) (status : JobStatus) (errorMessage : string) : M unit :=
  now <- time_Now ;;
  let completedAt := if is_terminal status then Some now else None in
  wrap "failed to update job status"
    (pg_update id (set_status status now completedAt errorMessage)).

(** [SetTranscription] *)
Definition SetTranscription (id : Z) (transcription : string) : M unit :=
  now <- time_Now ;;
  wrap "failed to set transcription" (pg_update id (set_transcription transcription now)).

(** [SetSummary] *)
Definition SetSummary (id : Z) (summary : string) : M unit :=
  now <- time_Now ;;
  wrap "failed to set summary" (pg_update id (set_summary summary now)).

(** [SetNotionIDs] *)
Definition SetNotionIDs (id : Z) (pageID databaseID : string) : M unit :=
  now <- time_Now ;;
  wrap "failed to set notion IDs" (pg_update id (set_notion_ids pageID databaseID now)).

(** ** User store (UserRepositoryPG) *)

(** The SELECT of [GetByTelegramID] names seven columns; the two Notion
    columns are not among them, so those fields keep their zero value. *)
Definition scan_user (row : User) : User :=
  mkUser (u_ID row) (u_TelegramID row) (u_Username row) (u_FirstName row)
         (u_LastName row) "" "" (u_CreatedAt row) (u_UpdatedAt row).

Definition GetByTelegramID (telegramID : Z) : M User :=
  fun w =>
    let w0 := add_call (QueryUserByTelegramID telegramID) w in
    match pg_roundtrip w0 with
    | (Ok _, w1) =>
        match find (fun row => u_TelegramID row =? telegramID) (w_users w1) with
        | Some row => (Ok (scan_user row), w1)
        | None => (Err "user not found", w1)
        end
    | (Err e, w1) => (Err ("failed to get user: " +:+ e), w1)
    end.

(** ** Work queue (QueueRepositoryRedis) *)

(** [job.CreatedAt = now] *)
Definition stamped (now : Z) (job : QueueJob) : QueueJob :=
  mkQueueJob (q_ID job) (q_JobID job) (q_UserID job) (q_JobType job) now (q_Payload job).

(** [Push]: stamp, marshal, append at the tail. *)
Definition Push (queueName : string) (job : QueueJob) : M unit :=
  now <- time_Now ;;
  let job := stamped now job in
  wrap "failed to push job to queue" (RPush queueName (json_Marshal job)).

(** [Pop]: blocking pop from the head with a timeout of one second; the
    [redis.Nil] reply is a nil job and a nil error. *)
Definition Pop (queueName : string) : M (option QueueJob) :=
  fun w =>
    match BLPop 1 queueName w with
    | (ReplyNil, w1) => (Ok None, w1)
    | (ReplyError e, w1) => (Err ("failed to pop job from queue: " +:+ e), w1)
    | (ReplyArray result, w1) =>
        if (length result <? 2)%nat then (Ok None, w1) else
        match result !! 1%nat ≫= json_Unmarshal with
        | Some job => (Ok (Some job), w1)
        | None => (Err "failed to unmarshal job: invalid character", w1)
        end
    end.

(** [Size] *)
Definition Size (queueName : string) : M Z :=
  wrap "failed to get queue size" (LLen queueName).

(** ** Queue service (package queue) *)

Definition DefaultQueueName : string := "default".

(** [QueueService.PushJob] *)
Definition PushJob (job : QueueJob) : M unit :=
  let queueName := q_JobType job in
  wrap "failed to push job to queue" (Push queueName job) ;;;
  wrap "failed to update job status" (UpdateStatus (q_JobID job) JobStatusQueued "") ;;;
  ret tt.

(** [QueueService.PopJob].  The Go function returns a pair; both components
    can be non-nil at once, so the pair is kept as it is. *)
Definition PopJob (queueName : string) : World -> (option QueueJob * option string) * World :=
  fun w =>
    match Pop queueName w with
    | (Err e, w1) => ((None, Some ("failed to pop job from queue: " +:+ e)), w1)
    | (Ok None, w1) => ((None, None), w1)
    | (Ok (Some job), w1) =>
        match UpdateStatus (q_JobID job) JobStatusProcessing "" w1 with
        | (Err e, w2) => ((Some job, Some ("failed to update job status: " +:+ e)), w2)
        | (Ok _, w2) => ((Some job, None), w2)
        end
    end.

(** [QueueService.GetQueueSize] *)
Definition GetQueueSize : M Z :=
  wrap "failed to get queue size" (Size DefaultQueueName).

Definition EnqueueTranscriptionJob (jobID userID : Z) (audioFilePath : string) : M unit :=
  now <- time_Now ;;
  PushJob (mkQueueJob 0 jobID userID JobTypeTranscription now (VString audioFilePath)).

Definition EnqueueSummarizationJob (jobID userID : Z) (transcription : string) : M unit :=
  now <- time_Now ;;
  PushJob (mkQueueJob 0 jobID userID JobTypeSummarization now (VString transcription)).

Definition EnqueueNotionSyncJob (jobID userID : Z) (title content : string) : M unit :=
  let payload := VMapString [("title", title); ("content", content)] in
  now <- time_Now ;;
  PushJob (mkQueueJob 0 jobID userID JobTypeNotionSync now payload).

(** ** Worker *)

(** What a call of a handler comes to: it returns (a nil or non-nil error),
    or it panics. *)
Inductive HandlerResult : Type :=
| HReturn (err : option string)
| HPanic (e : string).

Definition JobHandler : Type := QueueJob -> World -> HandlerResult * World.

Definition returning (m : M unit) : World -> HandlerResult * World :=
  fun w =>
    match m w with
    | (Ok _, w') => (HReturn None, w')
    | (Err e, w') => (HReturn (Some e), w')
    end.

Record Worker : Type := mkWorker {
  handlers : gmap string JobHandler
}.

Definition NewWorker : Worker := mkWorker ∅.

(** [Worker.RegisterHandler]: [w.handlers[jobType] = handler] *)
Definition Worker_RegisterHandler (wk : Worker) (jobType : JobType) (handler : JobHandler) : Worker :=
  mkWorker (<[jobType := handler]> (handlers wk)).

(** [Worker.processJob]; the result is the panic that escaped, if any. *)
Definition processJob (wk : Worker) (job : QueueJob) : World -> option string * World :=
  fun w =>
    match handlers wk !! q_JobType job with
    | None => (None, w)
    | Some handler =>
        match handler job w with
        | (HReturn _, w') => (None, w')
        | (HPanic e, w') => (Some e, w')
        end
    end.

(** What the [select] of one iteration finds ready. *)
Inductive Signal : Type :=
| NoSignal
| CtxDone
| ShutdownClosed.

(** The goroutine of [Worker.Start] after some iterations: still looping,
    returned, or brought down by a panic. *)
Inductive LoopState : Type :=
| Running (w : World)
| Returned (w : World)
| Crashed (e : string) (w : World).

(** One iteration of the [for] loop of [Worker.Start]. *)
Definition iteration (wk : Worker) (sig : Signal) (w : World) : LoopState :=
  match sig with
  | CtxDone => Returned w
  | ShutdownClosed => Returned w
  | NoSignal =>
      match PopJob DefaultQueueName w with
      | ((_, Some err), w1) => Running (snd (time_Sleep 1 w1))
      | ((None, None), w1) => Running (snd (time_Sleep 1 w1))
      | ((Some job, None), w1) =>
          match processJob wk job w1 with
          | (None, w2) => Running w2
          | (Some e, w2) => Crashed e w2
          end
      end
  end.

(** The loop, driven by what each iteration's [select] observes. *)
Fixpoint worker_loop (wk : Worker) (sigs : list Signal) (w : World) : LoopState :=
  match sigs with
  | [] => Running w
  | sig :: sigs' =>
      match iteration wk sig w with
      | Running w' => worker_loop wk sigs' w'
      | stopped => stopped
      end
  end.

(** [QueueService]: its repositories are the world, its state the worker. *)
Record QueueService : Type := mkQueueService {
  worker : option Worker
}.

Definition NewQueueService : QueueService := mkQueueService (Some NewWorker).

Definition RegisterHandler (s : QueueService) (jobType : JobType) (handler : JobHandler)
    : QueueService :=
  let wk := default NewWorker (worker s) in
  mkQueueService (Some (Worker_RegisterHandler wk jobType handler)).

(** [QueueService.StartWorker]: the loop of the worker it holds. *)
Definition StartWorker (s : QueueService) (sigs : list Signal) (w : World) : LoopState :=
  worker_loop (default NewWorker (worker s)) sigs w.

(** ** Stage handlers (package usecase) *)

(** The external collaborators behind the service interfaces.  Each is a
    synchronous request with a value or an error for an answer.  The file
    name [ProcessAudio] also receives is [filepath.Base] of its path; the
    title and body [CreatePage] receives are formatted from the time of the
    call, the summary and the transcription. *)
Record Services : Type := mkServices {
  audio_ProcessAudio : string -> Outcome string;
  transcription_Transcribe : string -> Outcome string;
  summarization_SummarizeText : string -> Outcome string;
  notion_CreatePage : string -> Z -> string -> string -> Outcome string
}.

Section usecase.

Variable svc : Services.

Definition ProcessAudio (audioPath : string) : M string :=
  fun w => (audio_ProcessAudio svc audioPath, add_call (CallProcessAudio audioPath) w).

Definition Transcribe (audioFilePath : string) : M string :=
  fun w => (transcription_Transcribe svc audioFilePath,
            add_call (CallTranscribe audioFilePath) w).

Definition SummarizeText (text : string) : M string :=
  fun w => (summarization_SummarizeText svc text, add_call (CallSummarizeText text) w).

Definition CreatePage (databaseID : string) (summary transcription : string) : M string :=
  now <- time_Now ;;
  fun w => (notion_CreatePage svc databaseID now summary transcription,
            add_call (CallCreatePage databaseID now summary transcription) w).

(** Modelled from the spec: [SendProgressUpdate] and [SendMessage] of the
    chat front end are not among the sources; the specification places the
    notification channel outside the core, so a progress update is a call
    to the outside whose result the handler ignores. *)
Definition SendProgressUpdate (jobID : Z) (status : JobStatus) : M unit :=
  modify (add_call (CallSendProgressUpdate jobID status)).

(** [TranscriptionProcessingUseCase.ProcessTranscription] *)
Definition ProcessTranscription (job : QueueJob) : M unit :=
  match assert_map (q_Payload job) with
  | None => fail "invalid payload type in job"
  | Some payload =>
  match assert_string (map_index payload "audio_path") with
  | None => fail "audio_path not found in job payload or has invalid type"
  | Some audioPath =>
      processedAudioPath <-
        wrap "failed to process audio for transcription" (ProcessAudio audioPath) ;;
      SendProgressUpdate (q_JobID job) JobStatusProcessing ;;;
      transcription <- wrap "failed to transcribe audio" (Transcribe processedAudioPath) ;;
      SendProgressUpdate (q_JobID job) JobStatusTranscribed ;;;
      wrap "failed to update job transcription"
        (SetTranscription (q_JobID job) transcription) ;;;
      let payloadMap := default [] (assert_map (q_Payload job)) in
      let userID := default 0 (assert_int64 (map_index payloadMap "user_id")) in
      let summarizationJob :=
        mkQueueJob 0 (q_JobID job) 0 JobTypeSummarization 0
          (VMap [("transcription", VString transcription); ("user_id", VInt64 userID)]) in
      wrap "failed to push summarization job to queue" (PushJob summarizationJob) ;;;
      wrap "failed to update job status"
        (UpdateStatus (q_JobID job) JobStatusTranscribed "") ;;;
      ret tt
  end end.

(** [TranscriptionProcessingUseCase.ProcessTranscriptionWithTimestamps] *)
Definition ProcessTranscriptionWithTimestamps (job : QueueJob) : M unit :=
  match assert_map (q_Payload job) with
  | None => fail "invalid payload type in job"
  | Some payload =>
  match assert_string (map_index payload "audio_path") with
  | None => fail "audio_path not found in job payload or has invalid type"
  | Some audioPath =>
      processedAudioPath <-
        wrap "failed to process audio for transcription with timestamps"
          (ProcessAudio audioPath) ;;
      transcription <-
        wrap "failed to transcribe audio with timestamps" (Transcribe processedAudioPath) ;;
      wrap "failed to update job transcription with timestamps"
        (SetTranscription (q_JobID job) transcription) ;;;
      wrap "failed to update job status"
        (UpdateStatus (q_JobID job) JobStatusTranscribed "") ;;;
      ret tt
  end end.

(** [SummarizationProcessingUseCase.ProcessSummarization], of
    internal/usecase/summarization_processing.go *)
Definition ProcessSummarization (job : QueueJob) : M unit :=
  match assert_map (q_Payload job) with
  | None => fail "invalid payload type in job"
  | Some payload =>
  match assert_string (map_index payload "transcription") with
  | None => fail "transcription not found in job payload or has invalid type"
  | Some transcription =>
      summary <- wrap "failed to summarize text" (SummarizeText transcription) ;;
      wrap "failed to update job summary" (SetSummary (q_JobID job) summary) ;;;
      now <- time_Now ;;
      let notionJob :=
        mkQueueJob 0 (q_JobID job) (q_UserID job) JobTypeNotion now
          (VMap [("transcription", VString transcription); ("summary", VString summary)]) in
      wrap "failed to push notion job to queue" (PushJob notionJob) ;;;
      wrap "failed to update job status"
        (UpdateStatus (q_JobID job) JobStatusSummarized "") ;;;
      ret tt
  end end.

(** [SummarizationProcessingUseCase.ProcessSummarizationWithBulletPoints] *)
Definition ProcessSummarizationWithBulletPoints (job : QueueJob) : M unit :=
  match assert_map (q_Payload job) with
  | None => fail "invalid payload type in job"
  | Some payload =>
  match assert_string (map_index payload "transcription") with
  | None => fail "transcription not found in job payload or has invalid type"
  | Some transcription =>
      summary <-
        wrap "failed to summarize text with bullet points" (SummarizeText transcription) ;;
      wrap "failed to update job summary with bullet points"
        (SetSummary (q_JobID job) summary) ;;;
      wrap "failed to update job status"
        (UpdateStatus (q_JobID job) JobStatusSummarized "") ;;;
      ret tt
  end end.

(** The body of [ProcessNotionIntegration] once the payload is known to be
    a map. *)
Definition notion_integration (job : QueueJob) (payload : list (string * GoValue)) : M unit :=
  match assert_string (map_index payload "transcription") with
  | None => fail "transcription not found in job payload or has invalid type"
  | Some transcription =>
  match assert_string (map_index payload "summary") with
  | None => fail "summary not found in job payload or has invalid type"
  | Some summary =>
      let userID := q_UserID job in
      user <- wrap "failed to get user" (GetByTelegramID userID) ;;
      if String.eqb (u_NotionToken user) "" || String.eqb (u_NotionDatabaseID user) "" then
        wrap "failed to update job status"
          (UpdateStatus (q_JobID job) JobStatusCompleted "") ;;;
        ret tt
      else
        pageID <-
          wrap "failed to create Notion page"
            (CreatePage (u_NotionDatabaseID user) summary transcription) ;;
        wrap "failed to update job Notion IDs"
          (SetNotionIDs (q_JobID job) pageID (u_NotionDatabaseID user)) ;;;
        wrap "failed to update job status"
          (UpdateStatus (q_JobID job) JobStatusCompleted "") ;;;
        ret tt
  end end.

(** [NotionProcessingUseCase.ProcessNotionIntegration].  Its first type
    assertion has the one-result form, which panics on any other type. *)
Definition ProcessNotionIntegration (job : QueueJob) : World -> HandlerResult * World :=
  match q_Payload job with
  | VMap payload => returning (notion_integration job payload)
  | _ => fun w =>
      (HPanic "interface conversion: interface {} is not map[string]interface {}", w)
  end.

(** [TelegramHandlersUseCase.SendJobCompletionNotification], on the decimal
    rendering of a job id (which always parses back); of its results only
    the chat id is kept, the message text reaches no store. *)
Definition SendJobCompletionNotification (jobID : Z) : M Z :=
  job <- wrap "failed to get job" (GetByID jobID) ;;
  user <- wrap "failed to get user" (GetByTelegramID (j_UserID job)) ;;
  ret (u_TelegramID user).

(** [QueueHandlersUseCase.RegisterHandlers] *)
Definition RegisterHandlers (s : QueueService) : QueueService :=
  let s := RegisterHandler s JobTypeTranscription
             (fun job => returning (ProcessTranscription job)) in
  let s := RegisterHandler s JobTypeTranscriptionWithTimestamps
             (fun job => returning (ProcessTranscriptionWithTimestamps job)) in
  let s := RegisterHandler s JobTypeSummarization
             (fun job => returning (ProcessSummarization job)) in
  let s := RegisterHandler s JobTypeSummarizationWithBulletPoints
             (fun job => returning (ProcessSummarizationWithBulletPoints job)) in
  let s := RegisterHandler s JobTypeNotion ProcessNotionIntegration in
  let s := RegisterHandler s JobTypeNotification
             (fun job => returning (SendJobCompletionNotification (q_JobID job) ;;; ret tt)) in
  s.

(** [usecase.App.Start]: register the handlers, then start the worker. *)
Definition App_Start (sigs : list Signal) (w : World) : LoopState :=
  StartWorker (RegisterHandlers NewQueueService) sigs w.

End usecase.

(** ** Sequences of job store operations *)

Inductive StoreOp : Type :=
| OpCreate (job : Job)
| OpUpdateStatus (id : Z) (status : JobStatus) (errorMessage : string)
| OpSetTranscription (id : Z) (transcription : string)
| OpSetSummary (id : Z) (summary : string)
| OpSetNotionIDs (id : Z) (pageID databaseID : string).

Definition run_op (op : StoreOp) (w : World) : World :=
  match op with
  | OpCreate job => snd (Create job w)
  | OpUpdateStatus id status errorMessage => snd (UpdateStatus id status errorMessage w)
  | OpSetTranscription id transcription => snd (SetTranscription id transcription w)
  | OpSetSummary id summary => snd (SetSummary id summary w)
  | OpSetNotionIDs id pageID databaseID => snd (SetNotionIDs id pageID databaseID w)
  end.

Definition run_ops (ops : list StoreOp) (w : World) : World :=
  fold_left (fun w op => run_op op w) ops w.

(** completed_at is non-null iff the status is [completed] or [failed]. *)
Definition completed_at_ok (j : Job) : Prop :=
  is_Some (j_CompletedAt j) <->
  (j_Status j = JobStatusCompleted \/ j_Status j = JobStatusFailed).

Definition store_invariant (w : World) : Prop :=
  forall id j, w_jobs w !! id = Some j -> completed_at_ok j.

(** The jobs handed to [Create] carry a nil [CompletedAt]. *)
Definition creates_unfinished (op : StoreOp) : Prop :=
  match op with
  | OpCreate job => j_CompletedAt job = None
  | _ => True
  end.

(** ** Pushing and popping in sequence *)

Fixpoint push_all (queueName : string) (jobs : list QueueJob) (w : World) : World :=
  match jobs with
  | [] => w
  | job :: jobs' => push_all queueName jobs' (snd (Push queueName job w))
  end.

Fixpoint pop_n (queueName : string) (n : nat) (w : World)
    : list (Outcome (option QueueJob)) * World :=
  match n with
  | O => ([], w)
  | S n' =>
      let '(r, w1) := Pop queueName w in
      let '(rs, w2) := pop_n queueName n' w1 in
      (r :: rs, w2)
  end.

(** A queue job as it comes back from the queue when pushed at time [now]. *)
Definition on_the_wire (now : Z) (job : QueueJob) : QueueJob :=
  mkQueueJob (q_ID job) (q_JobID job) (q_UserID job) (q_JobType job) now
             (unmarshal_any (marshal_any (q_Payload job))).

(** No command sent to Redis fails from here on. *)
Definition redis_healthy (w : World) : Prop := Forall (eq false) (w_redis_faults w).

(** ** The worker as the application wires it *)

(** The worker [usecase.App.Start] runs: the one the queue service holds
    after [RegisterHandlers]. *)
Definition app_worker (svc : Services) : Worker :=
  default NewWorker (worker (RegisterHandlers svc NewQueueService)).

Definition loop_world (s : LoopState) : World :=
  match s with
  | Running w => w
  | Returned w => w
  | Crashed _ w => w
  end.

(** ** How the queues change *)

(** From [w] to [w'] every Redis list has only grown at its tail, and each
    item added to the list [name] satisfies [P name]. *)
Definition pushed (P : string -> Bulk -> Prop) (w w' : World) : Prop :=
  forall name, exists extra,
    llist (w_queues w') name = (llist (w_queues w) name ++ extra)%list /\
    Forall (P name) extra.

Definition pushes_only {A} (P : string -> Bulk -> Prop) (m : M A) : Prop :=
  forall w, pushed P w (snd (m w)).

Definition any_item : string -> Bulk -> Prop := fun _ _ => True.

(** C2 as a property of one queue job: once [PushJob] has put it on the
    queue named after its type, that queue still begins, after the worker
    loop of the application has run for any number of iterations, with all
    it held right after the push. *)
Definition never_popped (svc : Services) (job : QueueJob) : Prop :=
  forall w sigs,
    redis_failed w = false ->
    let w1 := snd (PushJob job w) in
    llist (w_queues w1) (q_JobType job) =
      (llist (w_queues w) (q_JobType job) ++ [json_Marshal (stamped (w_clock w) job)])%list /\
    exists extra,
      llist (w_queues (loop_world (App_Start svc sigs w1))) (q_JobType job) =
        (llist (w_queues w1) (q_JobType job) ++ extra)%list.

(** What [ProcessTranscription] reads as the user id:
    [payloadMap, _ := job.Payload.(map[string]interface{})] and then
    [userID, _ := payloadMap["user_id"].(int64)]. *)
Definition payload_user_id (job : QueueJob) : Z :=
  default 0 (assert_int64 (map_index (default [] (assert_map (q_Payload job))) "user_id")).

(** The items the transcription handler, and the summarization handler,
    put on a queue when they work on [job]. *)
Definition summarization_item (job : QueueJob) (name : string) (b : Bulk) : Prop :=
  name = JobTypeSummarization /\
  exists now transcription,
    b = JobJSON 0 (q_JobID job) 0 JobTypeSummarization now
          (JObject [("transcription", JString transcription);
                    ("user_id", JNumber (payload_user_id job))]).

Definition notion_item (job : QueueJob) (name : string) (b : Bulk) : Prop :=
  name = JobTypeNotion /\
  exists now transcription summary,
    b = JobJSON 0 (q_JobID job) (q_UserID job) JobTypeNotion now
          (JObject [("transcription", JString transcription);
                    ("summary", JString summary)]).

(** ** Sample data *)

Definition demo_services : Services :=
  mkServices (fun path => Ok (path +:+ ".wav"))
             (fun _ => Ok "hello world")
             (fun _ => Ok "greeting")
             (fun _ _ _ _ => Ok "page-123").

Definition demo_user : User := mkUser 42 42 "alex" "Alex" "" "" "" 0 0.

(** User 42 is registered; both stores are empty; no transport failure. *)
Definition demo_world : World := mkWorld ∅ 0 [demo_user] ∅ 100 [] [] [].

Definition demo_job : Job := mkJob 0 42 JobStatusCreated "a.ogg" "" "" "" "" 0 0 None "".

(** A job value whose [CompletedAt] is already set when it reaches [Create]. *)
Definition stale_job : Job := mkJob 0 42 JobStatusCreated "a.ogg" "" "" "" "" 0 0 (Some 5) "".

(** Job 1 of user 42 is in the table; its transcription queue job. *)
Definition demo_created : World := snd (Create demo_job demo_world).

Definition demo_queue_job : QueueJob :=
  mkQueueJob 0 1 42 JobTypeTranscription 100 (VString "a.ogg").

(** A transcription queue job as the handler expects it, carrying the path
    and the user id in a map, as it arrives from the queue. *)
Definition demo_wire_job : Bulk :=
  JobJSON 0 1 42 JobTypeTranscription 100
    (JObject [("audio_path", JString "a.ogg"); ("user_id", JNumber 42)]).

Definition demo_popped_job : QueueJob :=
  mkQueueJob 0 1 42 JobTypeTranscription 100
    (VMap [("user_id", VFloat64 42); ("audio_path", VString "a.ogg")]).

(** The end-to-end scenario of the specification up to the first pop: job 1
    created for user 42 with audio path "a.ogg", then enqueued. *)
Definition demo_enqueued : World :=
  snd (EnqueueTranscriptionJob 1 42 "a.ogg" demo_created).

(** Job 1 is in the table and the default queue holds, first, a
    transcription queue job whose payload is a map without "audio_path",
    then a notion_sync queue job, a type no handler is registered for. *)
Definition demo_default_queue : World :=
  set_queues
    (fun qs => <[DefaultQueueName :=
       [JobJSON 0 1 42 JobTypeTranscription 100 (JObject [("text", JString "a.ogg")]);
        JobJSON 0 1 42 JobTypeNotionSync 100
          (JObject [("title", JString "t"); ("content", JString "c")])]]> qs)
    demo_created.

(** ** Further operations of the repositories *)

Definition set_users (f : list User -> list User) (w : World) : World :=
  mkWorld (w_jobs w) (w_jobs_seq w) (f (w_users w)) (w_queues w) (w_clock w)
          (w_pg_faults w) (w_redis_faults w) (w_calls w).

(** [JobRepositoryPG.Update]: the UPDATE names nine columns; id, user_id and
    created_at are not among them. *)
Definition Update (job : Job) : M unit :=
  now <- time_Now ;;
  wrap "failed to update job"
    (pg_update (j_ID job) (fun row =>
       mkJob (j_ID row) (j_UserID row) (j_Status job) (j_AudioFilePath job)
             (j_Transcription job) (j_Summary job) (j_NotionPageID job)
             (j_NotionDatabaseID job) (j_CreatedAt row) now (j_CompletedAt job)
             (j_ErrorMessage job))).

(** ORDER BY created_at DESC *)
Definition newest_first (a b : Job) : Prop := j_CreatedAt b <= j_CreatedAt a.

#[local] Instance newest_first_dec a b : Decision (newest_first a b).
Proof. unfold newest_first. apply Z_le_dec. Defined.

(** [JobRepositoryPG.GetByUserID].  PostgreSQL rejects a negative LIMIT or
    OFFSET.  The order among rows of equal created_at is left open by the
    query; the model takes the one its sort yields. *)
Definition GetByUserID (userID : Z) (limit offset : Z) : M (list Job) :=
  fun w =>
    match pg_roundtrip w with
    | (Err e, w1) => (Err ("failed to query jobs: " +:+ e), w1)
    | (Ok _, w1) =>
        if limit <? 0 then (Err "failed to query jobs: LIMIT must not be negative", w1)
        else if offset <? 0 then (Err "failed to query jobs: OFFSET must not be negative", w1)
        else
          let rows := List.filter (fun j => j_UserID j =? userID)
                        (map snd (map_to_list (w_jobs w1))) in
          (Ok (take (Z.to_nat limit) (drop (Z.to_nat offset) (merge_sort newest_first rows))),
           w1)
    end.

(** [UserRepositoryPG.Update]: username, first_name, last_name and
    updated_at of the row with the user's id. *)
Definition User_Update (user : User) : M unit :=
  now <- time_Now ;;
  wrap "failed to update user"
    (pg_roundtrip ;;;
     modify (set_users (map (fun row =>
       if u_ID row =? u_ID user
       then mkUser (u_ID row) (u_TelegramID row) (u_Username user) (u_FirstName user)
                   (u_LastName user) (u_NotionToken row) (u_NotionDatabaseID row)
                   (u_CreatedAt row) now
       else row)))).

(** What [UserRepositoryPG.Update] leaves alone in every row. *)
Definition user_fixed (u : User) : Z * Z * string * string * Z :=
  (u_ID u, u_TelegramID u, u_NotionToken u, u_NotionDatabaseID u, u_CreatedAt u).

(** ** What the pipeline may do to table jobs *)

(** A row after some steps of the pipeline, against the row before: the
    columns no step writes are the same; the status is the old one or one of
    the five the pipeline sets; the error message is the old one or empty. *)
Definition row_step (j j' : Job) : Prop :=
  j_ID j' = j_ID j /\
  j_UserID j' = j_UserID j /\
  j_AudioFilePath j' = j_AudioFilePath j /\
  j_CreatedAt j' = j_CreatedAt j /\
  j_NotionPageID j' = j_NotionPageID j /\
  j_NotionDatabaseID j' = j_NotionDatabaseID j /\
  (j_Status j' = j_Status j \/
   In (j_Status j') [JobStatusQueued; JobStatusProcessing; JobStatusTranscribed;
                     JobStatusSummarized; JobStatusCompleted]) /\
  (j_ErrorMessage j' = j_ErrorMessage j \/ j_ErrorMessage j' = "").

(** No row has appeared or gone, each row has made a [row_step], and table
    users is untouched. *)
Definition table_step (w w' : World) : Prop :=
  w_users w' = w_users w /\
  forall id,
    match w_jobs w !! id, w_jobs w' !! id with
    | Some j, Some j' => row_step j j'
    | None, None => True
    | _, _ => False
    end.

Definition keeps {A} (R : World -> World -> Prop) (m : M A) : Prop :=
  forall w, R w (snd (m w)).

(** ** Ingestion and queries (AudioProcessingUseCase) *)

Section ingestion.

(** [AudioService.GetAudioDuration] answers with a float the program only
    copies into a field no query reads; its type is left open. *)
Variable Duration : Type.
Variable audio_GetAudioDuration : string -> Outcome Duration.

Definition GetAudioDuration (audioPath : string) : M Duration :=
  fun w => (audio_GetAudioDuration audioPath, w).

(** [AudioProcessingUseCase.ProcessAudio].  The branch [user == nil] is not
    there: [GetByTelegramID] returns a user or an error, never neither. *)
Definition AudioProcessing_ProcessAudio (userID : Z) (audioPath fileName : string) : M Z :=
  user <- wrap "failed to get user" (GetByTelegramID userID) ;;
  duration <- wrap "failed to get audio duration" (GetAudioDuration audioPath) ;;
  now <- time_Now ;;
  let job := mkJob 0 (u_ID user) JobStatusCreated audioPath "" "" "" "" now now None "" in
  job <- wrap "failed to create job" (Create job) ;;
  let jobID := j_ID job in
  wrap "failed to push job to queue"
    (EnqueueTranscriptionJob jobID (u_ID user) audioPath) ;;;
  ret jobID.

End ingestion.

(** ** Setting up the Notion integration *)

Section notion_setup.

Variable notion_CreateDatabase : Z -> string -> Outcome string.
Variable strings_TrimSpace : string -> string.

Definition CreateDatabase (userID : Z) (title : string) : M string :=
  fun w => (notion_CreateDatabase userID title, w).

(** [NotionProcessingUseCase.SetupNotionIntegration] *)
Definition SetupNotionIntegration (userID : Z) (notionToken : string) : M unit :=
  user <- wrap "failed to get user" (GetByTelegramID userID) ;;
  databaseID <-
    wrap "failed to create Notion database"
      (CreateDatabase (u_ID user) "Транскрипции аудио") ;;
  let user :=
    mkUser (u_ID user) (u_TelegramID user) (u_Username user) (u_FirstName user)
           (u_LastName user) notionToken databaseID (u_CreatedAt user) (u_UpdatedAt user) in
  wrap "failed to update user" (User_Update user) ;;;
  ret tt.

(** The line feed, written \n in the Go literals. *)
Definition LF : string := String (Ascii.ascii_of_nat 10) EmptyString.




End notion_setup.

(** ** Audio preparation (ffmpeg AudioService) *)

(** [filepath.Ext] of the Go library, on slash-separated paths: scan from
    the end, stop at a separator, and at the first dot return the path from
    there on.  [rpath] is what is still to scan, last byte first; [acc] is
    what the scan has passed.  Byte 47 is the slash, byte 46 the dot. *)
Fixpoint ext_scan (rpath acc : list Ascii.ascii) : list Ascii.ascii :=
  match rpath with
  | [] => []
  | c :: rest =>
      if Ascii.eqb c (Ascii.ascii_of_nat 47) then []
      else if Ascii.eqb c (Ascii.ascii_of_nat 46) then c :: acc
      else ext_scan rest (c :: acc)
  end.

Definition filepath_Ext (path : string) : string :=
  String.string_of_list_ascii (ext_scan (rev (String.list_ascii_of_string path)) []).

(** [changeExt]: [path[:len(path)-len(ext)] + newExt] *)
Definition changeExt (path newExt : string) : string :=
  let ext := filepath_Ext path in
  String.substring 0 (String.length path - String.length ext) path +:+ newExt.

(** [addSuffix]: [path[:len(path)-len(ext)] + suffix + ext] *)
Definition addSuffix (path suffix : string) : string :=
  let ext := filepath_Ext path in
  (String.substring 0 (String.length path - String.length ext) path +:+ suffix) +:+ ext.

(** What [os.Stat] can answer, as far as the service tells the answers
    apart: it only asks [os.IsNotExist]. *)
Inductive StatResult : Type :=
| StatOk
| StatNotExist (e : string)
| StatOtherError (e : string).

Section ffmpeg.

Variable ffmpegPath : string.

(** The commands run so far, oldest first, each with its argument vector;
    they are what has shaped the files. *)
Definition History : Type := list (list string).

(** [cmd.CombinedOutput]: [None] when the command exits with 0, otherwise
    the error and the output it printed; and [os.Stat]. *)
Variable exec_CombinedOutput : History -> list string -> option (string * string).
Variable os_Stat : History -> string -> StatResult.

(** The common shape of the three steps: run ffmpeg, then stat the output. *)
Definition run_ffmpeg (what : string) (argv : list string) (outputPath : string)
  : History -> Outcome string * History :=
  fun h =>
    let h1 := (h ++ [argv])%list in
    match exec_CombinedOutput h argv with
    | Some (err, output) =>
        (Err (what +:+ ": " +:+ err +:+ LF +:+ "Output: " +:+ output), h1)
    | None =>
        match os_Stat h1 outputPath with
        | StatNotExist e => (Err ("output file not created: " +:+ e), h1)
        | _ => (Ok outputPath, h1)
        end
    end.

Definition ConvertToWAV (inputPath : string) : History -> Outcome string * History :=
  let outputPath := changeExt inputPath ".wav" in
  run_ffmpeg "failed to convert audio"
    [ffmpegPath; "-i"; inputPath; "-acodec"; "pcm_s16le"; "-ar"; "16000"; "-ac"; "1"; "-y";
     outputPath]
    outputPath.

Definition NormalizeAudio (inputPath : string) : History -> Outcome string * History :=
  let outputPath := addSuffix inputPath "_normalized" in
  run_ffmpeg "failed to normalize audio"
    [ffmpegPath; "-i"; inputPath; "-filter:a"; "loudnorm=I=-16:TP=-1.5:LRA=11"; "-y";
     outputPath]
    outputPath.

Definition RemoveNoise (inputPath : string) : History -> Outcome string * History :=
  let outputPath := addSuffix inputPath "_denoised" in
  run_ffmpeg "failed to remove noise"
    [ffmpegPath; "-i"; inputPath; "-af"; "afftdn=nf=-25"; "-y"; outputPath]
    outputPath.

Definition ProcessAudioForTranscription (inputPath : string)
  : History -> Outcome string * History :=
  fun h =>
    match ConvertToWAV inputPath h with
    | (Err e, h1) => (Err ("failed to convert to WAV: " +:+ e), h1)
    | (Ok wavPath, h1) =>
    match NormalizeAudio wavPath h1 with
    | (Err e, h2) => (Err ("failed to normalize audio: " +:+ e), h2)
    | (Ok normalizedPath, h2) =>
    match RemoveNoise normalizedPath h2 with
    | (Err e, h3) => (Err ("failed to remove noise: " +:+ e), h3)
    | (Ok denoisedPath, h3) => (Ok denoisedPath, h3)
    end end end.

(** [AudioService.ProcessAudio]: the file name is ignored. *)
Definition AudioService_ProcessAudio (audioPath fileName : string)
  : History -> Outcome string * History :=
  ProcessAudioForTranscription audioPath.

End ffmpeg.

(** * Properties *)

(** ** Reasoning about computations *)

Lemma bind_eq {A B} (m : M A) (k : A -> M B) w :
  bind m k w = match m w with (Ok a, w') => k a w' | (Err e, w') => (Err e, w') end.
Proof. reflexivity. Qed.

Lemma wrap_world {A} ctx (m : M A) w : snd (wrap ctx m w) = snd (m w).
Proof. unfold wrap. destruct (m w) as [[a|e] w']; reflexivity. Qed.

Lemma wrap_ok {A} ctx (m : M A) w a w' : m w = (Ok a, w') -> wrap ctx m w = (Ok a, w').
Proof. unfold wrap. intros ->. reflexivity. Qed.

Lemma wrap_err {A} ctx (m : M A) w e w' :
  m w = (Err e, w') -> wrap ctx m w = (Err (ctx +:+ ": " +:+ e), w').
Proof. unfold wrap. intros ->. reflexivity. Qed.

(** ** What one statement does to table jobs *)

Lemma pg_update_eq id f w :
  pg_update id f w =
  if pg_failed w then (Err "pg: statement failed", pg_next w)
  else (Ok tt, set_jobs (alter f id) (pg_next w)).
Proof.
  unfold pg_update, bind, pg_roundtrip, modify.
  destruct (pg_failed w); reflexivity.
Qed.

Lemma pg_update_jobs id f w :
  w_jobs (snd (pg_update id f w)) = w_jobs w \/
  w_jobs (snd (pg_update id f w)) = alter f id (w_jobs w).
Proof. rewrite pg_update_eq. destruct (pg_failed w); [left | right]; reflexivity. Qed.

Lemma UpdateStatus_eq id status msg w :
  UpdateStatus id status msg w =
  let now := w_clock w in
  let completedAt := if is_terminal status then Some now else None in
  if pg_failed w
  then (Err "failed to update job status: pg: statement failed", pg_next w)
  else (Ok tt, set_jobs (alter (set_status status now completedAt msg) id) (pg_next w)).
Proof.
  unfold UpdateStatus, bind, time_Now, gets, wrap. rewrite pg_update_eq.
  destruct (pg_failed w); reflexivity.
Qed.

Lemma is_terminal_spec status :
  is_terminal status = true <-> status = JobStatusCompleted \/ status = JobStatusFailed.
Proof.
  unfold is_terminal. rewrite orb_true_iff, !bool_decide_eq_true. reflexivity.
Qed.

Lemma set_status_ok status now msg j :
  completed_at_ok (set_status status now (if is_terminal status then Some now else None) msg j).
Proof.
  unfold completed_at_ok. cbn [set_status j_CompletedAt j_Status].
  rewrite <- is_terminal_spec. destruct (is_terminal status); split; intros H.
  - reflexivity.
  - eexists; reflexivity.
  - destruct H as [? H]; discriminate H.
  - discriminate H.
Qed.

Lemma alter_invariant (f : Job -> Job) id (t : gmap Z Job) :
  (forall j, completed_at_ok j -> completed_at_ok (f j)) ->
  (forall i j, t !! i = Some j -> completed_at_ok j) ->
  forall i j, alter f id t !! i = Some j -> completed_at_ok j.
Proof.
  intros Hf Ht i j. rewrite lookup_alter. case_decide as Hi.
  - subst i. destruct (t !! id) as [j0|] eqn:E; simpl; intros Hj; [|discriminate Hj].
    injection Hj as <-. apply Hf. eapply Ht. exact E.
  - apply Ht.
Qed.

Lemma pg_update_invariant id f w :
  (forall j, completed_at_ok j -> completed_at_ok (f j)) ->
  store_invariant w -> store_invariant (snd (pg_update id f w)).
Proof.
  intros Hf Hw. unfold store_invariant.
  destruct (pg_update_jobs id f w) as [-> | ->]; [exact Hw |].
  apply alter_invariant; assumption.
Qed.

Lemma UpdateStatus_invariant id status msg w :
  store_invariant w -> store_invariant (snd (UpdateStatus id status msg w)).
Proof.
  intros Hw. unfold UpdateStatus, bind, time_Now, gets. cbn [fst snd].
  rewrite wrap_world. apply pg_update_invariant; [|exact Hw].
  intros j _. apply set_status_ok.
Qed.

Lemma SetTranscription_invariant id text w :
  store_invariant w -> store_invariant (snd (SetTranscription id text w)).
Proof.
  intros Hw. unfold SetTranscription, bind, time_Now, gets. cbn [fst snd].
  rewrite wrap_world. apply pg_update_invariant; [|exact Hw].
  intros j Hj. exact Hj.
Qed.

Lemma SetSummary_invariant id text w :
  store_invariant w -> store_invariant (snd (SetSummary id text w)).
Proof.
  intros Hw. unfold SetSummary, bind, time_Now, gets. cbn [fst snd].
  rewrite wrap_world. apply pg_update_invariant; [|exact Hw].
  intros j Hj. exact Hj.
Qed.

Lemma SetNotionIDs_invariant id pageID databaseID w :
  store_invariant w -> store_invariant (snd (SetNotionIDs id pageID databaseID w)).
Proof.
  intros Hw. unfold SetNotionIDs, bind, time_Now, gets. cbn [fst snd].
  rewrite wrap_world. apply pg_update_invariant; [|exact Hw].
  intros j Hj. exact Hj.
Qed.

(** [Create] leaves the table as it was or adds one [pending] row that
    carries the caller's [CompletedAt]. *)
Lemma Create_jobs job w :
  w_jobs (snd (Create job w)) = w_jobs w \/
  exists id row,
    w_jobs (snd (Create job w)) = <[id := row]> (w_jobs w) /\
    j_Status row = JobStatusPending /\ j_CompletedAt row = j_CompletedAt job.
Proof.
  unfold Create, bind, time_Now, gets, wrap, modify, pg_roundtrip, fail, ret.
  cbn [fst snd].
  destruct (pg_failed w); [left; reflexivity |].
  cbn.
  destruct (existsb _ (w_users w)); cbn; [|left; reflexivity].
  destruct (bool_decide _); cbn; [left; reflexivity |].
  right. eexists _, _. split; [reflexivity |]. split; reflexivity.
Qed.

Lemma Create_invariant job w :
  j_CompletedAt job = None ->
  store_invariant w -> store_invariant (snd (Create job w)).
Proof.
  intros Hnil Hw. unfold store_invariant.
  destruct (Create_jobs job w) as [-> | (id & row & -> & Hst & Hc)]; [exact Hw |].
  intros i j. rewrite lookup_insert. case_decide.
  - intros [= <-]. unfold completed_at_ok. rewrite Hc, Hnil, Hst. split.
    + intros [? H']; discriminate H'.
    + intros [H' | H']; discriminate H'.
  - apply Hw.
Qed.

Lemma run_op_invariant op w :
  creates_unfinished op -> store_invariant w -> store_invariant (run_op op w).
Proof.
  destruct op; cbn [creates_unfinished run_op]; intros Hc Hw.
  - apply Create_invariant; assumption.
  - apply UpdateStatus_invariant; assumption.
  - apply SetTranscription_invariant; assumption.
  - apply SetSummary_invariant; assumption.
  - apply SetNotionIDs_invariant; assumption.
Qed.

(** ** C3: completed_at and the terminal statuses *)

(** C3, as amended.  Starting from a table in which completed_at is non-null
    exactly for the rows whose status is [completed] or [failed] (the empty
    table is one), every sequence of create, updateStatus, setTranscription,
    setSummary and setSyncIdentifiers, under any schedule of transport
    failures, ends in such a table again, provided each job handed to create
    has a nil CompletedAt. *)
Theorem C3_completed_at_iff_terminal ops w :
  Forall creates_unfinished ops ->
  store_invariant w ->
  store_invariant (run_ops ops w).
Proof.
  unfold run_ops. intros Hops. revert w.
  induction Hops as [|op ops Hop _ IH]; intros w Hw; cbn [fold_left].
  - exact Hw.
  - apply IH. apply run_op_invariant; assumption.
Qed.

Lemma C3_witness :
  store_invariant
    (run_ops [OpCreate demo_job; OpSetTranscription 1 "hello world";
              OpUpdateStatus 1 JobStatusCompleted ""; OpUpdateStatus 1 JobStatusQueued ""]
             demo_world).
Proof.
  apply C3_completed_at_iff_terminal.
  - repeat constructor.
  - intros id j H. cbn in H. rewrite lookup_empty in H. discriminate H.
Defined.

(** C3 as stated fails: [Create] forces the status to [pending] but stores
    the [CompletedAt] it is given, so one create of a job value with a
    non-nil [CompletedAt] yields a [pending] row with completed_at set. *)
Lemma C3_counterexample :
  w_jobs (run_ops [OpCreate stale_job] demo_world) !! 1
    = Some (mkJob 1 42 JobStatusPending "a.ogg" "" "" "" "" 100 100 (Some 5) "")
  /\ ~ store_invariant (run_ops [OpCreate stale_job] demo_world).
Proof.
  assert (Hrow : w_jobs (run_ops [OpCreate stale_job] demo_world) !! 1
    = Some (mkJob 1 42 JobStatusPending "a.ogg" "" "" "" "" 100 100 (Some 5) ""))
    by (vm_compute; reflexivity).
  split; [exact Hrow |].
  intros Hinv. destruct (Hinv _ _ Hrow) as [Hdir _].
  destruct Hdir as [H | H]; [eexists; reflexivity | discriminate H | discriminate H].
Qed.

(** ** What one command does to a Redis list *)

Lemma llist_insert_eq (qs : gmap string (list Bulk)) key l : llist (<[key := l]> qs) key = l.
Proof. unfold llist. rewrite lookup_insert_eq. reflexivity. Qed.

Lemma llist_insert_ne (qs : gmap string (list Bulk)) key key' l :
  key <> key' -> llist (<[key := l]> qs) key' = llist qs key'.
Proof. intros H. unfold llist. rewrite lookup_insert_ne by exact H. reflexivity. Qed.

Lemma Push_eq queueName job w :
  Push queueName job w =
  if redis_failed w
  then (Err "failed to push job to queue: redis: connection failed", redis_next w)
  else (Ok tt,
        set_queues (fun qs => <[queueName :=
                       (llist qs queueName ++ [json_Marshal (stamped (w_clock w) job)])%list]> qs)
                   (redis_next w)).
Proof.
  unfold Push, bind, time_Now, gets, wrap, RPush, bind, redis_roundtrip, modify.
  destruct (redis_failed w); reflexivity.
Qed.

Lemma BLPop_eq timeout key w :
  BLPop timeout key w =
  if redis_failed w then (ReplyError "redis: connection failed", redis_next w)
  else match llist (w_queues w) key with
       | [] => (ReplyNil, set_clock (w_clock w + timeout) (redis_next w))
       | value :: rest =>
           (ReplyArray [Raw key; value],
            set_queues (fun qs => <[key := rest]> qs) (redis_next w))
       end.
Proof. unfold BLPop, redis_roundtrip. destruct (redis_failed w); reflexivity. Qed.

Lemma Pop_eq queueName w :
  Pop queueName w =
  if redis_failed w
  then (Err "failed to pop job from queue: redis: connection failed", redis_next w)
  else match llist (w_queues w) queueName with
       | [] => (Ok None, set_clock (w_clock w + 1) (redis_next w))
       | value :: rest =>
           (match json_Unmarshal value with
            | Some job => Ok (Some job)
            | None => Err "failed to unmarshal job: invalid character"
            end,
            set_queues (fun qs => <[queueName := rest]> qs) (redis_next w))
       end.
Proof.
  unfold Pop. rewrite BLPop_eq. destruct (redis_failed w); [reflexivity |].
  destruct (llist (w_queues w) queueName) as [|value rest]; [reflexivity |].
  cbn. destruct (json_Unmarshal value); reflexivity.
Qed.

(** A pop that returns a job has taken the head of the list, and that head
    is the job's JSON text. *)
Lemma Pop_some queueName w job w1 :
  Pop queueName w = (Ok (Some job), w1) ->
  exists value,
    llist (w_queues w) queueName = value :: llist (w_queues w1) queueName /\
    json_Unmarshal value = Some job /\
    w_jobs w1 = w_jobs w.
Proof.
  rewrite Pop_eq. destruct (redis_failed w); [discriminate |].
  destruct (llist (w_queues w) queueName) as [|value rest]; [discriminate |].
  destruct (json_Unmarshal value) as [job'|] eqn:Hj; [|discriminate].
  intros [= <- <-]. exists value. cbn. rewrite llist_insert_eq.
  split; [reflexivity |]. split; [exact Hj | reflexivity].
Qed.

Lemma PopJob_some queueName w job w1 :
  PopJob queueName w = ((Some job, None), w1) ->
  exists value,
    llist (w_queues w) queueName = value :: llist (w_queues w1) queueName /\
    json_Unmarshal value = Some job.
Proof.
  unfold PopJob. destruct (Pop queueName w) as [[[job'|]|e] w0] eqn:Hpop; try discriminate.
  destruct (Pop_some _ _ _ _ Hpop) as (value & Hq & Hj & _).
  rewrite UpdateStatus_eq. cbv zeta. destruct (pg_failed w0); [discriminate |].
  intros [= <- <-]. exists value. split; [exact Hq | exact Hj].
Qed.

(** ** C5: pushJob is not atomic across the two stores *)

(** C5.  When the push into the work queue succeeds and the update of the
    owning job's status to [queued] then fails, [PushJob] returns that
    failure as an error, the pushed item stays at the tail of the queue named
    after the job type, and table jobs is as it was. *)
Theorem C5_pushJob_status_failure_keeps_item job w w1 e w2 :
  Push (q_JobType job) job w = (Ok tt, w1) ->
  UpdateStatus (q_JobID job) JobStatusQueued "" w1 = (Err e, w2) ->
  PushJob job w = (Err ("failed to update job status: " +:+ e), w2) /\
  llist (w_queues w2) (q_JobType job) =
    (llist (w_queues w) (q_JobType job) ++ [json_Marshal (stamped (w_clock w) job)])%list /\
  w_jobs w2 = w_jobs w.
Proof.
  intros Hpush Hupd. split; [|split].
  - unfold PushJob, bind.
    rewrite (wrap_ok _ _ _ _ _ Hpush). rewrite (wrap_err _ _ _ _ _ Hupd). reflexivity.
  - rewrite Push_eq in Hpush. rewrite UpdateStatus_eq in Hupd. cbn zeta in Hupd.
    destruct (redis_failed w); [discriminate Hpush |]. injection Hpush as <-.
    destruct (pg_failed _); [|discriminate Hupd]. injection Hupd as _ <-.
    cbn. apply llist_insert_eq.
  - rewrite Push_eq in Hpush. rewrite UpdateStatus_eq in Hupd. cbn zeta in Hupd.
    destruct (redis_failed w); [discriminate Hpush |]. injection Hpush as <-.
    destruct (pg_failed _); [|discriminate Hupd]. injection Hupd as _ <-.
    reflexivity.
Qed.

Lemma C5_witness :
  let job := demo_queue_job in
  let w := set_pg_faults [true] demo_created in
  let w1 := snd (Push (q_JobType job) job w) in
  let e := "failed to update job status: pg: statement failed" in
  let w2 := snd (UpdateStatus (q_JobID job) JobStatusQueued "" w1) in
  PushJob job w = (Err ("failed to update job status: " +:+ e), w2) /\
  llist (w_queues w2) (q_JobType job) =
    (llist (w_queues w) (q_JobType job) ++ [json_Marshal (stamped (w_clock w) job)])%list /\
  w_jobs w2 = w_jobs w.
Proof.
  intros job w w1 e w2.
  apply (C5_pushJob_status_failure_keeps_item job w w1 e w2); vm_compute; reflexivity.
Defined.

(** ** C9: popping an empty queue *)

(** C9.  When the named queue is empty and the command reaches Redis, [Pop]
    returns a nil job and a nil error once the timeout of one second has
    elapsed, and so does [PopJob]; neither store changes. *)
Theorem C9_pop_empty_queue_is_not_an_error queueName w :
  llist (w_queues w) queueName = [] ->
  redis_failed w = false ->
  Pop queueName w = (Ok None, set_clock (w_clock w + 1) (redis_next w)) /\
  PopJob queueName w = ((None, None), set_clock (w_clock w + 1) (redis_next w)) /\
  w_queues (snd (PopJob queueName w)) = w_queues w /\
  w_jobs (snd (PopJob queueName w)) = w_jobs w.
Proof.
  intros Hempty Hok.
  assert (Hpop : Pop queueName w = (Ok None, set_clock (w_clock w + 1) (redis_next w))).
  { rewrite Pop_eq, Hok, Hempty. reflexivity. }
  assert (Hjob : PopJob queueName w = ((None, None), set_clock (w_clock w + 1) (redis_next w))).
  { unfold PopJob. rewrite Hpop. reflexivity. }
  rewrite Hjob. repeat split; assumption.
Qed.

Lemma C9_witness :
  Pop DefaultQueueName demo_world
    = (Ok None, set_clock (w_clock demo_world + 1) (redis_next demo_world)) /\
  PopJob DefaultQueueName demo_world
    = ((None, None), set_clock (w_clock demo_world + 1) (redis_next demo_world)) /\
  w_queues (snd (PopJob DefaultQueueName demo_world)) = w_queues demo_world /\
  w_jobs (snd (PopJob DefaultQueueName demo_world)) = w_jobs demo_world.
Proof.
  apply (C9_pop_empty_queue_is_not_an_error DefaultQueueName demo_world); reflexivity.
Defined.

(** ** C8: first in, first out *)

Lemma redis_healthy_next w : redis_healthy w -> redis_healthy (redis_next w).
Proof.
  unfold redis_healthy, redis_next. cbn.
  destruct (w_redis_faults w) as [|b l]; cbn; [trivial |].
  intros H. exact (Forall_inv_tail H).
Qed.

Lemma redis_healthy_not_failed w : redis_healthy w -> redis_failed w = false.
Proof.
  unfold redis_healthy, redis_failed.
  destruct (w_redis_faults w) as [|b l]; cbn; [reflexivity |].
  intros H. symmetry. exact (Forall_inv H).
Qed.

Lemma push_all_queue queueName jobs : forall w,
  redis_healthy w ->
  redis_healthy (push_all queueName jobs w) /\
  llist (w_queues (push_all queueName jobs w)) queueName =
    (llist (w_queues w) queueName
     ++ map (fun job => json_Marshal (stamped (w_clock w) job)) jobs)%list.
Proof.
  induction jobs as [|job jobs IH]; intros w Hw; cbn [push_all map].
  - split; [exact Hw |]. rewrite app_nil_r. reflexivity.
  - rewrite Push_eq, (redis_healthy_not_failed w Hw). cbn [snd].
    set (w1 := set_queues _ (redis_next w)).
    assert (Hw1 : redis_healthy w1) by (apply (redis_healthy_next w Hw)).
    destruct (IH w1 Hw1) as [Hh Hq]. split; [exact Hh |].
    rewrite Hq. subst w1. cbn. rewrite llist_insert_eq, <- app_assoc. reflexivity.
Qed.

Lemma pop_n_queue queueName jobs : forall w rest,
  redis_healthy w ->
  llist (w_queues w) queueName = (map json_Marshal jobs ++ rest)%list ->
  fst (pop_n queueName (length jobs) w) =
    map (fun job => Ok (json_Unmarshal (json_Marshal job))) jobs.
Proof.
  induction jobs as [|job jobs IH]; intros w rest Hw Hq; cbn [length pop_n map].
  - reflexivity.
  - rewrite Pop_eq, (redis_healthy_not_failed w Hw), Hq. cbn [map app json_Unmarshal json_Marshal].
    set (w1 := set_queues _ (redis_next w)).
    specialize (IH w1 rest (redis_healthy_next w Hw)).
    destruct (pop_n queueName (length jobs) w1) as [rs w2]. cbn [fst] in *.
    rewrite IH; [reflexivity |]. subst w1. cbn. apply llist_insert_eq.
Qed.

(** C8.  For every N and every N queue jobs pushed one after the other to
    one named queue that was empty, with Redis reachable throughout, N pops
    of that queue return the jobs in the order of the pushes: the k-th pop
    returns the k-th job as the wire carries it. *)
Theorem C8_fifo queueName jobs w :
  redis_healthy w ->
  llist (w_queues w) queueName = [] ->
  fst (pop_n queueName (length jobs) (push_all queueName jobs w)) =
    map (fun job => Ok (Some (on_the_wire (w_clock w) job))) jobs.
Proof.
  intros Hw Hempty.
  destruct (push_all_queue queueName jobs w Hw) as [Hh Hq].
  rewrite Hempty in Hq. cbn [app] in Hq.
  rewrite <- (length_map (stamped (w_clock w)) jobs).
  rewrite (pop_n_queue queueName (map (stamped (w_clock w)) jobs) _ [] Hh).
  - rewrite map_map. reflexivity.
  - rewrite Hq, map_map, app_nil_r. reflexivity.
Qed.

Lemma C8_witness :
  fst (pop_n JobTypeSummarization 3
         (push_all JobTypeSummarization
            [mkQueueJob 0 1 42 JobTypeSummarization 0 (VString "one");
             mkQueueJob 0 2 42 JobTypeSummarization 0 (VMapString [("k", "two")]);
             mkQueueJob 0 3 42 JobTypeSummarization 0 (VMap [("n", VInt64 3)])]
            demo_world))
  = [Ok (Some (mkQueueJob 0 1 42 JobTypeSummarization 100 (VString "one")));
     Ok (Some (mkQueueJob 0 2 42 JobTypeSummarization 100 (VMap [("k", VString "two")])));
     Ok (Some (mkQueueJob 0 3 42 JobTypeSummarization 100 (VMap [("n", VFloat64 3)])))].
Proof.
  apply (C8_fifo JobTypeSummarization
           [mkQueueJob 0 1 42 JobTypeSummarization 0 (VString "one");
            mkQueueJob 0 2 42 JobTypeSummarization 0 (VMapString [("k", "two")]);
            mkQueueJob 0 3 42 JobTypeSummarization 0 (VMap [("n", VInt64 3)])]
           demo_world).
  - constructor.
  - reflexivity.
Defined.

(** ** C4: the worker loop drops what it cannot dispatch *)

Lemma iteration_dispatch wk w job w1 :
  PopJob DefaultQueueName w = ((Some job, None), w1) ->
  iteration wk NoSignal w =
    match processJob wk job w1 with
    | (None, w2) => Running w2
    | (Some e, w2) => Crashed e w2
    end.
Proof. intros H. unfold iteration. rewrite H. reflexivity. Qed.

Lemma worker_loop_returned wk sigs : forall w w',
  worker_loop wk sigs w = Returned w' -> In CtxDone sigs \/ In ShutdownClosed sigs.
Proof.
  induction sigs as [|sig sigs IH]; intros w w' H; cbn [worker_loop] in H.
  - discriminate H.
  - destruct sig.
    + destruct (iteration wk NoSignal w) as [w1 | w1 | e w1] eqn:E.
      * destruct (IH _ _ H) as [Hin | Hin]; [left | right]; right; exact Hin.
      * exfalso. unfold iteration in E.
        destruct (PopJob DefaultQueueName w) as [[[job|] [err|]] w2];
          try discriminate E.
        destruct (processJob wk job w2) as [[e|] w3]; discriminate E.
      * discriminate H.
    + left. left. reflexivity.
    + right. left. reflexivity.
Qed.

Lemma worker_loop_crashed wk sigs : forall w e w',
  worker_loop wk sigs w = Crashed e w' ->
  exists w0 job handler w1,
    PopJob DefaultQueueName w0 = ((Some job, None), w1) /\
    handlers wk !! q_JobType job = Some handler /\
    handler job w1 = (HPanic e, w').
Proof.
  induction sigs as [|sig sigs IH]; intros w e w' H; cbn [worker_loop] in H.
  - discriminate H.
  - destruct (iteration wk sig w) as [w1 | w1 | e1 w1] eqn:E.
    + exact (IH _ _ _ H).
    + discriminate H.
    + injection H as -> ->. destruct sig; cbn [iteration] in E; try discriminate E.
      destruct (PopJob DefaultQueueName w) as [[[job|] [err|]] w2] eqn:Hpop;
        try discriminate E.
      unfold processJob in E.
      destruct (handlers wk !! q_JobType job) as [handler|] eqn:Hh; [|discriminate E].
      destruct (handler job w2) as [[r|e2] w3] eqn:Hr; [discriminate E |].
      injection E as -> ->. exists w, job, handler, w2.
      split; [exact Hpop |]. split; [exact Hh | exact Hr].
Qed.

(** C4.  For every queue job the loop has popped (the head of the default
    queue, which the pop has removed), if no handler is registered for its
    type ([w2] is then the world right after the pop), or the handler called
    returns an error ([w2] is then the world as the handler left it), the
    iteration ends in exactly [w2]: the worker itself writes to neither
    store, the item is not put back, and the loop goes on with its next
    iteration.  The loop stops in two ways only: it returns when an
    iteration finds the context cancelled or the shutdown channel closed;
    and it is brought down when a handler it has called for a popped job
    panics, which is neither of the two cases above and which nothing
    recovers. *)
Theorem C4_undispatched_job_is_dropped wk w job w1 w2 :
  PopJob DefaultQueueName w = ((Some job, None), w1) ->
  match handlers wk !! q_JobType job with
  | None => w2 = w1
  | Some handler => exists e, handler job w1 = (HReturn (Some e), w2)
  end ->
  (exists value,
     llist (w_queues w) DefaultQueueName = value :: llist (w_queues w1) DefaultQueueName /\
     json_Unmarshal value = Some job) /\
  iteration wk NoSignal w = Running w2 /\
  (forall sigs, worker_loop wk (NoSignal :: sigs) w = worker_loop wk sigs w2) /\
  (forall sigs w0 w', worker_loop wk sigs w0 = Returned w' ->
     In CtxDone sigs \/ In ShutdownClosed sigs) /\
  (forall sigs w0 e w', worker_loop wk sigs w0 = Crashed e w' ->
     exists w3 job' handler w4,
       PopJob DefaultQueueName w3 = ((Some job', None), w4) /\
       handlers wk !! q_JobType job' = Some handler /\
       handler job' w4 = (HPanic e, w')).
Proof.
  intros Hpop Hfail. split; [exact (PopJob_some _ _ _ _ Hpop) |].
  assert (Hit : iteration wk NoSignal w = Running w2).
  { rewrite (iteration_dispatch wk w job w1 Hpop). unfold processJob.
    destruct (handlers wk !! q_JobType job) as [handler|].
    - destruct Hfail as [e ->]. reflexivity.
    - subst w2. reflexivity. }
  split; [exact Hit |]. split.
  - intros sigs. cbn [worker_loop]. rewrite Hit. reflexivity.
  - split.
    + intros sigs. apply worker_loop_returned.
    + intros sigs. apply worker_loop_crashed.
Qed.

Lemma C4_witness :
  (exists w2,
     iteration (app_worker demo_services) NoSignal demo_default_queue = Running w2 /\
     w_jobs w2 !! 1 = Some (set_status JobStatusProcessing 100 None ""
                              (mkJob 1 42 JobStatusPending "a.ogg" "" "" "" "" 100 100 None "")) /\
     length (llist (w_queues w2) DefaultQueueName) = 1%nat /\
     exists w3,
       iteration (app_worker demo_services) NoSignal w2 = Running w3 /\
       w_jobs w3 = w_jobs w2 /\ llist (w_queues w3) DefaultQueueName = []).
Proof.
  set (wk := app_worker demo_services).
  set (w1 := snd (PopJob DefaultQueueName demo_default_queue)).
  destruct (C4_undispatched_job_is_dropped wk demo_default_queue
              (mkQueueJob 0 1 42 JobTypeTranscription 100
                 (VMap [("text", VString "a.ogg")])) w1 w1) as (_ & Hit & _ & _).
  { vm_compute. reflexivity. }
  { exists "audio_path not found in job payload or has invalid type".
    vm_compute. reflexivity. }
  exists w1. split; [exact Hit |]. split; [vm_compute; reflexivity |].
  split; [vm_compute; reflexivity |].
  set (w2 := snd (PopJob DefaultQueueName w1)).
  destruct (C4_undispatched_job_is_dropped wk w1
              (mkQueueJob 0 1 42 JobTypeNotionSync 100
                 (VMap [("content", VString "c"); ("title", VString "t")])) w2 w2)
    as (_ & Hit2 & _ & _).
  { vm_compute. reflexivity. }
  { vm_compute. reflexivity. }
  exists w2. split; [exact Hit2 |]. split; vm_compute; reflexivity.
Defined.

(** C4 as stated fails in its last clause: the loop can stop with the
    context not cancelled and the shutdown channel open.  The default queue
    hands the application's worker a queue job of type "notion" whose
    payload is null; the note-sync handler panics on its first type
    assertion, and the loop is down after one iteration although none of the
    three iterations offered to it saw a signal. *)
Lemma C4_counterexample :
  worker_loop (app_worker demo_services) [NoSignal; NoSignal; NoSignal]
    (set_queues (fun qs => <[DefaultQueueName := [JobJSON 0 1 42 JobTypeNotion 100 JNull]]> qs)
       demo_created)
    = Crashed "interface conversion: interface {} is not map[string]interface {}"
        (snd (PopJob DefaultQueueName
                (set_queues
                   (fun qs => <[DefaultQueueName :=
                                  [JobJSON 0 1 42 JobTypeNotion 100 JNull]]> qs)
                   demo_created)))
  /\ ~ In CtxDone [NoSignal; NoSignal; NoSignal]
  /\ ~ In ShutdownClosed [NoSignal; NoSignal; NoSignal].
Proof.
  split; [vm_compute; reflexivity |].
  split; intros H; cbn in H; repeat (destruct H as [H | H]; [discriminate H |]);
    contradiction.
Qed.

(** ** C6: a popped job whose status update fails *)

(** C6, on the code.  When an item is popped from the default queue and the
    update of the owning job's status to [processing] fails, [PopJob] returns
    the queue job together with the error; the queue has lost the item and
    the table is as it was.  The loop of [Worker.Start] tests the error
    first: it sleeps and goes to its next iteration without calling any
    handler, whatever handlers are registered, so the job is not worked on. *)
Theorem C6_popped_job_is_discarded_on_status_failure wk w job w1 e w2 :
  Pop DefaultQueueName w = (Ok (Some job), w1) ->
  UpdateStatus (q_JobID job) JobStatusProcessing "" w1 = (Err e, w2) ->
  PopJob DefaultQueueName w = ((Some job, Some ("failed to update job status: " +:+ e)), w2) /\
  iteration wk NoSignal w = Running (snd (time_Sleep 1 w2)) /\
  (exists value,
     llist (w_queues w) DefaultQueueName = value :: llist (w_queues w2) DefaultQueueName /\
     json_Unmarshal value = Some job) /\
  w_jobs w2 = w_jobs w /\
  w_calls (snd (time_Sleep 1 w2)) = w_calls w.
Proof.
  intros Hpop Hupd.
  assert (Hjob : PopJob DefaultQueueName w
                 = ((Some job, Some ("failed to update job status: " +:+ e)), w2)).
  { unfold PopJob. rewrite Hpop, Hupd. reflexivity. }
  split; [exact Hjob |]. split.
  { unfold iteration. rewrite Hjob. reflexivity. }
  destruct (Pop_some _ _ _ _ Hpop) as (value & Hq & Hj & Hjobs).
  rewrite UpdateStatus_eq in Hupd. cbn zeta in Hupd.
  destruct (pg_failed w1); [|discriminate Hupd]. injection Hupd as _ <-.
  split; [exists value; split; [exact Hq | exact Hj] |].
  split; [exact Hjobs |].
  rewrite Pop_eq in Hpop.
  destruct (redis_failed w); [discriminate Hpop |].
  destruct (llist (w_queues w) DefaultQueueName) as [|value' rest]; [discriminate Hpop |].
  injection Hpop as _ <-. reflexivity.
Qed.

Lemma C6_witness :
  let w := set_pg_faults [true] demo_default_queue in
  let job := mkQueueJob 0 1 42 JobTypeTranscription 100 (VMap [("text", VString "a.ogg")]) in
  PopJob DefaultQueueName w
    = ((Some job,
        Some "failed to update job status: failed to update job status: pg: statement failed"),
       snd (PopJob DefaultQueueName w)) /\
  iteration (app_worker demo_services) NoSignal w
    = Running (snd (time_Sleep 1 (snd (PopJob DefaultQueueName w)))) /\
  length (llist (w_queues (snd (PopJob DefaultQueueName w))) DefaultQueueName) = 1%nat /\
  w_jobs (snd (PopJob DefaultQueueName w)) !! 1
    = Some (mkJob 1 42 JobStatusPending "a.ogg" "" "" "" "" 100 100 None "").
Proof.
  intros w job.
  destruct (C6_popped_job_is_discarded_on_status_failure
              (app_worker demo_services) w job (snd (Pop DefaultQueueName w))
              "failed to update job status: pg: statement failed"
              (snd (PopJob DefaultQueueName w)))
    as (Hjob & Hit & _).
  { vm_compute. reflexivity. }
  { vm_compute. reflexivity. }
  split; [exact Hjob |]. split; [exact Hit |]. split; vm_compute; reflexivity.
Defined.

(** ** C7: note sync for a user without credentials *)

(** Whatever the row holds, the user the repository returns has empty
    credentials, so the handler takes the short way for every user found. *)
Lemma scan_user_no_credentials row :
  String.eqb (u_NotionToken (scan_user row)) "" ||
  String.eqb (u_NotionDatabaseID (scan_user row)) "" = true.
Proof. reflexivity. Qed.

Lemma GetByTelegramID_found telegramID row w :
  find (fun r => u_TelegramID r =? telegramID) (w_users w) = Some row ->
  pg_failed w = false ->
  GetByTelegramID telegramID w
    = (Ok (scan_user row), pg_next (add_call (QueryUserByTelegramID telegramID) w)).
Proof.
  intros Hfind Hok. unfold GetByTelegramID, pg_roundtrip.
  change (pg_failed (add_call (QueryUserByTelegramID telegramID) w)) with (pg_failed w).
  rewrite Hok. cbn [w_users pg_next add_call set_pg_faults]. cbn. rewrite Hfind. reflexivity.
Qed.

Lemma ProcessNotionIntegration_short svc job payload transcription summary row w :
  q_Payload job = VMap payload ->
  map_index payload "transcription" = Some (VString transcription) ->
  map_index payload "summary" = Some (VString summary) ->
  find (fun r => u_TelegramID r =? q_UserID job) (w_users w) = Some row ->
  pg_failed w = false ->
  pg_failed (pg_next w) = false ->
  ProcessNotionIntegration svc job w =
    (HReturn None,
     set_jobs (alter (set_status JobStatusCompleted (w_clock w) (Some (w_clock w)) "")
                     (q_JobID job))
              (pg_next (pg_next (add_call (QueryUserByTelegramID (q_UserID job)) w)))).
Proof.
  intros Hpayload Htr Hsum Hfind Hpg1 Hpg2.
  unfold ProcessNotionIntegration. rewrite Hpayload.
  unfold returning, notion_integration. rewrite Htr, Hsum. cbn [assert_string].
  unfold bind at 1.
  rewrite (wrap_ok _ _ _ _ _ (GetByTelegramID_found _ _ _ Hfind Hpg1)).
  rewrite scan_user_no_credentials.
  unfold bind. unfold wrap at 1. rewrite UpdateStatus_eq. cbn zeta.
  change (pg_failed (pg_next (add_call (QueryUserByTelegramID (q_UserID job)) w)))
    with (pg_failed (pg_next w)).
  rewrite Hpg2. reflexivity.
Qed.

(** C7, on the code.  The handler does not look up the owning user: it
    takes the user id the queue job carries, which is the internal id of a
    row of table users (or 0), and asks the repository for the user whose
    Telegram id is that number.  So for every note-sync queue job (its
    payload a map with a string under "transcription" and under "summary")
    whose user id is nobody's Telegram id, with the statement reaching
    PostgreSQL: the handler returns "failed to get user: user not found",
    the job's row is exactly what it was (its status is not set to
    [completed]), table jobs and the queues are unchanged, and the only
    request to the outside is the lookup.  The credentials of the owning
    user play no part in this. *)
Theorem C7_owner_is_looked_up_by_telegram_id
    svc job payload transcription summary jrow w :
  q_Payload job = VMap payload ->
  map_index payload "transcription" = Some (VString transcription) ->
  map_index payload "summary" = Some (VString summary) ->
  find (fun r => u_TelegramID r =? q_UserID job) (w_users w) = None ->
  pg_failed w = false ->
  w_jobs w !! q_JobID job = Some jrow ->
  fst (ProcessNotionIntegration svc job w)
    = HReturn (Some "failed to get user: user not found") /\
  w_jobs (snd (ProcessNotionIntegration svc job w)) !! q_JobID job = Some jrow /\
  w_jobs (snd (ProcessNotionIntegration svc job w)) = w_jobs w /\
  w_calls (snd (ProcessNotionIntegration svc job w))
    = (w_calls w ++ [QueryUserByTelegramID (q_UserID job)])%list /\
  w_queues (snd (ProcessNotionIntegration svc job w)) = w_queues w.
Proof.
  intros Hpayload Htr Hsum Hfind Hpg Hjob.
  assert (E : ProcessNotionIntegration svc job w
              = (HReturn (Some "failed to get user: user not found"),
                 pg_next (add_call (QueryUserByTelegramID (q_UserID job)) w))).
  { unfold ProcessNotionIntegration. rewrite Hpayload.
    unfold returning, notion_integration. rewrite Htr, Hsum. cbn [assert_string].
    unfold bind at 1. unfold wrap at 1. unfold GetByTelegramID, pg_roundtrip.
    change (pg_failed (add_call (QueryUserByTelegramID (q_UserID job)) w))
      with (pg_failed w).
    rewrite Hpg. cbn. rewrite Hfind. reflexivity. }
  rewrite E. cbn [fst snd]. split; [reflexivity |]. split; [exact Hjob |].
  repeat split.
Qed.

(** The owner of job 1 is the registered user with internal id 1 and
    Telegram id 555000111, who has no credentials; the note-sync job carries
    the user id 1. *)
Lemma C7_witness :
  let owner := mkUser 1 555000111 "alex" "Alex" "" "" "" 0 0 in
  let w := snd (Create (mkJob 0 1 JobStatusCreated "a.ogg" "" "" "" "" 0 0 None "")
                  (mkWorld ∅ 0 [owner] ∅ 100 [] [] [])) in
  let job := mkQueueJob 0 1 1 JobTypeNotion 100
               (VMap [("transcription", VString "hello world");
                      ("summary", VString "greeting")]) in
  (In owner (w_users w) /\ u_ID owner = q_UserID job /\
   u_NotionToken owner = "" /\ u_NotionDatabaseID owner = "") /\
  fst (ProcessNotionIntegration demo_services job w)
    = HReturn (Some "failed to get user: user not found") /\
  w_jobs (snd (ProcessNotionIntegration demo_services job w)) !! q_JobID job
    = Some (mkJob 1 1 JobStatusPending "a.ogg" "" "" "" "" 100 100 None "") /\
  w_jobs (snd (ProcessNotionIntegration demo_services job w)) = w_jobs w /\
  w_calls (snd (ProcessNotionIntegration demo_services job w))
    = (w_calls w ++ [QueryUserByTelegramID (q_UserID job)])%list /\
  w_queues (snd (ProcessNotionIntegration demo_services job w)) = w_queues w.
Proof.
  intros owner w job. split.
  - split; [left; reflexivity |]. repeat split.
  - apply (C7_owner_is_looked_up_by_telegram_id demo_services job
             [("transcription", VString "hello world"); ("summary", VString "greeting")]
             "hello world" "greeting"
             (mkJob 1 1 JobStatusPending "a.ogg" "" "" "" "" 100 100 None "") w);
      reflexivity.
Defined.

(** ** Handlers reach the queues through [PushJob] only *)

Lemma pushed_refl P w : pushed P w w.
Proof. intros name. exists []. rewrite app_nil_r. split; [reflexivity | constructor]. Qed.

Lemma pushed_trans P w1 w2 w3 : pushed P w1 w2 -> pushed P w2 w3 -> pushed P w1 w3.
Proof.
  intros H12 H23 name.
  destruct (H12 name) as (e1 & E1 & F1). destruct (H23 name) as (e2 & E2 & F2).
  exists (e1 ++ e2)%list. split.
  - rewrite E2, E1, app_assoc. reflexivity.
  - apply Forall_app. split; assumption.
Qed.

Lemma pushed_same_queues P w w' : w_queues w' = w_queues w -> pushed P w w'.
Proof. intros H name. exists []. rewrite H, app_nil_r. split; [reflexivity | constructor]. Qed.

Lemma pushed_weaken (P Q : string -> Bulk -> Prop) w w' :
  (forall name b, P name b -> Q name b) -> pushed P w w' -> pushed Q w w'.
Proof.
  intros HPQ H name. destruct (H name) as (extra & E & F).
  exists extra. split; [exact E |]. eapply Forall_impl; [exact F |]. apply HPQ.
Qed.

Lemma pushes_bind {A B} P (m : M A) (k : A -> M B) :
  pushes_only P m -> (forall a, pushes_only P (k a)) -> pushes_only P (bind m k).
Proof.
  intros Hm Hk w. unfold bind. specialize (Hm w).
  destruct (m w) as [[a|e] w']; cbn [snd] in *.
  - eapply pushed_trans; [exact Hm | apply Hk].
  - exact Hm.
Qed.

Lemma pushes_wrap {A} P ctx (m : M A) : pushes_only P m -> pushes_only P (wrap ctx m).
Proof. intros Hm w. rewrite wrap_world. apply Hm. Qed.

Lemma pushes_ret {A} P (a : A) : pushes_only P (ret a).
Proof. intros w. apply pushed_refl. Qed.

Lemma pushes_fail {A} P e : pushes_only P (@fail A e).
Proof. intros w. apply pushed_refl. Qed.

Lemma pushes_gets {A} P (f : World -> A) : pushes_only P (gets f).
Proof. intros w. apply pushed_refl. Qed.

Lemma pushes_time_Now P : pushes_only P time_Now.
Proof. apply pushes_gets. Qed.

Lemma pushes_pg_update P id f : pushes_only P (pg_update id f).
Proof.
  intros w. apply pushed_same_queues. rewrite pg_update_eq.
  destruct (pg_failed w); reflexivity.
Qed.

Lemma pushes_UpdateStatus P id status msg : pushes_only P (UpdateStatus id status msg).
Proof.
  apply pushes_bind; [apply pushes_time_Now |]. intros now.
  apply pushes_wrap, pushes_pg_update.
Qed.

Lemma pushes_SetTranscription P id text : pushes_only P (SetTranscription id text).
Proof.
  apply pushes_bind; [apply pushes_time_Now |]. intros now.
  apply pushes_wrap, pushes_pg_update.
Qed.

Lemma pushes_SetSummary P id text : pushes_only P (SetSummary id text).
Proof.
  apply pushes_bind; [apply pushes_time_Now |]. intros now.
  apply pushes_wrap, pushes_pg_update.
Qed.

Lemma pushes_SetNotionIDs P id pageID databaseID :
  pushes_only P (SetNotionIDs id pageID databaseID).
Proof.
  apply pushes_bind; [apply pushes_time_Now |]. intros now.
  apply pushes_wrap, pushes_pg_update.
Qed.

Lemma pushes_GetByID P id : pushes_only P (GetByID id).
Proof.
  intros w. apply pushed_same_queues. unfold GetByID, pg_roundtrip.
  destruct (pg_failed w); [reflexivity |]. cbn.
  destruct (w_jobs w !! id); reflexivity.
Qed.

Lemma pushes_GetByTelegramID P telegramID : pushes_only P (GetByTelegramID telegramID).
Proof.
  intros w. apply pushed_same_queues. unfold GetByTelegramID, pg_roundtrip.
  destruct (pg_failed _); [reflexivity |]. cbn.
  destruct (find _ (w_users w)); reflexivity.
Qed.

Lemma pushes_ProcessAudio P svc path : pushes_only P (ProcessAudio svc path).
Proof. intros w. apply pushed_same_queues. reflexivity. Qed.

Lemma pushes_Transcribe P svc path : pushes_only P (Transcribe svc path).
Proof. intros w. apply pushed_same_queues. reflexivity. Qed.

Lemma pushes_SummarizeText P svc text : pushes_only P (SummarizeText svc text).
Proof. intros w. apply pushed_same_queues. reflexivity. Qed.

Lemma pushes_CreatePage P svc db summary transcription :
  pushes_only P (CreatePage svc db summary transcription).
Proof. intros w. apply pushed_same_queues. reflexivity. Qed.

Lemma pushes_SendProgressUpdate P id status : pushes_only P (SendProgressUpdate id status).
Proof. intros w. apply pushed_same_queues. reflexivity. Qed.

(** [Push] adds the stamped job to the named list and nothing else. *)
Lemma pushes_Push queueName job :
  pushes_only (fun name b => name = queueName /\ exists now, b = json_Marshal (stamped now job))
              (Push queueName job).
Proof.
  intros w name. rewrite Push_eq. destruct (redis_failed w); cbn [snd].
  - exists []. rewrite app_nil_r. split; [reflexivity | constructor].
  - cbn. destruct (decide (queueName = name)) as [<- | Hne].
    + rewrite llist_insert_eq. eexists. split; [reflexivity |].
      constructor; [|constructor]. split; [reflexivity |]. eexists; reflexivity.
    + rewrite llist_insert_ne by exact Hne.
      exists []. rewrite app_nil_r. split; [reflexivity | constructor].
Qed.

Lemma pushes_PushJob job :
  pushes_only (fun name b => name = q_JobType job /\
                             exists now, b = json_Marshal (stamped now job))
              (PushJob job).
Proof.
  unfold PushJob. cbv zeta.
  apply pushes_bind; [apply pushes_wrap, pushes_Push |]. intros _.
  apply pushes_bind; [apply pushes_wrap, pushes_UpdateStatus |]. intros _.
  apply pushes_ret.
Qed.

Lemma pushes_weaken {A} (P Q : string -> Bulk -> Prop) (m : M A) :
  (forall name b, P name b -> Q name b) -> pushes_only P m -> pushes_only Q m.
Proof. intros HPQ Hm w. eapply pushed_weaken; [exact HPQ | apply Hm]. Qed.

Create HintDb pushes.
#[local] Hint Resolve pushes_ret pushes_fail pushes_gets pushes_time_Now pushes_UpdateStatus
  pushes_SetTranscription pushes_SetSummary pushes_SetNotionIDs pushes_GetByID
  pushes_GetByTelegramID pushes_ProcessAudio pushes_Transcribe pushes_SummarizeText
  pushes_CreatePage pushes_SendProgressUpdate : pushes.

(** Break a handler down to its calls. *)
Ltac pushes_steps :=
  repeat first
    [ solve [auto with pushes]
    | lazymatch goal with
      | |- pushes_only _ (bind _ _) => apply pushes_bind; [| intros ?]
      | |- pushes_only _ (wrap _ _) => apply pushes_wrap
      end ].

Lemma ProcessTranscription_pushes svc job :
  pushes_only (summarization_item job) (ProcessTranscription svc job).
Proof.
  unfold ProcessTranscription.
  destruct (assert_map (q_Payload job)) as [payload|] eqn:Hmap; [|apply pushes_fail].
  destruct (assert_string (map_index payload "audio_path")) as [audioPath|];
    [|apply pushes_fail].
  cbv zeta. pushes_steps.
  eapply pushes_weaken; [|apply pushes_PushJob].
  intros name b [-> [now ->]]. split; [reflexivity |].
  exists now. eexists. unfold payload_user_id. rewrite Hmap. reflexivity.
Qed.

Lemma ProcessTranscriptionWithTimestamps_pushes svc job :
  pushes_only any_item (ProcessTranscriptionWithTimestamps svc job).
Proof.
  unfold ProcessTranscriptionWithTimestamps.
  destruct (assert_map (q_Payload job)) as [payload|]; [|apply pushes_fail].
  destruct (assert_string (map_index payload "audio_path")) as [audioPath|];
    [|apply pushes_fail].
  pushes_steps.
Qed.

Lemma ProcessSummarization_pushes svc job :
  pushes_only (notion_item job) (ProcessSummarization svc job).
Proof.
  unfold ProcessSummarization.
  destruct (assert_map (q_Payload job)) as [payload|]; [|apply pushes_fail].
  destruct (assert_string (map_index payload "transcription")) as [transcription|];
    [|apply pushes_fail].
  cbv zeta. pushes_steps.
  eapply pushes_weaken; [|apply pushes_PushJob].
  intros name b [-> [now ->]]. split; [reflexivity |].
  exists now. eexists _, _. reflexivity.
Qed.

Lemma ProcessSummarizationWithBulletPoints_pushes svc job :
  pushes_only any_item (ProcessSummarizationWithBulletPoints svc job).
Proof.
  unfold ProcessSummarizationWithBulletPoints.
  destruct (assert_map (q_Payload job)) as [payload|]; [|apply pushes_fail].
  destruct (assert_string (map_index payload "transcription")) as [transcription|];
    [|apply pushes_fail].
  pushes_steps.
Qed.

Lemma notion_integration_pushes svc job payload :
  pushes_only any_item (notion_integration svc job payload).
Proof.
  unfold notion_integration.
  destruct (assert_string (map_index payload "transcription")) as [transcription|];
    [|apply pushes_fail].
  destruct (assert_string (map_index payload "summary")) as [summary|];
    [|apply pushes_fail].
  cbv zeta. apply pushes_bind; [apply pushes_wrap; auto with pushes |]. intros user.
  destruct (_ || _); pushes_steps.
Qed.

Lemma SendJobCompletionNotification_pushes id :
  pushes_only any_item (SendJobCompletionNotification id).
Proof. unfold SendJobCompletionNotification. pushes_steps. Qed.

Lemma returning_world m w : snd (returning m w) = snd (m w).
Proof. unfold returning. destruct (m w) as [[[]|e] w']; reflexivity. Qed.

Lemma any_item_weaken {A} P (m : M A) : pushes_only P m -> pushes_only any_item m.
Proof. apply pushes_weaken. intros; exact I. Qed.

(** Every handler the application registers leaves the queues as they were
    but for what it pushes. *)
Lemma app_worker_handlers svc jobType handler :
  handlers (app_worker svc) !! jobType = Some handler ->
  forall job w, pushed any_item w (snd (handler job w)).
Proof.
  unfold app_worker, RegisterHandlers, RegisterHandler, NewQueueService,
    Worker_RegisterHandler, NewWorker.
  cbv [worker handlers from_option id]. intros H job w.
  repeat (rewrite lookup_insert in H; case_decide; [injection H as <-; cbv beta |]).
  - rewrite returning_world. apply (pushes_bind any_item); [|intros; apply pushes_ret].
    apply SendJobCompletionNotification_pushes.
  - unfold ProcessNotionIntegration. destruct (q_Payload job); try apply pushed_refl.
    rewrite returning_world. apply notion_integration_pushes.
  - rewrite returning_world. apply ProcessSummarizationWithBulletPoints_pushes.
  - rewrite returning_world.
    apply (any_item_weaken _ _ (ProcessSummarization_pushes svc job)).
  - rewrite returning_world. apply ProcessTranscriptionWithTimestamps_pushes.
  - rewrite returning_world.
    apply (any_item_weaken _ _ (ProcessTranscription_pushes svc job)).
  - rewrite lookup_empty in H. discriminate H.
Qed.

(** ** C2: the loop drains the default queue only *)

Lemma PopJob_other_queues queueName name w :
  queueName <> name ->
  llist (w_queues (snd (PopJob queueName w))) name = llist (w_queues w) name.
Proof.
  intros Hne. unfold PopJob. rewrite Pop_eq.
  destruct (redis_failed w); [reflexivity |].
  destruct (llist (w_queues w) queueName) as [|value rest]; [reflexivity |].
  destruct (json_Unmarshal value) as [job|]; cbn [fst snd].
  - rewrite UpdateStatus_eq. cbn zeta.
    destruct (pg_failed _); cbn; apply llist_insert_ne; exact Hne.
  - cbn. apply llist_insert_ne; exact Hne.
Qed.

Lemma iteration_keeps_other_queues wk sig w name :
  (forall jobType handler, handlers wk !! jobType = Some handler ->
     forall job w, pushed any_item w (snd (handler job w))) ->
  DefaultQueueName <> name ->
  exists extra,
    llist (w_queues (loop_world (iteration wk sig w))) name
      = (llist (w_queues w) name ++ extra)%list.
Proof.
  intros Hwk Hne.
  assert (Hsame : forall w', llist (w_queues w') name = llist (w_queues w) name ->
            exists extra, llist (w_queues w') name = (llist (w_queues w) name ++ extra)%list).
  { intros w' ->. exists []. rewrite app_nil_r. reflexivity. }
  destruct sig; cbn [iteration loop_world]; try (apply Hsame; reflexivity).
  pose proof (PopJob_other_queues DefaultQueueName name w Hne) as Hpop.
  destruct (PopJob DefaultQueueName w) as [[[job|] [err|]] w1]; cbn [snd] in Hpop;
    cbn [loop_world]; try (apply Hsame; exact Hpop).
  unfold processJob.
  destruct (handlers wk !! q_JobType job) as [handler|] eqn:Hh;
    [|apply Hsame; exact Hpop].
  destruct (Hwk _ _ Hh job w1 name) as (extra & E & _).
  destruct (handler job w1) as [[err|e] w2]; cbn [snd loop_world] in *;
    exists extra; rewrite E, Hpop; reflexivity.
Qed.

Lemma worker_loop_keeps_other_queues wk sigs name :
  (forall jobType handler, handlers wk !! jobType = Some handler ->
     forall job w, pushed any_item w (snd (handler job w))) ->
  DefaultQueueName <> name ->
  forall w, exists extra,
    llist (w_queues (loop_world (worker_loop wk sigs w))) name
      = (llist (w_queues w) name ++ extra)%list.
Proof.
  intros Hwk Hne. induction sigs as [|sig sigs IH]; intros w; cbn [worker_loop].
  - exists []. rewrite app_nil_r. reflexivity.
  - destruct (iteration_keeps_other_queues wk sig w name Hwk Hne) as (e1 & E1).
    destruct (iteration wk sig w) as [w1 | w1 | e w1]; cbn [loop_world] in *.
    + destruct (IH w1) as (e2 & E2). exists (e1 ++ e2)%list.
      rewrite E2, E1, app_assoc. reflexivity.
    + exists e1. exact E1.
    + exists e1. exact E1.
Qed.

(** C2, as amended.  The worker loop pops from the queue "default" only and
    [PushJob] pushes to the queue named after the job's type; so for every
    queue job whose type is not the string "default" (which holds of each
    declared job type), the job [PushJob] has pushed is never popped by the
    worker loop from the queue it was pushed to. *)
Theorem C2_pushed_job_is_never_popped svc job :
  q_JobType job <> DefaultQueueName ->
  never_popped svc job.
Proof.
  intros Hne w sigs Hredis. cbv zeta. split.
  - unfold PushJob, bind, wrap. cbv zeta. rewrite Push_eq, Hredis.
    rewrite UpdateStatus_eq. cbv zeta.
    destruct (pg_failed _); cbn; apply llist_insert_eq.
  - unfold App_Start, StartWorker. fold (app_worker svc).
    apply worker_loop_keeps_other_queues.
    + apply app_worker_handlers.
    + intros H. apply Hne. symmetry. exact H.
Qed.

Lemma declared_job_types_not_default :
  Forall (fun jobType => jobType <> DefaultQueueName)
    [JobTypeTranscription; JobTypeTranscriptionWithTimestamps; JobTypeSummarization;
     JobTypeSummarizationWithBulletPoints; JobTypeNotionSync; JobTypeNotion;
     JobTypeNotification].
Proof. repeat constructor; discriminate. Qed.

Lemma C2_witness : never_popped demo_services demo_queue_job.
Proof.
  apply (C2_pushed_job_is_never_popped demo_services demo_queue_job).
  discriminate.
Defined.

(** C2 as stated fails: a queue job may carry any string as its type, and
    one whose type is "default" is pushed by [PushJob] to the very queue the
    loop pops from; the first iteration takes it off again. *)
Lemma C2_counterexample :
  ~ never_popped demo_services (mkQueueJob 0 1 42 DefaultQueueName 0 VNil).
Proof.
  intros H. destruct (H demo_created [NoSignal] eq_refl) as [_ [extra E]].
  vm_compute in E. discriminate E.
Qed.

(** ** C10: the user id is lost after the transcription stage *)

Lemma unmarshal_any_not_int64 j n : unmarshal_any j <> VInt64 n.
Proof. destruct j; discriminate. Qed.

Lemma map_index_In m k v : map_index m k = Some v -> exists k', In (k', v) m.
Proof.
  induction m as [|[k0 v0] m IH]; cbn [map_index]; intros H; [discriminate H |].
  destruct (String.eqb k0 k).
  - injection H as <-. exists k0. left. reflexivity.
  - destruct (IH H) as [k' Hin]. exists k'. right. exact Hin.
Qed.

(** No int64 comes off the wire: the assertion [.(int64)] on a decoded
    payload fails and leaves the zero value. *)
Lemma wire_payload_user_id b job : json_Unmarshal b = Some job -> payload_user_id job = 0.
Proof.
  destruct b as [qid job_id user_id job_type created_at payload | s]; cbn [json_Unmarshal];
    intros H; [injection H as <- | discriminate H].
  unfold payload_user_id. cbn [q_Payload].
  destruct payload as [| | | | |fields]; try reflexivity.
  cbn [unmarshal_any assert_map default from_option id].
  destruct (map_index _ "user_id") as [v|] eqn:E; [|reflexivity].
  destruct (map_index_In _ _ _ E) as [k' Hin].
  apply in_rev, in_map_iff in Hin. destruct Hin as ([k0 j0] & Heq & _).
  injection Heq as _ <-.
  destruct j0; reflexivity.
Qed.

Lemma GetByTelegramID_calls telegramID w :
  w_calls (snd (GetByTelegramID telegramID w))
    = (w_calls w ++ [QueryUserByTelegramID telegramID])%list.
Proof.
  unfold GetByTelegramID, pg_roundtrip.
  destruct (pg_failed _); [reflexivity |]. cbn.
  destruct (find _ (w_users w)); reflexivity.
Qed.

Lemma GetByTelegramID_credentials telegramID user w w' :
  GetByTelegramID telegramID w = (Ok user, w') ->
  String.eqb (u_NotionToken user) "" || String.eqb (u_NotionDatabaseID user) "" = true.
Proof.
  unfold GetByTelegramID, pg_roundtrip.
  destruct (pg_failed _); [discriminate |]. cbn.
  destruct (find _ (w_users w)) as [row|]; [|discriminate].
  intros [= <- _]. reflexivity.
Qed.

Lemma UpdateStatus_calls id status msg w :
  w_calls (snd (UpdateStatus id status msg w)) = w_calls w.
Proof. rewrite UpdateStatus_eq. cbv zeta. destruct (pg_failed w); reflexivity. Qed.

(** The note-sync handler on a job whose payload has both texts: its one
    request to the outside is the lookup of the user by the job's UserID. *)
Lemma notion_integration_calls svc job payload transcription summary w :
  map_index payload "transcription" = Some (VString transcription) ->
  map_index payload "summary" = Some (VString summary) ->
  w_calls (snd (notion_integration svc job payload w))
    = (w_calls w ++ [QueryUserByTelegramID (q_UserID job)])%list.
Proof.
  intros Htr Hsum. unfold notion_integration. rewrite Htr, Hsum. cbn [assert_string].
  cbv zeta. unfold bind at 1. unfold wrap at 1.
  pose proof (GetByTelegramID_calls (q_UserID job) w) as Hcalls.
  destruct (GetByTelegramID (q_UserID job) w) as [[user|e] w1] eqn:E; cbn [snd] in *;
    [|exact Hcalls].
  rewrite (GetByTelegramID_credentials _ _ _ _ E).
  unfold bind. rewrite <- Hcalls, <- (UpdateStatus_calls (q_JobID job) JobStatusCompleted "" w1).
  unfold wrap, ret.
  destruct (UpdateStatus (q_JobID job) JobStatusCompleted "" w1) as [[[]|e] w2]; reflexivity.
Qed.

(** C10.  Every item the transcription handler puts on a queue is a
    summarization queue job whose UserID field is 0 and whose payload
    "user_id" is what the int64 assertion on the incoming payload gave; for a
    job that came off the wire that is 0 as well.  Downstream, the popped
    summarization job has UserID 0, every item the summarization handler
    pushes for it is a note-sync job with UserID 0, and the note-sync handler
    on such a job, once popped, looks the user up by id 0. *)
Theorem C10_summarization_job_carries_user_id_zero svc job w :
  pushed (summarization_item job) w (snd (ProcessTranscription svc job w)) /\
  (forall b, json_Unmarshal b = Some job -> payload_user_id job = 0) /\
  (forall name b sjob w1,
     summarization_item job name b -> json_Unmarshal b = Some sjob ->
     q_UserID sjob = 0 /\
     pushed (notion_item sjob) w1 (snd (ProcessSummarization svc sjob w1)) /\
     forall name' b' njob w2,
       notion_item sjob name' b' -> json_Unmarshal b' = Some njob ->
       q_UserID njob = 0 /\
       w_calls (snd (ProcessNotionIntegration svc njob w2))
         = (w_calls w2 ++ [QueryUserByTelegramID 0])%list).
Proof.
  split; [apply ProcessTranscription_pushes |].
  split; [intros b; apply wire_payload_user_id |].
  intros name b sjob w1 (_ & now & tr & ->) Hs. cbn in Hs. injection Hs as <-.
  split; [reflexivity |]. split; [apply ProcessSummarization_pushes |].
  intros name' b' njob w2 (_ & now' & tr' & sm' & ->) Hn. cbn in Hn. injection Hn as <-.
  split; [reflexivity |].
  unfold ProcessNotionIntegration. cbn [q_Payload]. rewrite returning_world.
  lazymatch goal with
  | |- w_calls (snd (notion_integration _ ?j ?p ?w0)) = _ =>
      apply (notion_integration_calls svc j p tr' sm' w0); reflexivity
  end.
Qed.

Lemma C10_witness :
  json_Unmarshal demo_wire_job = Some demo_popped_job /\
  fst (ProcessTranscription demo_services demo_popped_job demo_created) = Ok tt /\
  llist (w_queues (snd (ProcessTranscription demo_services demo_popped_job demo_created)))
        JobTypeSummarization
    = [JobJSON 0 1 0 JobTypeSummarization 100
         (JObject [("transcription", JString "hello world"); ("user_id", JNumber 0)])] /\
  payload_user_id demo_popped_job = 0.
Proof.
  destruct (C10_summarization_job_carries_user_id_zero
              demo_services demo_popped_job demo_created) as (_ & Hzero & _).
  split; [reflexivity |]. split; [vm_compute; reflexivity |].
  split; [vm_compute; reflexivity |].
  exact (Hzero demo_wire_job eq_refl).
Defined.

(** ** C1: the enqueued transcription job and its handler *)

Lemma ProcessTranscription_string_payload svc job s w :
  q_Payload job = VString s ->
  ProcessTranscription svc job w = (Err "invalid payload type in job", w).
Proof. intros H. unfold ProcessTranscription. rewrite H. reflexivity. Qed.

(** C1, on the code.  [EnqueueTranscriptionJob] puts the audio path on the
    wire as a bare string, on the queue "transcription"; the default queue,
    the only one the loop pops, is left as it was.  On the queue job that
    item decodes to, the transcription handler fails its first type assertion
    and returns "invalid payload type in job" in the world it was called in:
    no collaborator is called, no transcription is stored, the status is not
    advanced and no summarization job is pushed. *)
Theorem C1_enqueued_job_is_rejected_by_its_handler svc jobID userID audioFilePath w :
  redis_failed w = false ->
  let w1 := snd (EnqueueTranscriptionJob jobID userID audioFilePath w) in
  let item := JobJSON 0 jobID userID JobTypeTranscription (w_clock w) (JString audioFilePath) in
  llist (w_queues w1) JobTypeTranscription
    = (llist (w_queues w) JobTypeTranscription ++ [item])%list /\
  llist (w_queues w1) DefaultQueueName = llist (w_queues w) DefaultQueueName /\
  forall job w2,
    json_Unmarshal item = Some job ->
    ProcessTranscription svc job w2 = (Err "invalid payload type in job", w2).
Proof.
  intros Hredis w1 item. split; [|split].
  - subst w1 item. unfold EnqueueTranscriptionJob, bind, time_Now, gets. cbn [fst snd].
    unfold PushJob, bind, wrap. cbv zeta. rewrite Push_eq, Hredis.
    rewrite UpdateStatus_eq. cbv zeta.
    destruct (pg_failed _); cbn; apply llist_insert_eq.
  - subst w1. unfold EnqueueTranscriptionJob, bind, time_Now, gets. cbn [fst snd].
    unfold PushJob, bind, wrap. cbv zeta. rewrite Push_eq, Hredis.
    rewrite UpdateStatus_eq. cbv zeta.
    destruct (pg_failed _); cbn; apply llist_insert_ne; discriminate.
  - intros job w2 Hjob. cbn in Hjob. injection Hjob as <-.
    apply (ProcessTranscription_string_payload svc _ audioFilePath). reflexivity.
Qed.

(** The scenario of the specification, run on the code: job 1 is created for
    user 42 with path "a.ogg" and enqueued.  Three iterations of the loop
    find the default queue empty and change nothing but the clock.  Were the
    item popped from its own queue and given to the registered handler, the
    handler would return its payload error: the row keeps an empty
    transcription and the status [processing], and no summarization job
    exists. *)
Lemma C1_witness :
  llist (w_queues demo_enqueued) JobTypeTranscription
    = [JobJSON 0 1 42 JobTypeTranscription 100 (JString "a.ogg")] /\
  (exists w3,
     App_Start demo_services [NoSignal; NoSignal; NoSignal] demo_enqueued = Running w3 /\
     w_jobs w3 = w_jobs demo_enqueued /\ w_queues w3 = w_queues demo_enqueued /\
     w_calls w3 = []) /\
  (let popped := PopJob JobTypeTranscription demo_enqueued in
   let job := mkQueueJob 0 1 42 JobTypeTranscription 100 (VString "a.ogg") in
   fst popped = (Some job, None) /\
   ProcessTranscription demo_services job (snd popped)
     = (Err "invalid payload type in job", snd popped) /\
   w_jobs (snd popped) !! 1
     = Some (mkJob 1 42 JobStatusProcessing "a.ogg" "" "" "" "" 100 100 None "") /\
   llist (w_queues (snd popped)) JobTypeSummarization = []).
Proof.
  destruct (C1_enqueued_job_is_rejected_by_its_handler
              demo_services 1 42 "a.ogg" demo_created eq_refl) as (Hq & _ & Hrej).
  split; [exact Hq |]. split.
  - eexists. split; [vm_compute; reflexivity |]. repeat split; vm_compute; reflexivity.
  - cbv zeta. split; [vm_compute; reflexivity |]. split.
    + apply Hrej. reflexivity.
    + split; vm_compute; reflexivity.
Defined.

(** * Further properties of the code *)

(** ** Job store *)

Lemma Create_eq job w :
  Create job w =
  let id := w_jobs_seq w + 1 in
  let row := mkJob id (j_UserID job) JobStatusPending (j_AudioFilePath job)
               (j_Transcription job) (j_Summary job) (j_NotionPageID job)
               (j_NotionDatabaseID job) (w_clock w) (w_clock w) (j_CompletedAt job)
               (j_ErrorMessage job) in
  if pg_failed w then (Err "failed to create job: pg: statement failed", pg_next w)
  else if negb (existsb (fun u => u_ID u =? j_UserID job) (w_users w))
  then (Err "failed to create job: insert violates foreign key constraint",
        set_jobs_seq id (pg_next w))
  else if bool_decide (is_Some (w_jobs w !! id))
  then (Err "failed to create job: duplicate key value", set_jobs_seq id (pg_next w))
  else (Ok row, set_jobs (fun t => <[id := row]> t) (set_jobs_seq id (pg_next w))).
Proof.
  unfold Create, bind, time_Now, gets, wrap, modify, pg_roundtrip, fail, ret.
  cbn [fst snd]. destruct (pg_failed w); [reflexivity |]. cbn.
  destruct (existsb _ (w_users w)); cbn; [|reflexivity].
  destruct (bool_decide _); reflexivity.
Qed.

Lemma GetByID_eq id w :
  GetByID id w =
  if pg_failed w then (Err "failed to get job: pg: statement failed", pg_next w)
  else match w_jobs w !! id with
       | Some row => (Ok row, pg_next w)
       | None => (Err "job not found", pg_next w)
       end.
Proof. unfold GetByID, pg_roundtrip. destruct (pg_failed w); reflexivity. Qed.

(** X1.  A job created for a known user can be read back under the id
    [Create] returns: with both statements reaching PostgreSQL and the next
    id of the sequence free, [Create] answers with the id the sequence gives,
    and [GetByID] of that id finds a row with that id, the user id, audio
    path, transcription, summary, Notion ids and error message handed to
    [Create], and the status [pending] whatever status the caller had set;
    no other row of the table has changed.  (Nothing is said of the
    timestamps, which the table keeps at its own precision.) *)
Theorem X1_create_then_get_by_id job w :
  pg_failed w = false ->
  pg_failed (pg_next w) = false ->
  existsb (fun u => u_ID u =? j_UserID job) (w_users w) = true ->
  w_jobs w !! (w_jobs_seq w + 1) = None ->
  let id := w_jobs_seq w + 1 in
  (exists created, fst (Create job w) = Ok created /\ j_ID created = id) /\
  (exists got,
     fst (GetByID id (snd (Create job w))) = Ok got /\
     j_ID got = id /\
     j_UserID got = j_UserID job /\
     j_Status got = JobStatusPending /\
     j_AudioFilePath got = j_AudioFilePath job /\
     j_Transcription got = j_Transcription job /\
     j_Summary got = j_Summary job /\
     j_NotionPageID got = j_NotionPageID job /\
     j_NotionDatabaseID got = j_NotionDatabaseID job /\
     j_ErrorMessage got = j_ErrorMessage job) /\
  forall id', id' <> id -> w_jobs (snd (Create job w)) !! id' = w_jobs w !! id'.
Proof.
  intros Hpg1 Hpg2 Huser Hfree id. subst id.
  rewrite Create_eq. cbv zeta. rewrite Hpg1, Huser. cbn [negb]. rewrite Hfree.
  rewrite bool_decide_eq_false_2 by (intros [? H]; discriminate H).
  cbn [fst snd]. split; [eexists; split; reflexivity |]. split.
  - rewrite GetByID_eq.
    lazymatch goal with
    | |- context [pg_failed (set_jobs ?f (set_jobs_seq ?n (pg_next w)))] =>
        change (pg_failed (set_jobs f (set_jobs_seq n (pg_next w))))
          with (pg_failed (pg_next w))
    end.
    rewrite Hpg2. cbn. rewrite lookup_insert_eq. eexists. split; [reflexivity |].
    repeat split.
  - intros id' Hne. cbn. rewrite lookup_insert_ne by (intros H; apply Hne; symmetry; exact H).
    reflexivity.
Qed.

Lemma X1_witness :
  (exists created, fst (Create demo_job demo_world) = Ok created /\ j_ID created = 1) /\
  (exists got,
     fst (GetByID 1 (snd (Create demo_job demo_world))) = Ok got /\
     j_ID got = 1 /\
     j_UserID got = 42 /\
     j_Status got = JobStatusPending /\
     j_AudioFilePath got = "a.ogg" /\
     j_Transcription got = "" /\
     j_Summary got = "" /\
     j_NotionPageID got = "" /\
     j_NotionDatabaseID got = "" /\
     j_ErrorMessage got = "") /\
  forall id', id' <> 1 ->
    w_jobs (snd (Create demo_job demo_world)) !! id' = w_jobs demo_world !! id'.
Proof.
  apply (X1_create_then_get_by_id demo_job demo_world); reflexivity.
Defined.

Lemma update_missing (f : Job -> Job) id (t : gmap Z Job) :
  t !! id = None -> alter f id t = t.
Proof.
  intros Hnone. apply map_eq. intros i. rewrite lookup_alter.
  case_decide as Hi; [subst i; rewrite Hnone|]; reflexivity.
Qed.

Lemma narrow_update_missing ctx id f w :
  w_jobs w !! id = None ->
  pg_failed w = false ->
  fst (wrap ctx (pg_update id f) w) = Ok tt /\
  w_jobs (snd (wrap ctx (pg_update id f) w)) = w_jobs w.
Proof.
  intros Hnone Hpg. unfold wrap. rewrite pg_update_eq, Hpg. cbn.
  split; [reflexivity |]. apply update_missing. exact Hnone.
Qed.

(** X3.  The four narrow updates do not check that the row exists: for an id
    the table does not hold, each of [UpdateStatus], [SetTranscription],
    [SetSummary] and [SetNotionIDs] returns nil and leaves the table as it
    was. *)
Theorem X3_update_of_missing_job_is_silent id status msg text pageID databaseID w :
  w_jobs w !! id = None ->
  pg_failed w = false ->
  (fst (UpdateStatus id status msg w) = Ok tt /\
   w_jobs (snd (UpdateStatus id status msg w)) = w_jobs w) /\
  (fst (SetTranscription id text w) = Ok tt /\
   w_jobs (snd (SetTranscription id text w)) = w_jobs w) /\
  (fst (SetSummary id text w) = Ok tt /\
   w_jobs (snd (SetSummary id text w)) = w_jobs w) /\
  (fst (SetNotionIDs id pageID databaseID w) = Ok tt /\
   w_jobs (snd (SetNotionIDs id pageID databaseID w)) = w_jobs w).
Proof.
  intros Hnone Hpg.
  repeat split; unfold UpdateStatus, SetTranscription, SetSummary, SetNotionIDs,
    bind, time_Now, gets; cbn [fst snd];
    apply (narrow_update_missing _ _ _ _ Hnone Hpg).
Qed.

Lemma X3_witness :
  (fst (UpdateStatus 9 JobStatusFailed "boom" demo_created) = Ok tt /\
   w_jobs (snd (UpdateStatus 9 JobStatusFailed "boom" demo_created)) = w_jobs demo_created) /\
  (fst (SetTranscription 9 "text" demo_created) = Ok tt /\
   w_jobs (snd (SetTranscription 9 "text" demo_created)) = w_jobs demo_created) /\
  (fst (SetSummary 9 "text" demo_created) = Ok tt /\
   w_jobs (snd (SetSummary 9 "text" demo_created)) = w_jobs demo_created) /\
  (fst (SetNotionIDs 9 "page" "db" demo_created) = Ok tt /\
   w_jobs (snd (SetNotionIDs 9 "page" "db" demo_created)) = w_jobs demo_created).
Proof.
  apply (X3_update_of_missing_job_is_silent 9 JobStatusFailed "boom" "text" "page" "db"
           demo_created); reflexivity.
Defined.

Lemma wrap_pg_update_row ctx id f row w :
  w_jobs w !! id = Some row ->
  pg_failed w = false ->
  fst (wrap ctx (pg_update id f) w) = Ok tt /\
  w_jobs (snd (wrap ctx (pg_update id f) w)) !! id = Some (f row) /\
  forall id', id' <> id ->
    w_jobs (snd (wrap ctx (pg_update id f) w)) !! id' = w_jobs w !! id'.
Proof.
  intros Hrow Hpg. unfold wrap. rewrite pg_update_eq, Hpg. cbn.
  split; [reflexivity |]. split.
  - rewrite lookup_alter, decide_True by reflexivity. rewrite Hrow. reflexivity.
  - intros id' Hne. rewrite lookup_alter, decide_False; [reflexivity |].
    intros H. apply Hne. symmetry. exact H.
Qed.

(** X4.  Each field update writes its own column and updated_at of the
    addressed row and nothing else: after [SetTranscription] the row has the
    new transcription, after [SetSummary] the new summary, after
    [SetNotionIDs] the two Notion ids, in each case with status,
    completed_at, error message and every other column as before, and every
    other row of the table is untouched. *)
Theorem X4_field_updates_touch_one_column id row text pageID databaseID w :
  w_jobs w !! id = Some row ->
  pg_failed w = false ->
  (w_jobs (snd (SetTranscription id text w)) !! id
     = Some (set_transcription text (w_clock w) row) /\
   forall id', id' <> id ->
     w_jobs (snd (SetTranscription id text w)) !! id' = w_jobs w !! id') /\
  (w_jobs (snd (SetSummary id text w)) !! id
     = Some (set_summary text (w_clock w) row) /\
   forall id', id' <> id ->
     w_jobs (snd (SetSummary id text w)) !! id' = w_jobs w !! id') /\
  (w_jobs (snd (SetNotionIDs id pageID databaseID w)) !! id
     = Some (set_notion_ids pageID databaseID (w_clock w) row) /\
   forall id', id' <> id ->
     w_jobs (snd (SetNotionIDs id pageID databaseID w)) !! id' = w_jobs w !! id') /\
  j_Status (set_transcription text (w_clock w) row) = j_Status row /\
  j_CompletedAt (set_transcription text (w_clock w) row) = j_CompletedAt row /\
  j_Summary (set_transcription text (w_clock w) row) = j_Summary row /\
  j_Transcription (set_summary text (w_clock w) row) = j_Transcription row /\
  j_Status (set_notion_ids pageID databaseID (w_clock w) row) = j_Status row.
Proof.
  intros Hrow Hpg.
  unfold SetTranscription, SetSummary, SetNotionIDs, bind, time_Now, gets. cbn [fst snd].
  split; [|split; [|split]].
  - exact (proj2 (wrap_pg_update_row _ _ _ _ _ Hrow Hpg)).
  - exact (proj2 (wrap_pg_update_row _ _ _ _ _ Hrow Hpg)).
  - exact (proj2 (wrap_pg_update_row _ _ _ _ _ Hrow Hpg)).
  - repeat split.
Qed.

Lemma X4_witness :
  let row := mkJob 1 42 JobStatusPending "a.ogg" "" "" "" "" 100 100 None "" in
  (w_jobs (snd (SetTranscription 1 "hello world" demo_created)) !! 1
     = Some (set_transcription "hello world" 100 row) /\
   forall id', id' <> 1 ->
     w_jobs (snd (SetTranscription 1 "hello world" demo_created)) !! id'
       = w_jobs demo_created !! id') /\
  (w_jobs (snd (SetSummary 1 "hello world" demo_created)) !! 1
     = Some (set_summary "hello world" 100 row) /\
   forall id', id' <> 1 ->
     w_jobs (snd (SetSummary 1 "hello world" demo_created)) !! id'
       = w_jobs demo_created !! id') /\
  (w_jobs (snd (SetNotionIDs 1 "page-123" "db" demo_created)) !! 1
     = Some (set_notion_ids "page-123" "db" 100 row) /\
   forall id', id' <> 1 ->
     w_jobs (snd (SetNotionIDs 1 "page-123" "db" demo_created)) !! id'
       = w_jobs demo_created !! id') /\
  j_Status (set_transcription "hello world" 100 row) = j_Status row /\
  j_CompletedAt (set_transcription "hello world" 100 row) = j_CompletedAt row /\
  j_Summary (set_transcription "hello world" 100 row) = j_Summary row /\
  j_Transcription (set_summary "hello world" 100 row) = j_Transcription row /\
  j_Status (set_notion_ids "page-123" "db" 100 row) = j_Status row.
Proof.
  intros row.
  apply (X4_field_updates_touch_one_column 1 row "hello world" "page-123" "db" demo_created);
    reflexivity.
Defined.

Lemma UpdateStatus_row id status msg row w :
  w_jobs w !! id = Some row ->
  pg_failed w = false ->
  UpdateStatus id status msg w =
    (Ok tt,
     set_jobs (alter (set_status status (w_clock w)
                        (if is_terminal status then Some (w_clock w) else None) msg) id)
              (pg_next w)).
Proof. intros _ Hpg. rewrite UpdateStatus_eq. cbv zeta. rewrite Hpg. reflexivity. Qed.

(** X5.  [UpdateStatus] overwrites whatever the row held: no status is
    final.  On a row already [completed] or [failed], a later update to a
    status that is neither of the two succeeds, clears completed_at again and
    replaces the stored error message by the one it is given; every caller
    in the program passes the empty message. *)
Theorem X5_terminal_status_can_be_left id row status msg w :
  w_jobs w !! id = Some row ->
  pg_failed w = false ->
  is_terminal (j_Status row) = true ->
  is_terminal status = false ->
  exists row',
    fst (UpdateStatus id status msg w) = Ok tt /\
    w_jobs (snd (UpdateStatus id status msg w)) !! id = Some row' /\
    j_Status row' = status /\
    j_CompletedAt row' = None /\
    j_ErrorMessage row' = msg /\
    j_Transcription row' = j_Transcription row /\
    j_Summary row' = j_Summary row /\
    j_CreatedAt row' = j_CreatedAt row.
Proof.
  intros Hrow Hpg _ Hst.
  rewrite (UpdateStatus_row _ _ _ _ _ Hrow Hpg), Hst. cbn [fst snd].
  eexists. split; [reflexivity |]. split.
  - cbn. rewrite lookup_alter, decide_True by reflexivity. rewrite Hrow. reflexivity.
  - repeat split.
Qed.

Lemma X5_witness :
  let w := snd (UpdateStatus 1 JobStatusFailed "no speech found" demo_created) in
  exists row',
    fst (UpdateStatus 1 JobStatusQueued "" w) = Ok tt /\
    w_jobs (snd (UpdateStatus 1 JobStatusQueued "" w)) !! 1 = Some row' /\
    j_Status row' = JobStatusQueued /\
    j_CompletedAt row' = None /\
    j_ErrorMessage row' = "" /\
    j_Transcription row' = "" /\
    j_Summary row' = "" /\
    j_CreatedAt row' = 100.
Proof.
  intros w.
  apply (X5_terminal_status_can_be_left 1
           (mkJob 1 42 JobStatusFailed "a.ogg" "" "" "" "" 100 100 (Some 100) "no speech found")
           JobStatusQueued "" w); vm_compute; reflexivity.
Defined.

Lemma Update_eq job w :
  Update job w =
  if pg_failed w then (Err "failed to update job: pg: statement failed", pg_next w)
  else (Ok tt,
        set_jobs (alter (fun row =>
          mkJob (j_ID row) (j_UserID row) (j_Status job) (j_AudioFilePath job)
                (j_Transcription job) (j_Summary job) (j_NotionPageID job)
                (j_NotionDatabaseID job) (j_CreatedAt row) (w_clock w) (j_CompletedAt job)
                (j_ErrorMessage job)) (j_ID job)) (pg_next w)).
Proof.
  unfold Update, bind, time_Now, gets, wrap. cbn [fst snd]. rewrite pg_update_eq.
  destruct (pg_failed w); reflexivity.
Qed.

(** X6.  Reading a job with [GetByID] and writing it back with [Update]
    changes nothing but updated_at: the row afterwards is the row read, with
    updated_at at the time of the update, and all other rows are as before.
    ([Update] does not write id, user_id or created_at, so these survive
    whatever the job value holds.) *)
Theorem X6_get_then_update_is_identity id row w :
  GetByID id w = (Ok row, pg_next w) ->
  j_ID row = id ->
  pg_failed (pg_next w) = false ->
  let w' := snd (Update row (pg_next w)) in
  fst (Update row (pg_next w)) = Ok tt /\
  w_jobs w' !! id
    = Some (mkJob (j_ID row) (j_UserID row) (j_Status row) (j_AudioFilePath row)
              (j_Transcription row) (j_Summary row) (j_NotionPageID row)
              (j_NotionDatabaseID row) (j_CreatedAt row) (w_clock w) (j_CompletedAt row)
              (j_ErrorMessage row)) /\
  forall id', id' <> id -> w_jobs w' !! id' = w_jobs w !! id'.
Proof.
  intros Hget Hid Hpg w'. subst w' id.
  rewrite GetByID_eq in Hget. destruct (pg_failed w); [discriminate Hget |].
  destruct (w_jobs w !! j_ID row) as [row0|] eqn:Hrow; [|discriminate Hget].
  injection Hget as ->.
  rewrite Update_eq, Hpg. cbn. split; [reflexivity |]. split.
  - rewrite lookup_alter, decide_True by reflexivity. rewrite Hrow. reflexivity.
  - intros id' Hne. rewrite lookup_alter, decide_False; [reflexivity |].
    intros H. apply Hne. symmetry. exact H.
Qed.

Lemma X6_witness :
  let row := mkJob 1 42 JobStatusPending "a.ogg" "" "" "" "" 100 100 None "" in
  let w' := snd (Update row (pg_next demo_created)) in
  fst (Update row (pg_next demo_created)) = Ok tt /\
  w_jobs w' !! 1 = Some (mkJob 1 42 JobStatusPending "a.ogg" "" "" "" "" 100 100 None "") /\
  forall id', id' <> 1 -> w_jobs w' !! id' = w_jobs demo_created !! id'.
Proof.
  intros row.
  apply (X6_get_then_update_is_identity 1 row demo_created); reflexivity.
Defined.

#[local] Instance newest_first_total : Total newest_first.
Proof. intros a b. unfold newest_first. lia. Qed.

#[local] Instance newest_first_trans : Transitive newest_first.
Proof. intros a b c. unfold newest_first. lia. Qed.

Lemma GetByUserID_ok userID limit offset w jobs w' :
  GetByUserID userID limit offset w = (Ok jobs, w') ->
  0 <= limit /\ 0 <= offset /\
  jobs = take (Z.to_nat limit) (drop (Z.to_nat offset)
           (merge_sort newest_first
              (List.filter (fun j => j_UserID j =? userID)
                 (map snd (map_to_list (w_jobs w)))))).
Proof.
  unfold GetByUserID, pg_roundtrip. destruct (pg_failed w); [discriminate |].
  destruct (Z.ltb_spec limit 0); [discriminate |].
  destruct (Z.ltb_spec offset 0); [discriminate |].
  intros [= <- _]. repeat split; assumption.
Qed.

Lemma user_rows_spec userID (t : gmap Z Job) j :
  In j (List.filter (fun j => j_UserID j =? userID) (map snd (map_to_list t))) <->
  j_UserID j = userID /\ exists id, t !! id = Some j.
Proof.
  rewrite filter_In, in_map_iff, Z.eqb_eq. split.
  - intros [([id j0] & Hsnd & Hin) Hu]. cbn in Hsnd. subst j0. split; [exact Hu |].
    exists id. apply elem_of_map_to_list, list_elem_of_In. exact Hin.
  - intros [Hu [id Hid]]. split; [|exact Hu].
    exists (id, j). split; [reflexivity |].
    apply list_elem_of_In, elem_of_map_to_list. exact Hid.
Qed.

(** X7.  What [GetByUserID] returns, when it returns a list: only jobs of
    the table that belong to the user asked for, the newest first (no job
    comes before a job created later), and at most [limit] of them.  With
    offset 0 and a limit not below the number of rows of the table, every job
    of the user is in the list. *)
Theorem X7_get_by_user_id userID limit offset w jobs w' :
  GetByUserID userID limit offset w = (Ok jobs, w') ->
  (forall j, In j jobs -> j_UserID j = userID /\ exists id, w_jobs w !! id = Some j) /\
  StronglySorted newest_first jobs /\
  (length jobs <= Z.to_nat limit)%nat /\
  (offset = 0 -> (size (w_jobs w) <= Z.to_nat limit)%nat ->
   forall id j, w_jobs w !! id = Some j -> j_UserID j = userID -> In j jobs).
Proof.
  intros Hget. destruct (GetByUserID_ok _ _ _ _ _ _ Hget) as (Hl & Ho & ->).
  set (rows := List.filter _ _).
  assert (Hsorted : StronglySorted newest_first (merge_sort newest_first rows)).
  { apply Sorted_StronglySorted; [apply _ |]. apply Sorted_merge_sort. apply _. }
  assert (Hin : forall j, In j (merge_sort newest_first rows) <-> In j rows).
  { intros j. rewrite <- !list_elem_of_In.
    rewrite (merge_sort_Permutation newest_first rows). reflexivity. }
  split; [|split; [|split]].
  - intros j Hj. apply (user_rows_spec userID (w_jobs w) j). apply Hin.
    apply list_elem_of_In in Hj. apply list_elem_of_In.
    eapply (subseteq_drop (Z.to_nat offset)), (subseteq_take (Z.to_nat limit)). exact Hj.
  - rewrite <- (take_drop (Z.to_nat offset)) in Hsorted.
    apply StronglySorted_app_1_r in Hsorted.
    rewrite <- (take_drop (Z.to_nat limit) (drop _ _)) in Hsorted.
    apply StronglySorted_app_1_l in Hsorted. exact Hsorted.
  - rewrite length_take. lia.
  - intros -> Hsize id j Hid Hu. rewrite Z2Nat.inj_0, drop_0.
    rewrite take_ge.
    + apply Hin. apply (user_rows_spec userID (w_jobs w) j). split; [exact Hu |].
      exists id. exact Hid.
    + rewrite (Permutation_length (merge_sort_Permutation newest_first rows)).
      subst rows. etransitivity; [apply filter_length_le |].
      rewrite length_map, length_map_to_list. exact Hsize.
Qed.

Lemma X7_witness :
  let w := snd (Create demo_job (snd (time_Sleep 5 (snd (Create demo_job demo_world))))) in
  let jobs := [mkJob 2 42 JobStatusPending "a.ogg" "" "" "" "" 105 105 None "";
               mkJob 1 42 JobStatusPending "a.ogg" "" "" "" "" 100 100 None ""] in
  (forall j, In j jobs -> j_UserID j = 42 /\ exists id, w_jobs w !! id = Some j) /\
  StronglySorted newest_first jobs /\
  (length jobs <= Z.to_nat 100)%nat /\
  (0 = 0 -> (size (w_jobs w) <= Z.to_nat 100)%nat ->
   forall id j, w_jobs w !! id = Some j -> j_UserID j = 42 -> In j jobs).
Proof.
  intros w jobs.
  apply (X7_get_by_user_id 42 100 0 w jobs (pg_next w)).
  vm_compute. reflexivity.
Defined.

(** ** Work queue *)

Lemma Pop_healthy queueName w :
  redis_healthy w ->
  redis_healthy (snd (Pop queueName w)) /\
  llist (w_queues (snd (Pop queueName w))) queueName = tail (llist (w_queues w) queueName).
Proof.
  intros Hw. rewrite Pop_eq, (redis_healthy_not_failed w Hw).
  pose proof (redis_healthy_next w Hw) as Hnext.
  destruct (llist (w_queues w) queueName) as [|value rest] eqn:E; cbn [snd tail].
  - split; [exact Hnext |]. cbn. exact E.
  - split; [exact Hnext |]. cbn. apply llist_insert_eq.
Qed.

Lemma pop_n_drop queueName n : forall w,
  redis_healthy w ->
  redis_healthy (snd (pop_n queueName n w)) /\
  llist (w_queues (snd (pop_n queueName n w))) queueName
    = drop n (llist (w_queues w) queueName).
Proof.
  induction n as [|n IH]; intros w Hw; cbn [pop_n].
  - split; [exact Hw |]. rewrite drop_0. reflexivity.
  - destruct (Pop_healthy queueName w Hw) as [Hh Hq].
    destruct (Pop queueName w) as [r w1]. cbn [snd] in *.
    destruct (IH w1 Hh) as [Hh2 Hq2].
    destruct (pop_n queueName n w1) as [rs w2]. cbn [snd] in *.
    split; [exact Hh2 |]. rewrite Hq2, Hq.
    destruct (llist (w_queues w) queueName); cbn [tail drop]; [rewrite drop_nil|]; reflexivity.
Qed.

Lemma Size_healthy queueName w :
  redis_healthy w ->
  Size queueName w = (Ok (Z.of_nat (length (llist (w_queues w) queueName))), redis_next w).
Proof.
  intros Hw. unfold Size, wrap, LLen, bind, redis_roundtrip, gets.
  rewrite (redis_healthy_not_failed w Hw). reflexivity.
Qed.

(** X8.  [Size] counts what is on the list: with Redis reachable
    throughout, after N jobs pushed to a named queue and K pops of it, [Size]
    reports the length the queue had before, plus N, less K (and 0 once more
    has been popped than was there); asking does not change any queue. *)
Theorem X8_size_after_pushes_and_pops queueName jobs k w :
  redis_healthy w ->
  let w' := snd (pop_n queueName k (push_all queueName jobs w)) in
  fst (Size queueName w')
    = Ok (Z.of_nat (length (llist (w_queues w) queueName) + length jobs - k)) /\
  w_queues (snd (Size queueName w')) = w_queues w'.
Proof.
  intros Hw w'. subst w'.
  destruct (push_all_queue queueName jobs w Hw) as [Hh Hq].
  destruct (pop_n_drop queueName k _ Hh) as [Hh2 Hq2].
  rewrite (Size_healthy _ _ Hh2). cbn [fst snd]. split; [|reflexivity].
  rewrite Hq2, Hq, length_drop, length_app, length_map. reflexivity.
Qed.

Lemma X8_witness :
  let w' := snd (pop_n JobTypeSummarization 1
                   (push_all JobTypeSummarization [demo_queue_job; demo_queue_job] demo_world)) in
  fst (Size JobTypeSummarization w') = Ok 1 /\
  w_queues (snd (Size JobTypeSummarization w')) = w_queues w'.
Proof.
  apply (X8_size_after_pushes_and_pops JobTypeSummarization
           [demo_queue_job; demo_queue_job] 1 demo_world).
  constructor.
Defined.

(** X9.  An item that does not decode is consumed all the same: when the
    head of the list is not the JSON of a queue job, [Pop] returns the
    unmarshalling error, yet the item is off the list, so the next pop goes
    on with the item behind it.  [PopJob] passes the error on without
    touching table jobs, and the worker loop sleeps a second and goes on. *)
Theorem X9_undecodable_item_is_consumed wk s rest w :
  llist (w_queues w) DefaultQueueName = Raw s :: rest ->
  redis_failed w = false ->
  fst (Pop DefaultQueueName w) = Err "failed to unmarshal job: invalid character" /\
  llist (w_queues (snd (Pop DefaultQueueName w))) DefaultQueueName = rest /\
  fst (PopJob DefaultQueueName w)
    = (None, Some "failed to pop job from queue: failed to unmarshal job: invalid character") /\
  w_jobs (snd (PopJob DefaultQueueName w)) = w_jobs w /\
  iteration wk NoSignal w = Running (snd (time_Sleep 1 (snd (PopJob DefaultQueueName w)))).
Proof.
  intros Hq Hredis.
  assert (Hpop : Pop DefaultQueueName w
                 = (Err "failed to unmarshal job: invalid character",
                    set_queues (fun qs => <[DefaultQueueName := rest]> qs) (redis_next w))).
  { rewrite Pop_eq, Hredis, Hq. reflexivity. }
  assert (Hjob : PopJob DefaultQueueName w
                 = ((None, Some "failed to pop job from queue: failed to unmarshal job: invalid character"),
                    set_queues (fun qs => <[DefaultQueueName := rest]> qs) (redis_next w))).
  { unfold PopJob. rewrite Hpop. reflexivity. }
  rewrite Hpop, Hjob. cbn [fst snd]. split; [reflexivity |]. split.
  { cbn. apply llist_insert_eq. }
  split; [reflexivity |]. split; [reflexivity |].
  unfold iteration. rewrite Hjob. reflexivity.
Qed.

Lemma X9_witness :
  let w := set_queues (fun qs => <[DefaultQueueName := [Raw "not json"; demo_wire_job]]> qs)
             demo_created in
  fst (Pop DefaultQueueName w) = Err "failed to unmarshal job: invalid character" /\
  llist (w_queues (snd (Pop DefaultQueueName w))) DefaultQueueName = [demo_wire_job] /\
  fst (PopJob DefaultQueueName w)
    = (None, Some "failed to pop job from queue: failed to unmarshal job: invalid character") /\
  w_jobs (snd (PopJob DefaultQueueName w)) = w_jobs w /\
  iteration (app_worker demo_services) NoSignal w
    = Running (snd (time_Sleep 1 (snd (PopJob DefaultQueueName w)))).
Proof.
  intros w.
  apply (X9_undecodable_item_is_consumed (app_worker demo_services) "not json"
           [demo_wire_job] w); reflexivity.
Defined.

(** ** Queue service *)

Lemma PushJob_eq job w :
  PushJob job w =
  if redis_failed w
  then (Err "failed to push job to queue: failed to push job to queue: redis: connection failed",
        redis_next w)
  else
    let w1 := set_queues (fun qs => <[q_JobType job :=
                 (llist qs (q_JobType job) ++ [json_Marshal (stamped (w_clock w) job)])%list]> qs)
                (redis_next w) in
    if pg_failed w
    then (Err "failed to update job status: failed to update job status: pg: statement failed",
          pg_next w1)
    else (Ok tt,
          set_jobs (alter (set_status JobStatusQueued (w_clock w) None "") (q_JobID job))
                   (pg_next w1)).
Proof.
  unfold PushJob, bind, wrap. cbv zeta. rewrite Push_eq.
  destruct (redis_failed w); [reflexivity |].
  rewrite UpdateStatus_eq. cbv zeta.
  lazymatch goal with
  | |- context [pg_failed (set_queues ?f (redis_next w))] =>
      change (pg_failed (set_queues f (redis_next w))) with (pg_failed w)
  end.
  destruct (pg_failed w); reflexivity.
Qed.

(** X10.  When the push itself fails, [PushJob] stops there: it returns the
    error, no item is on any queue and the job's row keeps its status (no
    statement is sent to PostgreSQL). *)
Theorem X10_pushJob_push_failure_changes_nothing job w :
  redis_failed w = true ->
  fst (PushJob job w)
    = Err "failed to push job to queue: failed to push job to queue: redis: connection failed" /\
  w_queues (snd (PushJob job w)) = w_queues w /\
  w_jobs (snd (PushJob job w)) = w_jobs w /\
  w_pg_faults (snd (PushJob job w)) = w_pg_faults w.
Proof. intros Hredis. rewrite PushJob_eq, Hredis. repeat split. Qed.

Lemma X10_witness :
  let w := set_redis_faults [true] demo_created in
  fst (PushJob demo_queue_job w)
    = Err "failed to push job to queue: failed to push job to queue: redis: connection failed" /\
  w_queues (snd (PushJob demo_queue_job w)) = w_queues w /\
  w_jobs (snd (PushJob demo_queue_job w)) = w_jobs w /\
  w_pg_faults (snd (PushJob demo_queue_job w)) = w_pg_faults w.
Proof.
  intros w. apply (X10_pushJob_push_failure_changes_nothing demo_queue_job w). reflexivity.
Defined.

(** X11.  [PushJob] does not look the job up: for a job id that table jobs
    does not hold it still pushes the item and returns nil, the table being
    as it was.  For a row that exists it sets the status [queued] with an
    empty error message and a null completed_at, whatever the row held. *)
Theorem X11_pushJob_success job w :
  redis_failed w = false ->
  pg_failed w = false ->
  fst (PushJob job w) = Ok tt /\
  llist (w_queues (snd (PushJob job w))) (q_JobType job)
    = (llist (w_queues w) (q_JobType job) ++ [json_Marshal (stamped (w_clock w) job)])%list /\
  match w_jobs w !! q_JobID job with
  | None => w_jobs (snd (PushJob job w)) = w_jobs w
  | Some row =>
      w_jobs (snd (PushJob job w)) !! q_JobID job
        = Some (set_status JobStatusQueued (w_clock w) None "" row)
  end.
Proof.
  intros Hredis Hpg. rewrite PushJob_eq, Hredis. cbv zeta. rewrite Hpg. cbn [fst snd].
  split; [reflexivity |]. split; [cbn; apply llist_insert_eq |].
  destruct (w_jobs w !! q_JobID job) as [row|] eqn:Hrow; cbn.
  - rewrite lookup_alter, decide_True by reflexivity. rewrite Hrow. reflexivity.
  - apply update_missing. exact Hrow.
Qed.

Lemma X11_witness :
  let orphan := mkQueueJob 0 9 42 JobTypeTranscription 0 (VString "a.ogg") in
  fst (PushJob orphan demo_created) = Ok tt /\
  llist (w_queues (snd (PushJob orphan demo_created))) JobTypeTranscription
    = [json_Marshal (stamped 100 orphan)] /\
  w_jobs (snd (PushJob orphan demo_created)) = w_jobs demo_created.
Proof.
  intros orphan.
  exact (X11_pushJob_success orphan demo_created eq_refl eq_refl).
Defined.

Lemma PopJob_eq queueName w :
  PopJob queueName w =
  if redis_failed w
  then ((None, Some "failed to pop job from queue: failed to pop job from queue: redis: connection failed"),
        redis_next w)
  else match llist (w_queues w) queueName with
       | [] => ((None, None), set_clock (w_clock w + 1) (redis_next w))
       | value :: rest =>
           let w1 := set_queues (fun qs => <[queueName := rest]> qs) (redis_next w) in
           match json_Unmarshal value with
           | None =>
               ((None, Some "failed to pop job from queue: failed to unmarshal job: invalid character"),
                w1)
           | Some job =>
               if pg_failed w
               then ((Some job,
                      Some "failed to update job status: failed to update job status: pg: statement failed"),
                     pg_next w1)
               else ((Some job, None),
                     set_jobs (alter (set_status JobStatusProcessing (w_clock w) None "")
                                     (q_JobID job)) (pg_next w1))
           end
       end.
Proof.
  unfold PopJob. rewrite Pop_eq. destruct (redis_failed w); [reflexivity |].
  destruct (llist (w_queues w) queueName) as [|value rest]; [reflexivity |].
  cbv zeta. destruct (json_Unmarshal value) as [job|]; [|reflexivity].
  rewrite UpdateStatus_eq. cbv zeta.
  lazymatch goal with
  | |- context [pg_failed (set_queues ?f (redis_next w))] =>
      change (pg_failed (set_queues f (redis_next w))) with (pg_failed w)
  end.
  destruct (pg_failed w); reflexivity.
Qed.

(** X12.  A successful [PopJob] hands out the oldest item and marks its job:
    the head of the list, decoded, is returned with a nil error, the list
    continues with what stood behind it, and the job's row has the status
    [processing], a null completed_at and an empty error message. *)
Theorem X12_popJob_marks_processing queueName value rest job row w :
  llist (w_queues w) queueName = value :: rest ->
  json_Unmarshal value = Some job ->
  w_jobs w !! q_JobID job = Some row ->
  redis_failed w = false ->
  pg_failed w = false ->
  fst (PopJob queueName w) = (Some job, None) /\
  llist (w_queues (snd (PopJob queueName w))) queueName = rest /\
  w_jobs (snd (PopJob queueName w)) !! q_JobID job
    = Some (set_status JobStatusProcessing (w_clock w) None "" row) /\
  forall id', id' <> q_JobID job ->
    w_jobs (snd (PopJob queueName w)) !! id' = w_jobs w !! id'.
Proof.
  intros Hq Hjob Hrow Hredis Hpg.
  rewrite PopJob_eq, Hredis, Hq. cbv zeta. rewrite Hjob, Hpg. cbn [fst snd].
  split; [reflexivity |]. split; [cbn; apply llist_insert_eq |]. split.
  - cbn. rewrite lookup_alter, decide_True by reflexivity. rewrite Hrow. reflexivity.
  - intros id' Hne. cbn. rewrite lookup_alter, decide_False; [reflexivity |].
    intros H. apply Hne. symmetry. exact H.
Qed.

Lemma X12_witness :
  let row := mkJob 1 42 JobStatusQueued "a.ogg" "" "" "" "" 100 100 None "" in
  fst (PopJob JobTypeTranscription demo_enqueued) = (Some demo_queue_job, None) /\
  llist (w_queues (snd (PopJob JobTypeTranscription demo_enqueued))) JobTypeTranscription = [] /\
  w_jobs (snd (PopJob JobTypeTranscription demo_enqueued)) !! q_JobID demo_queue_job
    = Some (set_status JobStatusProcessing 100 None "" row) /\
  forall id', id' <> q_JobID demo_queue_job ->
    w_jobs (snd (PopJob JobTypeTranscription demo_enqueued)) !! id'
      = w_jobs demo_enqueued !! id'.
Proof.
  intros row.
  apply (X12_popJob_marks_processing JobTypeTranscription
           (JobJSON 0 1 42 JobTypeTranscription 100 (JString "a.ogg")) []
           demo_queue_job row demo_enqueued); vm_compute; reflexivity.
Defined.

Lemma GetQueueSize_healthy w :
  redis_healthy w ->
  fst (GetQueueSize w) = Ok (Z.of_nat (length (llist (w_queues w) DefaultQueueName))).
Proof.
  intros Hw. unfold GetQueueSize, wrap. rewrite (Size_healthy _ _ Hw). reflexivity.
Qed.

(** X13.  [GetQueueSize] measures the queue "default" only: with Redis
    reachable, pushing a job of any other type through [PushJob] does not
    change what it reports, although the job's own queue has grown by one. *)
Theorem X13_queue_size_ignores_typed_queues job w :
  redis_healthy w ->
  q_JobType job <> DefaultQueueName ->
  fst (GetQueueSize (snd (PushJob job w))) = fst (GetQueueSize w) /\
  length (llist (w_queues (snd (PushJob job w))) (q_JobType job))
    = S (length (llist (w_queues w) (q_JobType job))).
Proof.
  intros Hw Hne.
  assert (Hh : redis_healthy (snd (PushJob job w))).
  { rewrite PushJob_eq, (redis_healthy_not_failed w Hw). cbv zeta.
    destruct (pg_failed w); apply (redis_healthy_next w Hw). }
  rewrite (GetQueueSize_healthy _ Hh), (GetQueueSize_healthy _ Hw).
  rewrite PushJob_eq, (redis_healthy_not_failed w Hw). cbv zeta.
  destruct (pg_failed w); cbn; rewrite llist_insert_eq, llist_insert_ne by exact Hne;
    rewrite length_app; cbn; split; (reflexivity || lia).
Qed.

Lemma X13_witness :
  fst (GetQueueSize (snd (PushJob demo_queue_job demo_created)))
    = fst (GetQueueSize demo_created) /\
  length (llist (w_queues (snd (PushJob demo_queue_job demo_created)))
            (q_JobType demo_queue_job))
    = S (length (llist (w_queues demo_created) (q_JobType demo_queue_job))).
Proof.
  apply (X13_queue_size_ignores_typed_queues demo_queue_job demo_created).
  - constructor.
  - discriminate.
Defined.

Lemma ProcessSummarization_string_payload svc job s w :
  q_Payload job = VString s ->
  ProcessSummarization svc job w = (Err "invalid payload type in job", w).
Proof. intros H. unfold ProcessSummarization. rewrite H. reflexivity. Qed.

(** X14.  The other two enqueue helpers do not fit the handlers either.
    [EnqueueSummarizationJob] sends the transcription as a bare string, on
    which the summarization handler returns "invalid payload type in job"
    without doing anything.  [EnqueueNotionSyncJob] uses the type
    "notion_sync", for which the application registers no handler; and the
    note-sync handler, given that job, finds no "transcription" in its
    payload of title and content. *)
Theorem X14_enqueued_jobs_do_not_fit_handlers svc jobID userID text title content now w :
  (forall job,
     json_Unmarshal (json_Marshal
       (mkQueueJob 0 jobID userID JobTypeSummarization now (VString text))) = Some job ->
     ProcessSummarization svc job w = (Err "invalid payload type in job", w)) /\
  handlers (app_worker svc) !! JobTypeNotionSync = None /\
  (forall job,
     json_Unmarshal (json_Marshal
       (mkQueueJob 0 jobID userID JobTypeNotionSync now
          (VMapString [("title", title); ("content", content)]))) = Some job ->
     ProcessNotionIntegration svc job w
       = (HReturn (Some "transcription not found in job payload or has invalid type"), w)).
Proof.
  split; [|split].
  - intros job H. cbn in H. injection H as <-.
    apply (ProcessSummarization_string_payload svc _ text). reflexivity.
  - reflexivity.
  - intros job H. cbn in H. injection H as <-. reflexivity.
Qed.

Lemma X14_witness :
  llist (w_queues (snd (EnqueueSummarizationJob 1 42 "hello world" demo_created)))
        JobTypeSummarization
    = [json_Marshal (mkQueueJob 0 1 42 JobTypeSummarization 100 (VString "hello world"))] /\
  llist (w_queues (snd (EnqueueNotionSyncJob 1 42 "t" "c" demo_created))) JobTypeNotionSync
    = [json_Marshal (mkQueueJob 0 1 42 JobTypeNotionSync 100
                       (VMapString [("title", "t"); ("content", "c")]))] /\
  ProcessSummarization demo_services
      (mkQueueJob 0 1 42 JobTypeSummarization 100 (VString "hello world")) demo_created
    = (Err "invalid payload type in job", demo_created).
Proof.
  destruct (X14_enqueued_jobs_do_not_fit_handlers demo_services 1 42 "hello world"
              "t" "c" 100 demo_created) as (Hs & _ & _).
  split; [vm_compute; reflexivity |]. split; [vm_compute; reflexivity |].
  apply Hs. reflexivity.
Defined.

(** X15.  The application registers handlers for exactly six job types:
    transcription, transcription_with_timestamps, summarization,
    summarization_with_bullets, notion and notification.  A queue job of any
    other type, "notion_sync" among them, reaches no handler. *)
Theorem X15_registered_job_types svc jobType :
  is_Some (handlers (app_worker svc) !! jobType) <->
  In jobType [JobTypeTranscription; JobTypeTranscriptionWithTimestamps;
              JobTypeSummarization; JobTypeSummarizationWithBulletPoints;
              JobTypeNotion; JobTypeNotification].
Proof.
  unfold app_worker, RegisterHandlers, RegisterHandler, NewQueueService,
    Worker_RegisterHandler, NewWorker.
  cbv [worker handlers from_option id].
  rewrite !lookup_insert_is_Some, lookup_empty. cbn [In].
  split.
  - intros H. repeat (destruct H as [<- | [_ H]]; [tauto |]).
    destruct H as [? H]. discriminate H.
  - intros H.
    destruct (decide (JobTypeNotification = jobType)) as [|N1]; [left; assumption |].
    right; split; [exact N1 |].
    destruct (decide (JobTypeNotion = jobType)) as [|N2]; [left; assumption |].
    right; split; [exact N2 |].
    destruct (decide (JobTypeSummarizationWithBulletPoints = jobType)) as [|N3];
      [left; assumption |].
    right; split; [exact N3 |].
    destruct (decide (JobTypeSummarization = jobType)) as [|N4]; [left; assumption |].
    right; split; [exact N4 |].
    destruct (decide (JobTypeTranscriptionWithTimestamps = jobType)) as [|N5];
      [left; assumption |].
    right; split; [exact N5 |].
    destruct (decide (JobTypeTranscription = jobType)) as [|N6]; [left; assumption |].
    exfalso. intuition congruence.
Qed.

(** ** Worker loop *)

(** X16.  An idle loop does nothing but wait: while the default queue is
    empty and Redis is reachable, n iterations leave table jobs, every queue
    and the record of outside calls exactly as they were, call no handler,
    and take two seconds each (the timeout of the pop, then the sleep). *)
Theorem X16_idle_loop_only_waits wk n : forall w,
  redis_healthy w ->
  llist (w_queues w) DefaultQueueName = [] ->
  exists w',
    worker_loop wk (repeat NoSignal n) w = Running w' /\
    w_jobs w' = w_jobs w /\
    w_queues w' = w_queues w /\
    w_calls w' = w_calls w /\
    w_clock w' = w_clock w + 2 * Z.of_nat n.
Proof.
  induction n as [|n IH]; intros w Hw Hempty.
  - exists w. cbn. repeat split. lia.
  - cbn [repeat worker_loop]. unfold iteration.
    rewrite PopJob_eq, (redis_healthy_not_failed w Hw), Hempty.
    cbn [snd time_Sleep modify].
    set (w1 := set_clock _ (set_clock _ (redis_next w))).
    destruct (IH w1) as (w' & Hloop & Hj & Hq & Hc & Ht).
    + apply (redis_healthy_next w Hw).
    + exact Hempty.
    + exists w'. split; [exact Hloop |].
      rewrite Hj, Hq, Hc, Ht. subst w1. cbn. repeat split. lia.
Qed.

Lemma X16_witness :
  exists w',
    worker_loop (app_worker demo_services) (repeat NoSignal 3) demo_enqueued = Running w' /\
    w_jobs w' = w_jobs demo_enqueued /\
    w_queues w' = w_queues demo_enqueued /\
    w_calls w' = w_calls demo_enqueued /\
    w_clock w' = w_clock demo_enqueued + 2 * Z.of_nat 3.
Proof.
  apply (X16_idle_loop_only_waits (app_worker demo_services) 3 demo_enqueued).
  - constructor.
  - reflexivity.
Defined.

(** X17.  A panic in a handler is not recovered.  When the default queue
    hands the loop a queue job of type "notion" whose payload is not a map,
    the note-sync handler panics on its first type assertion and the loop is
    brought down with it: no later iteration runs, the items behind the job
    stay on the queue and the job's row is left at [processing]. *)
Theorem X17_panic_brings_the_loop_down svc value rest job row w :
  llist (w_queues w) DefaultQueueName = value :: rest ->
  json_Unmarshal value = Some job ->
  q_JobType job = JobTypeNotion ->
  assert_map (q_Payload job) = None ->
  w_jobs w !! q_JobID job = Some row ->
  redis_failed w = false ->
  pg_failed w = false ->
  exists e w',
    (forall sigs, worker_loop (app_worker svc) (NoSignal :: sigs) w = Crashed e w') /\
    llist (w_queues w') DefaultQueueName = rest /\
    w_jobs w' !! q_JobID job = Some (set_status JobStatusProcessing (w_clock w) None "" row).
Proof.
  intros Hq Hjob Htype Hpayload Hrow Hredis Hpg.
  pose proof (PopJob_eq DefaultQueueName w) as E.
  rewrite Hredis, Hq in E. cbv zeta in E. rewrite Hjob, Hpg in E.
  eexists "interface conversion: interface {} is not map[string]interface {}", _.
  split; [|split].
  - intros sigs. cbn [worker_loop]. unfold iteration. rewrite E.
    unfold processJob. rewrite Htype.
    change (handlers (app_worker svc) !! JobTypeNotion)
      with (Some (ProcessNotionIntegration svc)).
    unfold ProcessNotionIntegration.
    destruct (q_Payload job); try reflexivity. discriminate Hpayload.
  - cbn. apply llist_insert_eq.
  - cbn. rewrite lookup_alter, decide_True by reflexivity. rewrite Hrow. reflexivity.
Qed.

Lemma X17_witness :
  let w := set_queues
             (fun qs => <[DefaultQueueName :=
                [JobJSON 0 1 42 JobTypeNotion 100 (JString "hello world"); demo_wire_job]]> qs)
             demo_created in
  exists e w',
    (forall sigs,
       worker_loop (app_worker demo_services) (NoSignal :: sigs) w = Crashed e w') /\
    llist (w_queues w') DefaultQueueName = [demo_wire_job] /\
    w_jobs w' !! 1
      = Some (set_status JobStatusProcessing 100 None ""
                (mkJob 1 42 JobStatusPending "a.ogg" "" "" "" "" 100 100 None "")).
Proof.
  intros w.
  apply (X17_panic_brings_the_loop_down demo_services
           (JobJSON 0 1 42 JobTypeNotion 100 (JString "hello world")) [demo_wire_job]
           (mkQueueJob 0 1 42 JobTypeNotion 100 (VString "hello world"))
           (mkJob 1 42 JobStatusPending "a.ogg" "" "" "" "" 100 100 None "") w);
    reflexivity.
Defined.

(** ** Stage handlers *)

(** Bring what is known about the failure schedules to one form. *)
Ltac norm_world :=
  cbn [pg_failed redis_failed pg_next redis_next w_pg_faults w_redis_faults w_clock
       w_jobs w_queues w_calls w_users w_jobs_seq add_call set_jobs set_queues
       set_pg_faults set_redis_faults set_clock set_jobs_seq fst snd] in *.

Lemma SetTranscription_eq id text w :
  SetTranscription id text w =
  if pg_failed w
  then (Err "failed to set transcription: pg: statement failed", pg_next w)
  else (Ok tt, set_jobs (alter (set_transcription text (w_clock w)) id) (pg_next w)).
Proof.
  unfold SetTranscription, bind, time_Now, gets, wrap. rewrite pg_update_eq.
  destruct (pg_failed w); reflexivity.
Qed.

Lemma SetSummary_eq id text w :
  SetSummary id text w =
  if pg_failed w
  then (Err "failed to set summary: pg: statement failed", pg_next w)
  else (Ok tt, set_jobs (alter (set_summary text (w_clock w)) id) (pg_next w)).
Proof.
  unfold SetSummary, bind, time_Now, gets, wrap. rewrite pg_update_eq.
  destruct (pg_failed w); reflexivity.
Qed.

Lemma ProcessTranscription_success svc job payload audioPath processed text w :
  assert_map (q_Payload job) = Some payload ->
  assert_string (map_index payload "audio_path") = Some audioPath ->
  audio_ProcessAudio svc audioPath = Ok processed ->
  transcription_Transcribe svc processed = Ok text ->
  redis_failed w = false ->
  pg_failed w = false ->
  pg_failed (pg_next w) = false ->
  pg_failed (pg_next (pg_next w)) = false ->
  ProcessTranscription svc job w =
    (Ok tt,
     set_jobs (alter (set_status JobStatusTranscribed (w_clock w) None "") (q_JobID job))
       (pg_next
          (set_jobs (alter (set_status JobStatusQueued (w_clock w) None "") (q_JobID job))
             (pg_next
                (set_queues
                   (fun qs => <[JobTypeSummarization :=
                      (llist qs JobTypeSummarization ++
                       [JobJSON 0 (q_JobID job) 0 JobTypeSummarization (w_clock w)
                          (JObject [("transcription", JString text);
                                    ("user_id", JNumber (payload_user_id job))])])%list]> qs)
                   (redis_next
                      (set_jobs (alter (set_transcription text (w_clock w)) (q_JobID job))
                         (pg_next
                            (add_call (CallSendProgressUpdate (q_JobID job) JobStatusTranscribed)
                               (add_call (CallTranscribe processed)
                                  (add_call
                                     (CallSendProgressUpdate (q_JobID job) JobStatusProcessing)
                                     (add_call (CallProcessAudio audioPath) w)))))))))))).
Proof.
  intros Hmap Hpath Haudio Htrans Hredis Hpg1 Hpg2 Hpg3.
  unfold payload_user_id.
  unfold ProcessTranscription. rewrite Hmap, Hpath. cbv zeta.
  unfold bind at 1. unfold wrap at 1. unfold ProcessAudio at 1. rewrite Haudio.
  unfold bind at 1. unfold SendProgressUpdate at 1, modify at 1.
  unfold bind at 1. unfold wrap at 1. unfold Transcribe at 1. rewrite Htrans.
  unfold bind at 1. unfold SendProgressUpdate at 1, modify at 1.
  unfold bind at 1. unfold wrap at 1. rewrite SetTranscription_eq.
  norm_world. unfold pg_failed, pg_next in *. norm_world. rewrite Hpg1.
  unfold bind at 1. unfold wrap at 1. rewrite PushJob_eq.
  norm_world. unfold redis_failed, pg_failed, pg_next in *. norm_world.
  rewrite Hredis. cbv zeta. norm_world. rewrite Hpg2.
  unfold bind at 1. unfold wrap at 1. rewrite UpdateStatus_eq. cbv zeta.
  norm_world. unfold pg_failed. norm_world. rewrite Hpg3.
  reflexivity.
Qed.

(** X18.  The transcription handler on a job it can read (a map payload
    with a string under "audio_path"), with both collaborators answering and
    every statement and the push going through: it returns nil; the job's
    row holds the text the transcription service returned and ends with the
    status [transcribed] (after passing through [queued], which the push
    sets); one summarization item for the same job is at the tail of the
    queue "summarization"; and the outside was asked, in this order, to
    process the audio, to report progress, to transcribe the processed
    file, and to report progress again. *)
Theorem X18_transcription_handler_success svc job payload audioPath processed text row w :
  assert_map (q_Payload job) = Some payload ->
  assert_string (map_index payload "audio_path") = Some audioPath ->
  audio_ProcessAudio svc audioPath = Ok processed ->
  transcription_Transcribe svc processed = Ok text ->
  w_jobs w !! q_JobID job = Some row ->
  redis_failed w = false ->
  pg_failed w = false ->
  pg_failed (pg_next w) = false ->
  pg_failed (pg_next (pg_next w)) = false ->
  let w' := snd (ProcessTranscription svc job w) in
  fst (ProcessTranscription svc job w) = Ok tt /\
  (exists row',
     w_jobs w' !! q_JobID job = Some row' /\
     j_Transcription row' = text /\
     j_Status row' = JobStatusTranscribed /\
     j_CompletedAt row' = None /\
     j_Summary row' = j_Summary row) /\
  llist (w_queues w') JobTypeSummarization
    = (llist (w_queues w) JobTypeSummarization ++
       [JobJSON 0 (q_JobID job) 0 JobTypeSummarization (w_clock w)
          (JObject [("transcription", JString text);
                    ("user_id", JNumber (payload_user_id job))])])%list /\
  w_calls w'
    = (w_calls w ++
       [CallProcessAudio audioPath;
        CallSendProgressUpdate (q_JobID job) JobStatusProcessing;
        CallTranscribe processed;
        CallSendProgressUpdate (q_JobID job) JobStatusTranscribed])%list.
Proof.
  intros Hmap Hpath Haudio Htrans Hrow Hredis Hpg1 Hpg2 Hpg3 w'. subst w'.
  rewrite (ProcessTranscription_success svc job payload audioPath processed text w)
    by assumption.
  cbn [fst snd]. split; [reflexivity |]. split; [|split].
  - eexists. split.
    + cbn. rewrite !lookup_alter, !decide_True by reflexivity. rewrite Hrow. reflexivity.
    + repeat split.
  - cbn. apply llist_insert_eq.
  - cbn. rewrite <- !app_assoc. reflexivity.
Qed.

Lemma X18_witness :
  let w' := snd (ProcessTranscription demo_services demo_popped_job demo_created) in
  fst (ProcessTranscription demo_services demo_popped_job demo_created) = Ok tt /\
  (exists row',
     w_jobs w' !! 1 = Some row' /\
     j_Transcription row' = "hello world" /\
     j_Status row' = JobStatusTranscribed /\
     j_CompletedAt row' = None /\
     j_Summary row' = "") /\
  llist (w_queues w') JobTypeSummarization
    = [JobJSON 0 1 0 JobTypeSummarization 100
         (JObject [("transcription", JString "hello world"); ("user_id", JNumber 0)])] /\
  w_calls w'
    = [CallProcessAudio "a.ogg";
       CallSendProgressUpdate 1 JobStatusProcessing;
       CallTranscribe "a.ogg.wav";
       CallSendProgressUpdate 1 JobStatusTranscribed].
Proof.
  apply (X18_transcription_handler_success demo_services demo_popped_job
           [("user_id", VFloat64 42); ("audio_path", VString "a.ogg")]
           "a.ogg" "a.ogg.wav" "hello world"
           (mkJob 1 42 JobStatusPending "a.ogg" "" "" "" "" 100 100 None "")
           demo_created); reflexivity.
Defined.

(** X19.  When a collaborator fails, the transcription handler gives up
    without a trace in the stores: if processing the audio fails, or the
    transcription service fails on the processed file, the handler returns
    that error wrapped, and table jobs and all queues are exactly as before;
    in particular the job is not marked [failed]. *)
Theorem X19_transcription_handler_collaborator_failure
    svc job payload audioPath e msg w :
  assert_map (q_Payload job) = Some payload ->
  assert_string (map_index payload "audio_path") = Some audioPath ->
  (audio_ProcessAudio svc audioPath = Err e /\
   msg = "failed to process audio for transcription: " +:+ e) \/
  (exists processed,
     audio_ProcessAudio svc audioPath = Ok processed /\
     transcription_Transcribe svc processed = Err e /\
     msg = "failed to transcribe audio: " +:+ e) ->
  fst (ProcessTranscription svc job w) = Err msg /\
  w_jobs (snd (ProcessTranscription svc job w)) = w_jobs w /\
  w_queues (snd (ProcessTranscription svc job w)) = w_queues w.
Proof.
  intros Hmap Hpath Hfail.
  assert (E : exists w', ProcessTranscription svc job w = (Err msg, w') /\
                         w_jobs w' = w_jobs w /\ w_queues w' = w_queues w).
  { unfold ProcessTranscription. rewrite Hmap, Hpath. cbv zeta.
    unfold bind at 1. unfold wrap at 1. unfold ProcessAudio at 1.
    destruct Hfail as [[Haudio ->] | (processed & Haudio & Htrans & ->)]; rewrite Haudio.
    - eexists. repeat split.
    - unfold bind at 1. unfold SendProgressUpdate at 1, modify at 1.
      unfold bind at 1. unfold wrap at 1. unfold Transcribe at 1. rewrite Htrans.
      eexists. repeat split. }
  destruct E as (w' & -> & Hj & Hq). repeat split; assumption.
Qed.

Lemma X19_witness :
  let svc := mkServices (fun path => Ok (path +:+ ".wav")) (fun _ => Err "status code: 429")
               (fun _ => Ok "greeting") (fun _ _ _ _ => Ok "page-123") in
  fst (ProcessTranscription svc demo_popped_job demo_created)
    = Err "failed to transcribe audio: status code: 429" /\
  w_jobs (snd (ProcessTranscription svc demo_popped_job demo_created)) = w_jobs demo_created /\
  w_queues (snd (ProcessTranscription svc demo_popped_job demo_created))
    = w_queues demo_created.
Proof.
  intros svc.
  apply (X19_transcription_handler_collaborator_failure svc demo_popped_job
           [("user_id", VFloat64 42); ("audio_path", VString "a.ogg")]
           "a.ogg" "status code: 429" "failed to transcribe audio: status code: 429"
           demo_created).
  - reflexivity.
  - reflexivity.
  - right. exists "a.ogg.wav". repeat split.
Defined.

(** ** What the pipeline never writes *)

Lemma row_step_refl j : row_step j j.
Proof. unfold row_step. repeat split; left; reflexivity. Qed.

Lemma row_step_trans j1 j2 j3 : row_step j1 j2 -> row_step j2 j3 -> row_step j1 j3.
Proof.
  unfold row_step.
  intros (A1 & A2 & A3 & A4 & A5 & A6 & A7 & A8) (B1 & B2 & B3 & B4 & B5 & B6 & B7 & B8).
  repeat split; try congruence.
  - destruct B7 as [B7 | B7]; [|right; exact B7].
    destruct A7 as [A7 | A7]; [left; congruence | right; rewrite B7; exact A7].
  - destruct B8 as [B8 | B8]; [|right; exact B8].
    destruct A8 as [A8 | A8]; [left; congruence | right; congruence].
Qed.

Lemma table_step_refl w : table_step w w.
Proof.
  split; [reflexivity |]. intros id.
  destruct (w_jobs w !! id); [apply row_step_refl | exact I].
Qed.

Lemma table_step_trans w1 w2 w3 : table_step w1 w2 -> table_step w2 w3 -> table_step w1 w3.
Proof.
  intros [U12 H12] [U23 H23]. split; [congruence |]. intros id.
  specialize (H12 id). specialize (H23 id).
  destruct (w_jobs w1 !! id), (w_jobs w2 !! id), (w_jobs w3 !! id);
    try contradiction; try exact I.
  eapply row_step_trans; eassumption.
Qed.

Lemma table_step_same w w' :
  w_jobs w' = w_jobs w -> w_users w' = w_users w -> table_step w w'.
Proof.
  intros Hj Hu. split; [exact Hu |]. intros id. rewrite Hj.
  destruct (w_jobs w !! id); [apply row_step_refl | exact I].
Qed.

Lemma keeps_bind {A B} (m : M A) (k : A -> M B) :
  keeps table_step m -> (forall a, keeps table_step (k a)) -> keeps table_step (bind m k).
Proof.
  intros Hm Hk w. unfold bind. specialize (Hm w).
  destruct (m w) as [[a|e] w1]; cbn [snd] in *; [|exact Hm].
  eapply table_step_trans; [exact Hm | apply Hk].
Qed.

Lemma keeps_wrap {A} ctx (m : M A) : keeps table_step m -> keeps table_step (wrap ctx m).
Proof. intros Hm w. rewrite wrap_world. apply Hm. Qed.

Lemma keeps_ret {A} (a : A) : keeps table_step (ret a).
Proof. intros w. apply table_step_refl. Qed.

Lemma keeps_fail {A} e : keeps table_step (@fail A e).
Proof. intros w. apply table_step_refl. Qed.

Lemma keeps_time_Now : keeps table_step time_Now.
Proof. intros w. apply table_step_refl. Qed.

Lemma keeps_pg_update id f :
  (forall j, row_step j (f j)) -> keeps table_step (pg_update id f).
Proof.
  intros Hf w. rewrite pg_update_eq.
  destruct (pg_failed w); cbn [snd]; [apply table_step_same; reflexivity |].
  split; [reflexivity |]. intros i. cbn. rewrite lookup_alter. case_decide.
  - subst i. destruct (w_jobs w !! id); cbn; [apply Hf | exact I].
  - destruct (w_jobs w !! i); [apply row_step_refl | exact I].
Qed.

Lemma keeps_UpdateStatus id status :
  In status [JobStatusQueued; JobStatusProcessing; JobStatusTranscribed;
             JobStatusSummarized; JobStatusCompleted] ->
  keeps table_step (UpdateStatus id status "").
Proof.
  intros Hst. apply keeps_bind; [apply keeps_time_Now |]. intros now.
  apply keeps_wrap, keeps_pg_update. intros j.
  unfold row_step. cbn [set_status j_ID j_UserID j_AudioFilePath j_CreatedAt j_NotionPageID
    j_NotionDatabaseID j_Status j_ErrorMessage].
  repeat split; right; [exact Hst | reflexivity].
Qed.

Lemma keeps_SetTranscription id text : keeps table_step (SetTranscription id text).
Proof.
  apply keeps_bind; [apply keeps_time_Now |]. intros now.
  apply keeps_wrap, keeps_pg_update. intros j. unfold row_step. cbn.
  repeat split; left; reflexivity.
Qed.

Lemma keeps_SetSummary id text : keeps table_step (SetSummary id text).
Proof.
  apply keeps_bind; [apply keeps_time_Now |]. intros now.
  apply keeps_wrap, keeps_pg_update. intros j. unfold row_step. cbn.
  repeat split; left; reflexivity.
Qed.

Lemma keeps_GetByID id : keeps table_step (GetByID id).
Proof.
  intros w. rewrite GetByID_eq. destruct (pg_failed w); [apply table_step_same; reflexivity |].
  destruct (w_jobs w !! id); apply table_step_same; reflexivity.
Qed.

Lemma keeps_GetByTelegramID telegramID : keeps table_step (GetByTelegramID telegramID).
Proof.
  intros w. unfold GetByTelegramID, pg_roundtrip.
  destruct (pg_failed _); [apply table_step_same; reflexivity |]. cbn.
  destruct (find _ (w_users w)); apply table_step_same; reflexivity.
Qed.

Lemma keeps_Push queueName job : keeps table_step (Push queueName job).
Proof.
  intros w. rewrite Push_eq. destruct (redis_failed w); apply table_step_same; reflexivity.
Qed.

Lemma keeps_PushJob job : keeps table_step (PushJob job).
Proof.
  unfold PushJob. cbv zeta.
  apply keeps_bind; [apply keeps_wrap, keeps_Push |]. intros _.
  apply keeps_bind; [|intros; apply keeps_ret].
  apply keeps_wrap, keeps_UpdateStatus. cbn. tauto.
Qed.

Lemma keeps_ProcessAudio svc path : keeps table_step (ProcessAudio svc path).
Proof. intros w. apply table_step_same; reflexivity. Qed.

Lemma keeps_Transcribe svc path : keeps table_step (Transcribe svc path).
Proof. intros w. apply table_step_same; reflexivity. Qed.

Lemma keeps_SummarizeText svc text : keeps table_step (SummarizeText svc text).
Proof. intros w. apply table_step_same; reflexivity. Qed.

Lemma keeps_SendProgressUpdate id status : keeps table_step (SendProgressUpdate id status).
Proof. intros w. apply table_step_same; reflexivity. Qed.

Create HintDb keeps.
#[local] Hint Resolve keeps_ret keeps_fail keeps_time_Now keeps_SetTranscription
  keeps_SetSummary keeps_GetByID keeps_GetByTelegramID keeps_PushJob keeps_ProcessAudio
  keeps_Transcribe keeps_SummarizeText keeps_SendProgressUpdate : keeps.

Ltac keeps_steps :=
  repeat first
    [ solve [auto with keeps]
    | solve [apply keeps_UpdateStatus; cbn; tauto]
    | lazymatch goal with
      | |- keeps table_step (bind _ _) => apply keeps_bind; [| intros ?]
      | |- keeps table_step (wrap _ _) => apply keeps_wrap
      end ].

Lemma keeps_ProcessTranscription svc job : keeps table_step (ProcessTranscription svc job).
Proof.
  unfold ProcessTranscription.
  destruct (assert_map (q_Payload job)) as [payload|]; [|apply keeps_fail].
  destruct (assert_string (map_index payload "audio_path")); [|apply keeps_fail].
  cbv zeta. keeps_steps.
Qed.

Lemma keeps_ProcessTranscriptionWithTimestamps svc job :
  keeps table_step (ProcessTranscriptionWithTimestamps svc job).
Proof.
  unfold ProcessTranscriptionWithTimestamps.
  destruct (assert_map (q_Payload job)) as [payload|]; [|apply keeps_fail].
  destruct (assert_string (map_index payload "audio_path")); [|apply keeps_fail].
  keeps_steps.
Qed.

Lemma keeps_ProcessSummarization svc job : keeps table_step (ProcessSummarization svc job).
Proof.
  unfold ProcessSummarization.
  destruct (assert_map (q_Payload job)) as [payload|]; [|apply keeps_fail].
  destruct (assert_string (map_index payload "transcription")); [|apply keeps_fail].
  cbv zeta. keeps_steps.
Qed.

Lemma keeps_ProcessSummarizationWithBulletPoints svc job :
  keeps table_step (ProcessSummarizationWithBulletPoints svc job).
Proof.
  unfold ProcessSummarizationWithBulletPoints.
  destruct (assert_map (q_Payload job)) as [payload|]; [|apply keeps_fail].
  destruct (assert_string (map_index payload "transcription")); [|apply keeps_fail].
  keeps_steps.
Qed.

(** The branch of the note-sync handler that writes the Notion ids is never
    taken, see [GetByTelegramID_credentials]. *)
Lemma keeps_notion_integration svc job payload :
  keeps table_step (notion_integration svc job payload).
Proof.
  unfold notion_integration.
  destruct (assert_string (map_index payload "transcription")); [|apply keeps_fail].
  destruct (assert_string (map_index payload "summary")); [|apply keeps_fail].
  cbv zeta. intros w. unfold bind at 1. unfold wrap at 1.
  pose proof (keeps_GetByTelegramID (q_UserID job) w) as Hget.
  destruct (GetByTelegramID (q_UserID job) w) as [[user|e] w1] eqn:E; cbn [snd] in *;
    [|exact Hget].
  rewrite (GetByTelegramID_credentials _ _ _ _ E).
  eapply table_step_trans; [exact Hget |].
  assert (Hk : keeps table_step
                 (wrap "failed to update job status"
                    (UpdateStatus (q_JobID job) JobStatusCompleted "") ;;; ret tt))
    by keeps_steps.
  apply Hk.
Qed.

Lemma keeps_handlers svc jobType handler :
  handlers (app_worker svc) !! jobType = Some handler ->
  forall job w, table_step w (snd (handler job w)).
Proof.
  unfold app_worker, RegisterHandlers, RegisterHandler, NewQueueService,
    Worker_RegisterHandler, NewWorker.
  cbv [worker handlers from_option id]. intros H job w.
  repeat (rewrite lookup_insert in H; case_decide; [injection H as <-; cbv beta |]).
  - rewrite returning_world.
    assert (Hk : keeps table_step (SendJobCompletionNotification (q_JobID job) ;;; ret tt)).
    { unfold SendJobCompletionNotification. keeps_steps. }
    apply Hk.
  - unfold ProcessNotionIntegration. destruct (q_Payload job); try apply table_step_refl.
    rewrite returning_world. apply keeps_notion_integration.
  - rewrite returning_world. apply keeps_ProcessSummarizationWithBulletPoints.
  - rewrite returning_world. apply keeps_ProcessSummarization.
  - rewrite returning_world. apply keeps_ProcessTranscriptionWithTimestamps.
  - rewrite returning_world. apply keeps_ProcessTranscription.
  - rewrite lookup_empty in H. discriminate H.
Qed.

Lemma keeps_PopJob queueName w : table_step w (snd (PopJob queueName w)).
Proof.
  rewrite PopJob_eq. destruct (redis_failed w); [apply table_step_same; reflexivity |].
  destruct (llist (w_queues w) queueName) as [|value rest];
    [apply table_step_same; reflexivity |].
  cbv zeta. destruct (json_Unmarshal value) as [job|];
    [|apply table_step_same; reflexivity].
  destruct (pg_failed w) eqn:Hpg; [apply table_step_same; reflexivity |].
  cbn [snd].
  pose proof (keeps_UpdateStatus (q_JobID job) JobStatusProcessing
                ltac:(cbn; tauto)
                (set_queues (fun qs => <[queueName := rest]> qs) (redis_next w))) as H.
  rewrite UpdateStatus_eq in H. cbv zeta in H.
  change (pg_failed (set_queues (fun qs => <[queueName := rest]> qs) (redis_next w)))
    with (pg_failed w) in H.
  rewrite Hpg in H. cbn [snd] in H.
  destruct H as [Hu Hrows]. split; [exact Hu |]. exact Hrows.
Qed.

Lemma keeps_iteration svc sig w :
  table_step w (loop_world (iteration (app_worker svc) sig w)).
Proof.
  destruct sig; cbn [iteration loop_world]; try apply table_step_refl.
  pose proof (keeps_PopJob DefaultQueueName w) as Hpop.
  destruct (PopJob DefaultQueueName w) as [[[job|] [err|]] w1]; cbn [snd] in Hpop;
    cbn [loop_world]; try exact Hpop.
  unfold processJob.
  destruct (handlers (app_worker svc) !! q_JobType job) as [handler|] eqn:Hh;
    [|exact Hpop].
  pose proof (keeps_handlers svc _ _ Hh job w1) as Hstep.
  destruct (handler job w1) as [[err|e] w2]; cbn [snd loop_world] in *;
    eapply table_step_trans; eassumption.
Qed.

Lemma keeps_worker_loop svc sigs : forall w,
  table_step w (loop_world (worker_loop (app_worker svc) sigs w)).
Proof.
  induction sigs as [|sig sigs IH]; intros w; cbn [worker_loop].
  - apply table_step_refl.
  - pose proof (keeps_iteration svc sig w) as Hit.
    destruct (iteration (app_worker svc) sig w) as [w1 | w1 | e w1]; cbn [loop_world] in *.
    + eapply table_step_trans; [exact Hit | apply IH].
    + exact Hit.
    + exact Hit.
Qed.

(** X20.  However long the worker loop of the application runs, whatever
    the collaborators answer and whichever statements fail, it only ever
    does this to table jobs: no row is added or removed; a row's status
    stays or becomes one of [queued], [processing], [transcribed],
    [summarized], [completed]; its error message stays or becomes empty; its
    Notion page and database ids, user, audio path and creation time stay.
    So no job is ever marked [failed] by the pipeline, no error message is
    ever stored, and no Notion id is ever written. *)
Theorem X20_pipeline_never_marks_failed svc sigs w :
  let w' := loop_world (App_Start svc sigs w) in
  table_step w w' /\
  forall id j',
    w_jobs w' !! id = Some j' ->
    exists j,
      w_jobs w !! id = Some j /\
      (j_Status j' = JobStatusFailed -> j_Status j = JobStatusFailed) /\
      (j_ErrorMessage j' <> "" -> j_ErrorMessage j' = j_ErrorMessage j) /\
      j_NotionPageID j' = j_NotionPageID j /\
      j_NotionDatabaseID j' = j_NotionDatabaseID j.
Proof.
  intros w'. subst w'. unfold App_Start, StartWorker. fold (app_worker svc).
  pose proof (keeps_worker_loop svc sigs w) as Hstep.
  split; [exact Hstep |].
  intros id j' Hj'. destruct Hstep as [_ Hrows]. specialize (Hrows id).
  rewrite Hj' in Hrows. destruct (w_jobs w !! id) as [j|]; [|contradiction].
  exists j. split; [reflexivity |].
  destruct Hrows as (_ & _ & _ & _ & Hp & Hd & Hs & He).
  split; [|split; [|split; assumption]].
  - intros Hfailed. destruct Hs as [Hs | Hs]; [congruence |].
    rewrite Hfailed in Hs. cbn in Hs.
    repeat (destruct Hs as [Hs | Hs]; [discriminate Hs |]). contradiction.
  - intros Hne. destruct He as [He | He]; [exact He | contradiction].
Qed.

Lemma X20_witness :
  table_step demo_default_queue
    (loop_world (App_Start demo_services [NoSignal; NoSignal; CtxDone] demo_default_queue)).
Proof.
  exact (proj1 (X20_pipeline_never_marks_failed demo_services [NoSignal; NoSignal; CtxDone]
                  demo_default_queue)).
Defined.

(** ** The summarization handler *)

Lemma ProcessSummarization_success svc job payload transcription summary w :
  assert_map (q_Payload job) = Some payload ->
  assert_string (map_index payload "transcription") = Some transcription ->
  summarization_SummarizeText svc transcription = Ok summary ->
  redis_failed w = false ->
  pg_failed w = false ->
  pg_failed (pg_next w) = false ->
  pg_failed (pg_next (pg_next w)) = false ->
  ProcessSummarization svc job w =
    (Ok tt,
     set_jobs (alter (set_status JobStatusSummarized (w_clock w) None "") (q_JobID job))
       (pg_next
          (set_jobs (alter (set_status JobStatusQueued (w_clock w) None "") (q_JobID job))
             (pg_next
                (set_queues
                   (fun qs => <[JobTypeNotion :=
                      (llist qs JobTypeNotion ++
                       [JobJSON 0 (q_JobID job) (q_UserID job) JobTypeNotion (w_clock w)
                          (JObject [("transcription", JString transcription);
                                    ("summary", JString summary)])])%list]> qs)
                   (redis_next
                      (set_jobs (alter (set_summary summary (w_clock w)) (q_JobID job))
                         (pg_next (add_call (CallSummarizeText transcription) w))))))))).
Proof.
  intros Hmap Htext Hsum Hredis Hpg1 Hpg2 Hpg3.
  unfold ProcessSummarization. rewrite Hmap, Htext.
  unfold bind at 1. unfold wrap at 1. unfold SummarizeText at 1. rewrite Hsum.
  unfold bind at 1. unfold wrap at 1. rewrite SetSummary_eq.
  norm_world. unfold pg_failed, pg_next in *. norm_world. rewrite Hpg1.
  unfold bind at 1. unfold time_Now at 1, gets at 1. cbv zeta.
  unfold bind at 1. unfold wrap at 1. rewrite PushJob_eq.
  norm_world. unfold redis_failed, pg_failed, pg_next in *. norm_world.
  rewrite Hredis. cbv zeta. norm_world. rewrite Hpg2.
  unfold bind at 1. unfold wrap at 1. rewrite UpdateStatus_eq. cbv zeta.
  norm_world. unfold pg_failed. norm_world. rewrite Hpg3.
  reflexivity.
Qed.

(** X21.  The summarization handler on a job it can read (a map payload
    with a string under "transcription"), with the summarization service
    answering and the three statements and the push going through: it
    returns nil; the job's row holds the summary the service returned and
    ends with the status [summarized] (after [queued], which the push sets),
    completed_at null, its transcription as it was; one note-sync item is at
    the tail of the queue "notion", for the same job, with the
    user id of the job being handled and both texts in its payload; and the
    only request to the outside is the one to the summarization service. *)
Theorem X21_summarization_handler_success svc job payload transcription summary row w :
  assert_map (q_Payload job) = Some payload ->
  assert_string (map_index payload "transcription") = Some transcription ->
  summarization_SummarizeText svc transcription = Ok summary ->
  w_jobs w !! q_JobID job = Some row ->
  redis_failed w = false ->
  pg_failed w = false ->
  pg_failed (pg_next w) = false ->
  pg_failed (pg_next (pg_next w)) = false ->
  let w' := snd (ProcessSummarization svc job w) in
  fst (ProcessSummarization svc job w) = Ok tt /\
  (exists row',
     w_jobs w' !! q_JobID job = Some row' /\
     j_Summary row' = summary /\
     j_Status row' = JobStatusSummarized /\
     j_CompletedAt row' = None /\
     j_Transcription row' = j_Transcription row) /\
  llist (w_queues w') JobTypeNotion
    = (llist (w_queues w) JobTypeNotion ++
       [JobJSON 0 (q_JobID job) (q_UserID job) JobTypeNotion (w_clock w)
          (JObject [("transcription", JString transcription);
                    ("summary", JString summary)])])%list /\
  w_calls w' = (w_calls w ++ [CallSummarizeText transcription])%list.
Proof.
  intros Hmap Htext Hsum Hrow Hredis Hpg1 Hpg2 Hpg3 w'. subst w'.
  rewrite (ProcessSummarization_success svc job payload transcription summary w)
    by assumption.
  cbn [fst snd]. split; [reflexivity |]. split; [|split].
  - eexists. split.
    + cbn. rewrite !lookup_alter, !decide_True by reflexivity. rewrite Hrow. reflexivity.
    + repeat split.
  - cbn. apply llist_insert_eq.
  - reflexivity.
Qed.

Lemma X21_witness :
  let job := mkQueueJob 0 1 0 JobTypeSummarization 100
               (VMap [("user_id", VFloat64 0); ("transcription", VString "hello world")]) in
  let w' := snd (ProcessSummarization demo_services job demo_created) in
  fst (ProcessSummarization demo_services job demo_created) = Ok tt /\
  (exists row',
     w_jobs w' !! 1 = Some row' /\
     j_Summary row' = "greeting" /\
     j_Status row' = JobStatusSummarized /\
     j_CompletedAt row' = None /\
     j_Transcription row' = "") /\
  llist (w_queues w') JobTypeNotion
    = [JobJSON 0 1 0 JobTypeNotion 100
         (JObject [("transcription", JString "hello world");
                   ("summary", JString "greeting")])] /\
  w_calls w' = [CallSummarizeText "hello world"].
Proof.
  apply (X21_summarization_handler_success demo_services
           (mkQueueJob 0 1 0 JobTypeSummarization 100
              (VMap [("user_id", VFloat64 0); ("transcription", VString "hello world")]))
           [("user_id", VFloat64 0); ("transcription", VString "hello world")]
           "hello world" "greeting"
           (mkJob 1 42 JobStatusPending "a.ogg" "" "" "" "" 100 100 None "")
           demo_created); reflexivity.
Defined.

(** ** The note-sync handler and the Notion set-up *)

(** X22.  The note-sync handler never asks Notion for a page: whatever the
    job, the collaborators, the tables and the failures, the only request it
    can add to those made to the outside is the user lookup by the job's
    user id taken as a Telegram id.  (The user it reads never carries
    credentials, because the lookup selects neither Notion column.) *)
Theorem X22_notion_handler_never_creates_a_page svc job w :
  let w' := snd (ProcessNotionIntegration svc job w) in
  w_calls w' = w_calls w \/
  w_calls w' = (w_calls w ++ [QueryUserByTelegramID (q_UserID job)])%list.
Proof.
  intros w'. subst w'. unfold ProcessNotionIntegration.
  destruct (q_Payload job) as [ | | | | | | |payload]; try (left; reflexivity).
  rewrite returning_world. unfold notion_integration.
  destruct (assert_string (map_index payload "transcription")); [|left; reflexivity].
  destruct (assert_string (map_index payload "summary")); [|left; reflexivity].
  cbv zeta. right. unfold bind at 1. unfold wrap at 1.
  assert (Hcalls : w_calls (snd (GetByTelegramID (q_UserID job) w))
                   = (w_calls w ++ [QueryUserByTelegramID (q_UserID job)])%list).
  { unfold GetByTelegramID, pg_roundtrip. destruct (pg_failed _); [reflexivity |]. cbn.
    destruct (find _ (w_users w)); reflexivity. }
  destruct (GetByTelegramID (q_UserID job) w) as [[user|e] w1] eqn:E; cbn [snd] in *;
    [|exact Hcalls].
  rewrite (GetByTelegramID_credentials _ _ _ _ E).
  unfold bind. rewrite <- Hcalls.
  pose proof (UpdateStatus_calls (q_JobID job) JobStatusCompleted "" w1) as Hu.
  unfold wrap. destruct (UpdateStatus (q_JobID job) JobStatusCompleted "" w1) as [[[]|e] w2];
    exact Hu.
Qed.

Lemma GetByTelegramID_users telegramID w :
  w_users (snd (GetByTelegramID telegramID w)) = w_users w.
Proof.
  unfold GetByTelegramID, pg_roundtrip. destruct (pg_failed _); [reflexivity |]. cbn.
  destruct (find _ (w_users w)); reflexivity.
Qed.


Lemma User_Update_fixed user w :
  map user_fixed (w_users (snd (User_Update user w))) = map user_fixed (w_users w).
Proof.
  unfold User_Update, bind, time_Now, gets, wrap, pg_roundtrip, modify.
  destruct (pg_failed w); [reflexivity |]. cbn.
  rewrite map_map. apply map_ext. intros row.
  destruct (u_ID row =? u_ID user); reflexivity.
Qed.

Lemma GetByTelegramID_jobs telegramID w :
  w_jobs (snd (GetByTelegramID telegramID w)) = w_jobs w.
Proof.
  unfold GetByTelegramID, pg_roundtrip. destruct (pg_failed _); [reflexivity |]. cbn.
  destruct (find _ (w_users w)); reflexivity.
Qed.

Lemma User_Update_jobs user w : w_jobs (snd (User_Update user w)) = w_jobs w.
Proof.
  unfold User_Update, bind, time_Now, gets, wrap, pg_roundtrip, modify.
  destruct (pg_failed w); reflexivity.
Qed.

(** X23.  Setting up the Notion integration stores no credentials: whatever
    the token, the answer of Notion and the failures, every row of table
    users has after [SetupNotionIntegration] the Notion token and the Notion
    database id it had before (and its id, Telegram id and creation time),
    because the UPDATE of the user repository names neither column; table
    jobs is not touched either. *)
Theorem X23_setup_stores_no_credentials notion_CreateDatabase userID notionToken w :
  let w' := snd (SetupNotionIntegration notion_CreateDatabase userID notionToken w) in
  map user_fixed (w_users w') = map user_fixed (w_users w) /\
  w_jobs w' = w_jobs w.
Proof.
  intros w'. subst w'.
  remember (SetupNotionIntegration notion_CreateDatabase userID notionToken w) as r eqn:Hr.
  unfold SetupNotionIntegration in Hr.
  pose proof (GetByTelegramID_users userID w) as Hu1.
  pose proof (GetByTelegramID_jobs userID w) as Hj1.
  rewrite <- (wrap_world "failed to get user") in Hu1, Hj1.
  unfold bind at 1 in Hr.
  destruct (wrap "failed to get user" (GetByTelegramID userID) w) as [[user|e] w1];
    cbn [snd] in *; [|subst r; cbn [snd]; rewrite Hu1, Hj1; split; reflexivity].
  unfold bind at 1 in Hr. unfold wrap at 1, CreateDatabase at 1 in Hr.
  destruct (notion_CreateDatabase (u_ID user) _) as [databaseID|e];
    [|subst r; cbn [snd]; rewrite Hu1, Hj1; split; reflexivity].
  cbv zeta in Hr. unfold bind in Hr.
  match type of Hr with
  | context [wrap ?c (User_Update ?u) w1] =>
      pose proof (User_Update_fixed u w1) as Hu2;
      pose proof (User_Update_jobs u w1) as Hj2;
      rewrite <- (wrap_world c) in Hu2, Hj2;
      destruct (wrap c (User_Update u) w1) as [[[]|e] w2]
  end; subst r; cbn [snd ret] in *; rewrite Hu2, Hj2, Hu1, Hj1; split; reflexivity.
Qed.



(** ** Ingestion *)

Lemma find_user_known telegramID (users : list User) row :
  find (fun r => u_TelegramID r =? telegramID) users = Some row ->
  existsb (fun u => u_ID u =? u_ID row) users = true.
Proof.
  intros Hfind. apply find_some in Hfind as [Hin _].
  apply existsb_exists. exists row. split; [exact Hin | apply Z.eqb_refl].
Qed.

Lemma AudioProcessing_ProcessAudio_created
    Duration (audio_GetAudioDuration : string -> Outcome Duration)
    userID audioPath fileName row d w :
  find (fun r => u_TelegramID r =? userID) (w_users w) = Some row ->
  audio_GetAudioDuration audioPath = Ok d ->
  w_jobs w !! (w_jobs_seq w + 1) = None ->
  pg_failed w = false ->
  pg_failed (pg_next w) = false ->
  AudioProcessing_ProcessAudio Duration audio_GetAudioDuration userID audioPath fileName w =
    (let id := w_jobs_seq w + 1 in
     let w2 :=
       set_jobs (fun t => <[id := mkJob id (u_ID row) JobStatusPending audioPath "" "" "" ""
                                     (w_clock w) (w_clock w) None ""]> t)
         (set_jobs_seq id (pg_next (pg_next (add_call (QueryUserByTelegramID userID) w)))) in
     (wrap "failed to push job to queue" (EnqueueTranscriptionJob id (u_ID row) audioPath) ;;;
      ret id) w2).
Proof.
  intros Hfind Hdur Hfree Hpg1 Hpg2.
  unfold AudioProcessing_ProcessAudio. unfold bind at 1.
  rewrite (wrap_ok _ _ _ _ _ (GetByTelegramID_found _ _ _ Hfind Hpg1)).
  unfold bind at 1. unfold wrap at 1, GetAudioDuration at 1. rewrite Hdur.
  unfold bind at 1. unfold time_Now at 1, gets at 1.
  unfold bind at 1. unfold wrap at 1. rewrite Create_eq. cbv zeta.
  norm_world. unfold pg_failed, pg_next in *. norm_world. rewrite Hpg2.
  cbn [j_UserID u_ID scan_user]. rewrite (find_user_known _ _ _ Hfind). cbn [negb].
  rewrite Hfree. rewrite bool_decide_eq_false_2 by (intros [x Hx]; discriminate Hx).
  reflexivity.
Qed.

(** X25.  Ingestion of an audio file for a registered user, with the
    duration probe answering, the three statements and the push going
    through and the next id of the sequence free: [ProcessAudio] returns the
    new job's id; the row is there with the status [queued], the user's
    internal id, the audio path, no texts and no completed_at; and the tail
    of the queue "transcription" is one item for that job whose payload is
    the bare audio path (a JSON string, not an object). *)
Theorem X25_ingestion_success
    Duration (audio_GetAudioDuration : string -> Outcome Duration)
    userID audioPath fileName row d w :
  find (fun r => u_TelegramID r =? userID) (w_users w) = Some row ->
  audio_GetAudioDuration audioPath = Ok d ->
  w_jobs w !! (w_jobs_seq w + 1) = None ->
  redis_failed w = false ->
  pg_failed w = false ->
  pg_failed (pg_next w) = false ->
  pg_failed (pg_next (pg_next w)) = false ->
  let r := AudioProcessing_ProcessAudio Duration audio_GetAudioDuration
             userID audioPath fileName w in
  let id := w_jobs_seq w + 1 in
  fst r = Ok id /\
  w_jobs (snd r) !! id
    = Some (mkJob id (u_ID row) JobStatusQueued audioPath "" "" "" ""
                  (w_clock w) (w_clock w) None "") /\
  llist (w_queues (snd r)) JobTypeTranscription
    = (llist (w_queues w) JobTypeTranscription ++
       [JobJSON 0 id (u_ID row) JobTypeTranscription (w_clock w) (JString audioPath)])%list.
Proof.
  intros Hfind Hdur Hfree Hredis Hpg1 Hpg2 Hpg3 r id. subst r id.
  rewrite (AudioProcessing_ProcessAudio_created _ _ _ _ _ _ _ _ Hfind Hdur Hfree Hpg1 Hpg2).
  cbv zeta.
  match goal with |- fst ?x = _ /\ _ => remember x as r eqn:Hr end.
  unfold bind at 1 in Hr. unfold wrap at 1 in Hr. unfold EnqueueTranscriptionJob in Hr.
  unfold bind at 1 in Hr. unfold time_Now at 1, gets at 1 in Hr. rewrite PushJob_eq in Hr.
  norm_world. unfold redis_failed, pg_failed, pg_next in *. norm_world.
  rewrite Hredis in Hr. cbv zeta in Hr. norm_world. rewrite Hpg3 in Hr.
  cbn [ret] in Hr. subst r. cbn [fst snd]. split; [reflexivity |]. split.
  - cbn. rewrite lookup_alter, decide_True by reflexivity.
    rewrite lookup_insert_eq. reflexivity.
  - cbn. apply llist_insert_eq.
Qed.

Lemma X25_witness :
  let r := AudioProcessing_ProcessAudio Z (fun _ => Ok 12) 42 "a.ogg" "a.ogg" demo_world in
  fst r = Ok 1 /\
  w_jobs (snd r) !! 1
    = Some (mkJob 1 42 JobStatusQueued "a.ogg" "" "" "" "" 100 100 None "") /\
  llist (w_queues (snd r)) JobTypeTranscription
    = [JobJSON 0 1 42 JobTypeTranscription 100 (JString "a.ogg")].
Proof.
  apply (X25_ingestion_success Z (fun _ => Ok 12) 42 "a.ogg" "a.ogg" demo_user 12 demo_world);
    reflexivity.
Defined.

(** X26.  When Redis is unreachable at the push, ingestion leaves a row
    behind that nothing will pick up: [ProcessAudio] returns an error, yet
    the job row it created stays in table jobs with the status [pending],
    and every queue is as it was, so no item for the job has been added. *)
Theorem X26_ingestion_push_failure_leaves_pending_row
    Duration (audio_GetAudioDuration : string -> Outcome Duration)
    userID audioPath fileName row d w :
  find (fun r => u_TelegramID r =? userID) (w_users w) = Some row ->
  audio_GetAudioDuration audioPath = Ok d ->
  w_jobs w !! (w_jobs_seq w + 1) = None ->
  redis_failed w = true ->
  pg_failed w = false ->
  pg_failed (pg_next w) = false ->
  let r := AudioProcessing_ProcessAudio Duration audio_GetAudioDuration
             userID audioPath fileName w in
  let id := w_jobs_seq w + 1 in
  fst r = Err ("failed to push job to queue: failed to push job to queue: " +:+
               "failed to push job to queue: redis: connection failed") /\
  w_jobs (snd r) !! id
    = Some (mkJob id (u_ID row) JobStatusPending audioPath "" "" "" ""
                  (w_clock w) (w_clock w) None "") /\
  w_queues (snd r) = w_queues w.
Proof.
  intros Hfind Hdur Hfree Hredis Hpg1 Hpg2 r id. subst r id.
  rewrite (AudioProcessing_ProcessAudio_created _ _ _ _ _ _ _ _ Hfind Hdur Hfree Hpg1 Hpg2).
  cbv zeta.
  match goal with |- fst ?x = _ /\ _ => remember x as r eqn:Hr end.
  unfold bind at 1 in Hr. unfold wrap at 1 in Hr. unfold EnqueueTranscriptionJob in Hr.
  unfold bind at 1 in Hr. unfold time_Now at 1, gets at 1 in Hr. rewrite PushJob_eq in Hr.
  norm_world. unfold redis_failed, pg_failed, pg_next in *. norm_world.
  rewrite Hredis in Hr. subst r. cbn [fst snd]. split; [reflexivity |]. split.
  - cbn. rewrite lookup_insert_eq. reflexivity.
  - reflexivity.
Qed.

Lemma X26_witness :
  let w := set_redis_faults [true] demo_world in
  let r := AudioProcessing_ProcessAudio Z (fun _ => Ok 12) 42 "a.ogg" "a.ogg" w in
  fst r = Err ("failed to push job to queue: failed to push job to queue: " +:+
               "failed to push job to queue: redis: connection failed") /\
  w_jobs (snd r) !! 1
    = Some (mkJob 1 42 JobStatusPending "a.ogg" "" "" "" "" 100 100 None "") /\
  w_queues (snd r) = w_queues w.
Proof.
  apply (X26_ingestion_push_failure_leaves_pending_row Z (fun _ => Ok 12) 42 "a.ogg" "a.ogg"
           demo_user 12 (set_redis_faults [true] demo_world)); reflexivity.
Defined.



(** ** The completion notification *)

(** X28.  The chat a completion notification is addressed to is the
    job's user_id column: whenever [SendJobCompletionNotification] answers
    with a chat id, the job exists and the chat id is the internal id of the
    job's user, which the function has taken for a Telegram id when looking
    the user up. *)
Theorem X28_notification_goes_to_the_internal_id jobID chat w :
  fst (SendJobCompletionNotification jobID w) = Ok chat ->
  exists row,
    w_jobs w !! jobID = Some row /\
    chat = j_UserID row /\
    exists user, In user (w_users w) /\ u_TelegramID user = j_UserID row.
Proof.
  unfold SendJobCompletionNotification. unfold bind at 1. unfold wrap at 1.
  rewrite GetByID_eq. destruct (pg_failed w); [intros H; discriminate H |].
  destruct (w_jobs w !! jobID) as [row|]; [|intros H; discriminate H].
  unfold bind, wrap, GetByTelegramID, pg_roundtrip.
  destruct (pg_failed _); [intros H; discriminate H |]. cbn.
  destruct (find _ (w_users w)) as [user|] eqn:Hfind; [|intros H; discriminate H].
  cbn. intros [= <-]. apply find_some in Hfind as [Hin Heq].
  apply Z.eqb_eq in Heq. exists row. split; [reflexivity |]. split; [exact Heq |].
  exists user. split; assumption.
Qed.

Lemma X28_witness :
  exists row,
    w_jobs demo_created !! 1 = Some row /\
    42 = j_UserID row /\
    exists user, In user (w_users demo_created) /\ u_TelegramID user = j_UserID row.
Proof.
  apply (X28_notification_goes_to_the_internal_id 1 42 demo_created). reflexivity.
Defined.

(** ** Audio preparation *)

Lemma append_cons c (a b : string) : String c a +:+ b = String c (a +:+ b).
Proof. reflexivity. Qed.

Lemma string_length_app (a b : string) :
  String.length (a +:+ b) = (String.length a + String.length b)%nat.
Proof.
  induction a as [|c a IH]; [reflexivity |].
  rewrite append_cons. cbn [String.length]. rewrite IH. reflexivity.
Qed.

Lemma substring_prefix (a b : string) :
  String.substring 0 (String.length a) (a +:+ b) = a.
Proof.
  induction a as [|c a IH].
  - destruct b; reflexivity.
  - rewrite append_cons. cbn [String.length String.substring]. rewrite IH. reflexivity.
Qed.

Lemma string_app_assoc (a b c : string) : (a +:+ b) +:+ c = a +:+ (b +:+ c).
Proof.
  induction a as [|x a IH]; [reflexivity |]. rewrite !append_cons, IH. reflexivity.
Qed.

Lemma list_ascii_of_string_app (a b : string) :
  String.list_ascii_of_string (a +:+ b)
  = (String.list_ascii_of_string a ++ String.list_ascii_of_string b)%list.
Proof.
  induction a as [|x a IH]; [reflexivity |].
  rewrite append_cons. cbn [String.list_ascii_of_string]. rewrite IH. reflexivity.
Qed.

Lemma string_of_list_ascii_app (a b : list Ascii.ascii) :
  String.string_of_list_ascii (a ++ b)
  = String.string_of_list_ascii a +:+ String.string_of_list_ascii b.
Proof.
  induction a as [|x a IH]; [reflexivity |].
  cbn [app String.string_of_list_ascii]. rewrite IH. reflexivity.
Qed.

Lemma ext_scan_suffix rpath : forall acc,
  exists pre, (rev rpath ++ acc)%list = (pre ++ ext_scan rpath acc)%list.
Proof.
  induction rpath as [|c rest IH]; intros acc; cbn [ext_scan].
  - exists (rev [] ++ acc)%list. rewrite app_nil_r. reflexivity.
  - destruct (Ascii.eqb c _).
    + exists (rev (c :: rest) ++ acc)%list. rewrite app_nil_r. reflexivity.
    + destruct (Ascii.eqb c _).
      * exists (rev rest). cbn [rev]. rewrite <- app_assoc. reflexivity.
      * destruct (IH (c :: acc)) as [pre Hpre]. exists pre.
        cbn [rev]. rewrite <- app_assoc. exact Hpre.
Qed.

Lemma filepath_Ext_suffix path :
  String.substring 0 (String.length path - String.length (filepath_Ext path)) path
    +:+ filepath_Ext path = path.
Proof.
  unfold filepath_Ext.
  destruct (ext_scan_suffix (rev (String.list_ascii_of_string path)) []) as [pre Hpre].
  rewrite rev_involutive, app_nil_r in Hpre.
  set (ext := ext_scan _ _) in *.
  assert (Hpath : path = String.string_of_list_ascii pre +:+ String.string_of_list_ascii ext).
  { rewrite <- string_of_list_ascii_app, <- Hpre.
    symmetry. apply String.string_of_list_ascii_of_string. }
  clearbody ext. subst path. rewrite string_length_app.
  replace (String.length (String.string_of_list_ascii pre)
           + String.length (String.string_of_list_ascii ext)
           - String.length (String.string_of_list_ascii ext))%nat
    with (String.length (String.string_of_list_ascii pre)) by lia.
  rewrite substring_prefix. reflexivity.
Qed.

Lemma filepath_Ext_wav stem : filepath_Ext (stem +:+ ".wav") = ".wav".
Proof.
  unfold filepath_Ext. rewrite list_ascii_of_string_app, rev_app_distr. reflexivity.
Qed.

Lemma trim_wav stem :
  String.substring 0 (String.length (stem +:+ ".wav") - String.length ".wav") (stem +:+ ".wav")
  = stem.
Proof.
  rewrite string_length_app.
  replace (String.length stem + String.length ".wav" - String.length ".wav")%nat
    with (String.length stem) by lia.
  apply substring_prefix.
Qed.

Lemma addSuffix_wav stem suffix :
  addSuffix (stem +:+ ".wav") suffix = (stem +:+ suffix) +:+ ".wav".
Proof. unfold addSuffix. cbv zeta. rewrite filepath_Ext_wav, trim_wav. reflexivity. Qed.

Lemma prepared_path inputPath :
  addSuffix (addSuffix (changeExt inputPath ".wav") "_normalized") "_denoised"
  = changeExt inputPath "_normalized_denoised.wav".
Proof.
  unfold changeExt. cbv zeta. rewrite !addSuffix_wav.
  rewrite !string_app_assoc. reflexivity.
Qed.

Lemma normalized_path inputPath :
  addSuffix (changeExt inputPath ".wav") "_normalized"
  = changeExt inputPath "_normalized.wav".
Proof.
  unfold changeExt. cbv zeta. rewrite addSuffix_wav, string_app_assoc. reflexivity.
Qed.

Lemma denoised_path inputPath :
  addSuffix (changeExt inputPath "_normalized.wav") "_denoised"
  = changeExt inputPath "_normalized_denoised.wav".
Proof. rewrite <- normalized_path. apply prepared_path. Qed.

(** X29.  When the preparation of an audio file ([ProcessAudio] of the
    audio service) succeeds, the path it returns is the input path with its extension replaced by
    "_normalized_denoised.wav", and exactly three ffmpeg commands have run,
    in this order: the conversion from the input to the ".wav" path, the
    loudness normalisation from there to the "_normalized.wav" path, and the
    noise removal from there to the path returned. *)
Theorem X29_prepared_audio_path
    ffmpegPath exec_CombinedOutput os_Stat inputPath fileName out h h' :
  AudioService_ProcessAudio ffmpegPath exec_CombinedOutput os_Stat inputPath fileName h
    = (Ok out, h') ->
  out = changeExt inputPath "_normalized_denoised.wav" /\
  h' = (h ++
        [[ffmpegPath; "-i"; inputPath; "-acodec"; "pcm_s16le"; "-ar"; "16000"; "-ac"; "1";
          "-y"; changeExt inputPath ".wav"];
         [ffmpegPath; "-i"; changeExt inputPath ".wav"; "-filter:a";
          "loudnorm=I=-16:TP=-1.5:LRA=11"; "-y"; changeExt inputPath "_normalized.wav"];
         [ffmpegPath; "-i"; changeExt inputPath "_normalized.wav"; "-af"; "afftdn=nf=-25";
          "-y"; changeExt inputPath "_normalized_denoised.wav"]])%list.
Proof.
  unfold AudioService_ProcessAudio, ProcessAudioForTranscription, ConvertToWAV,
    NormalizeAudio, RemoveNoise, run_ffmpeg.
  cbv zeta.
  destruct (exec_CombinedOutput h _) as [[err output]|]; [intros H; discriminate H |].
  destruct (os_Stat _ (changeExt inputPath ".wav")); [|intros H; discriminate H|];
    (rewrite normalized_path;
     destruct (exec_CombinedOutput _ _) as [[err output]|]; [intros H; discriminate H |];
     destruct (os_Stat _ (changeExt inputPath "_normalized.wav"));
       [|intros H; discriminate H|];
       (rewrite denoised_path;
        destruct (exec_CombinedOutput _ _) as [[err output]|]; [intros H; discriminate H |];
        destruct (os_Stat _ (changeExt inputPath "_normalized_denoised.wav"));
          [|intros H; discriminate H|];
          (intros [= <- <-]; split; [reflexivity |];
           rewrite <- !app_assoc; reflexivity))).
Qed.

Lemma X29_witness :
  "uploads/user_42/voice_normalized_denoised.wav"
    = changeExt "uploads/user_42/voice.ogg" "_normalized_denoised.wav" /\
  [["ffmpeg"; "-i"; "uploads/user_42/voice.ogg"; "-acodec"; "pcm_s16le"; "-ar"; "16000";
    "-ac"; "1"; "-y"; "uploads/user_42/voice.wav"];
   ["ffmpeg"; "-i"; "uploads/user_42/voice.wav"; "-filter:a";
    "loudnorm=I=-16:TP=-1.5:LRA=11"; "-y"; "uploads/user_42/voice_normalized.wav"];
   ["ffmpeg"; "-i"; "uploads/user_42/voice_normalized.wav"; "-af"; "afftdn=nf=-25"; "-y";
    "uploads/user_42/voice_normalized_denoised.wav"]]
    = ([] ++
       [["ffmpeg"; "-i"; "uploads/user_42/voice.ogg"; "-acodec"; "pcm_s16le"; "-ar"; "16000";
         "-ac"; "1"; "-y"; changeExt "uploads/user_42/voice.ogg" ".wav"];
        ["ffmpeg"; "-i"; changeExt "uploads/user_42/voice.ogg" ".wav"; "-filter:a";
         "loudnorm=I=-16:TP=-1.5:LRA=11"; "-y";
         changeExt "uploads/user_42/voice.ogg" "_normalized.wav"];
        ["ffmpeg"; "-i"; changeExt "uploads/user_42/voice.ogg" "_normalized.wav"; "-af";
         "afftdn=nf=-25"; "-y";
         changeExt "uploads/user_42/voice.ogg" "_normalized_denoised.wav"]])%list.
Proof.
  apply (X29_prepared_audio_path "ffmpeg" (fun _ _ => None) (fun _ _ => StatOk)
           "uploads/user_42/voice.ogg" "voice.ogg"). vm_compute. reflexivity.
Defined.

(** X30.  A file that already has the extension ".wav" is converted onto
    itself: the output path of [ConvertToWAV] is the input path, so the one
    command it runs names the same file after "-i" and as its output. *)
Theorem X30_wav_input_is_converted_in_place
    ffmpegPath exec_CombinedOutput os_Stat inputPath h :
  filepath_Ext inputPath = ".wav" ->
  changeExt inputPath ".wav" = inputPath /\
  snd (ConvertToWAV ffmpegPath exec_CombinedOutput os_Stat inputPath h)
    = (h ++ [[ffmpegPath; "-i"; inputPath; "-acodec"; "pcm_s16le"; "-ar"; "16000";
              "-ac"; "1"; "-y"; inputPath]])%list.
Proof.
  intros Hext.
  assert (Hsame : changeExt inputPath ".wav" = inputPath).
  { rewrite <- (filepath_Ext_suffix inputPath) at 2. unfold changeExt. cbv zeta.
    rewrite Hext. reflexivity. }
  split; [exact Hsame |].
  unfold ConvertToWAV, run_ffmpeg. cbv zeta. rewrite Hsame.
  destruct (exec_CombinedOutput h _) as [[err output]|]; [reflexivity |].
  destruct (os_Stat _ inputPath); reflexivity.
Qed.

Lemma X30_witness :
  changeExt "uploads/user_42/voice.wav" ".wav" = "uploads/user_42/voice.wav" /\
  snd (ConvertToWAV "ffmpeg" (fun _ _ => None) (fun _ _ => StatOk)
         "uploads/user_42/voice.wav" [])
    = ([] ++ [["ffmpeg"; "-i"; "uploads/user_42/voice.wav"; "-acodec"; "pcm_s16le"; "-ar";
               "16000"; "-ac"; "1"; "-y"; "uploads/user_42/voice.wav"]])%list.
Proof.
  apply (X30_wav_input_is_converted_in_place "ffmpeg" (fun _ _ => None) (fun _ _ => StatOk)
           "uploads/user_42/voice.wav" []). vm_compute. reflexivity.
Defined.
